(** * Range-image projection, ground removal and segmentation of a lidar sweep

    A shallow embedding of [src/image_projection.cc] (class
    [apollo::tools::ImageProjection]) and the properties of it that the
    specification states.

    Conventions of the embedding.
    - C++ [int] and [size_t] values are integers of [Z]; the counters of the
      flood fill are shown to stay within [N_SCAN * HORIZON_SCAN], and the
      label counter to grow by at most that much in a frame, so they do not
      wrap.  Where the source converts a possibly negative value to
      [size_t] the conversion is written out ([to_size_t], [as_size_t]).
    - [float] and the functions of <cmath> are an interface ([FloatOps]): the
      model is parametric in the floating-point arithmetic and every theorem
      holds for each implementation of it.
    - [cv::Mat] and [std::vector] are lists (row-major for a matrix) with
      checked accesses: an access outside the container, undefined in C++,
      is the result [Err OutOfBounds].
    - a failing [CHECK] stops the process: [Halt CheckFailed]. *)

From Stdlib Require Import ZArith QArith Qabs Qround Lia Bool List String.
From stdpp Require Import base tactics option list numbers gmap.

Close Scope Q_scope.
Open Scope Z_scope.

(** ** Results of fallible code *)

Inductive failure := OutOfBounds | OutOfFuel | CheckFailed.

Inductive res (A : Type) := Ok (a : A) | Err (e : failure).
Arguments Ok {A} a.
Arguments Err {A} e.

#[global] Instance res_ret : MRet res := λ A a, Ok a.
#[global] Instance res_bind : MBind res :=
  λ A B f m, match m with Ok a => f a | Err e => Err e end.

(** A [for] loop over the index list [xs] with a fallible body. *)
Fixpoint for_each {S A : Type} (xs : list A) (body : A → S → res S) (s : S) : res S :=
  match xs with
  | [] => Ok s
  | a :: xs' => s' ← body a s; for_each xs' body s'
  end.

(** ** Containers *)

(** [v[i]] on a [std::vector] (or a plain array). *)
Definition vec_get {A} (v : list A) (i : Z) : res A :=
  if bool_decide (0 ≤ i) then
    match v !! Z.to_nat i with Some a => Ok a | None => Err OutOfBounds end
  else Err OutOfBounds.

(** [v[i] = a]. *)
Definition vec_set {A} (v : list A) (i : Z) (a : A) : res (list A) :=
  if bool_decide (0 ≤ i < Z.of_nat (length v)) then Ok (<[Z.to_nat i := a]> v)
  else Err OutOfBounds.

(** ** Floating point and <cmath> *)

Class FloatOps (F : Type) := {
  Fadd : F → F → F;
  Fsub : F → F → F;
  Fmul : F → F → F;
  Fdiv : F → F → F;
  Fneg : F → F;
  Fabs : F → F;
  Fsqrt : F → F;
  Fsin : F → F;
  Fcos : F → F;
  Fatan2 : F → F → F;
  Fround : F → F;
  Fltb : F → F → bool;
  Fleb : F → F → bool;
  Feqb : F → F → bool;
  Fof_Z : Z → F;
  (** the integer part, rounding toward zero *)
  Ftrunc : F → Z;
  FLT_MAX : F;
  M_PI : F;
  quiet_NaN : F
}.

(** Conversion of a floating-point value to [size_t]: the fractional part is
    discarded; a truncated value below zero (undefined in C++) wraps modulo
    2^64, as the conversion through a signed 64-bit register does. *)
Definition to_size_t `{FloatOps F} (f : F) : Z := Ftrunc f `mod` 2 ^ 64.

(** Conversion of an [int] to [size_t] in a mixed comparison. *)
Definition as_size_t (i : Z) : Z := i `mod` 2 ^ 64.

(** [std::minmax(a, b)]: the pair (smaller, larger). *)
Definition minmax `{FloatOps F} (a b : F) : F * F :=
  if Fltb b a then (b, a) else (a, b).

(** ** Points, messages *)

Record PointType (F : Type) := mkPoint {
  pt_x : F;
  pt_y : F;
  pt_z : F;
  pt_intensity : F
}.
Arguments mkPoint {F}.
Arguments pt_x {F}.
Arguments pt_y {F}.
Arguments pt_z {F}.
Arguments pt_intensity {F}.

Definition set_intensity {F} (v : F) (p : PointType F) : PointType F :=
  mkPoint (pt_x p) (pt_y p) (pt_z p) v.

Record PointXYZIR (F : Type) := mkPointR {
  ptr_point : PointType F;
  ring : Z
}.
Arguments mkPointR {F}.
Arguments ptr_point {F}.
Arguments ring {F}.

(** [drivers::PointCloud]: the message of the lidar driver. *)
Record DriverPointCloud (F : Type) := mkDriverCloud {
  msg_timestamp_sec : F;
  msg_points : list (PointXYZIR F);
  msg_is_dense : bool
}.
Arguments mkDriverCloud {F}.
Arguments msg_timestamp_sec {F}.
Arguments msg_points {F}.
Arguments msg_is_dense {F}.

(** [cloud_msgs::CloudInfo].  The repeated fields are assigned by index. *)
Record CloudInfo (F : Type) := mkCloudInfo {
  stamp : option F;
  startOrientation : option F;
  endOrientation : option F;
  orientationDiff : option F;
  startRingIndex : gmap Z Z;
  endRingIndex : gmap Z Z;
  segmentedCloudGroundFlag : gmap Z bool;
  segmentedCloudColInd : gmap Z Z;
  segmentedCloudRange : gmap Z F
}.
Arguments mkCloudInfo {F}.
Arguments stamp {F}.
Arguments startOrientation {F}.
Arguments endOrientation {F}.
Arguments orientationDiff {F}.
Arguments startRingIndex {F}.
Arguments endRingIndex {F}.
Arguments segmentedCloudGroundFlag {F}.
Arguments segmentedCloudColInd {F}.
Arguments segmentedCloudRange {F}.

(** A default-constructed [CloudInfo]. *)
Definition CloudInfo_init {F} : CloudInfo F :=
  mkCloudInfo None None None None ∅ ∅ ∅ ∅ ∅.

(** What a writer has been given. *)
Inductive Message (F : Type) :=
  | MsgCloudInfo (m : CloudInfo F)
  | MsgCloud (topic : string) (timestamp_sec : option F) (frame_id : string)
             (points : list (PointType F)).
Arguments MsgCloudInfo {F}.
Arguments MsgCloud {F}.

(** ** The constants and helpers of utility.h, which the source includes

    [N_SCAN], [HORIZON_SCAN] and [groundScanInd] are [int] constants that
    are not negative: compared with a [size_t] index they keep their value. *)

Record Utility (F : Type) := mkUtility {
  N_SCAN : Z;
  HORIZON_SCAN : Z;
  ang_res_x : F;
  ang_res_y : F;
  ang_bottom : F;
  groundScanInd : Z;
  segmentTheta : F;
  segmentAlphaX : F;
  segmentAlphaY : F;
  segmentValidPointNum : Z;
  segmentValidLineNum : Z;
  FLAGS_use_cloud_ring : bool;
  FLAGS_sensor_mount_angle : F;
  FLAGS_sensor_minimum_range : F;
  (** [IsNaN(point)]: the slot holds no return *)
  IsNaN : PointType F → bool;
  (** [pcl::removeNaNFromPointCloud] *)
  removeNaNFromPointCloud : list (PointType F) → list (PointType F)
}.
Arguments N_SCAN {F}.
Arguments HORIZON_SCAN {F}.
Arguments ang_res_x {F}.
Arguments ang_res_y {F}.
Arguments ang_bottom {F}.
Arguments groundScanInd {F}.
Arguments segmentTheta {F}.
Arguments segmentAlphaX {F}.
Arguments segmentAlphaY {F}.
Arguments segmentValidPointNum {F}.
Arguments segmentValidLineNum {F}.
Arguments FLAGS_use_cloud_ring {F}.
Arguments FLAGS_sensor_mount_angle {F}.
Arguments FLAGS_sensor_minimum_range {F}.
Arguments IsNaN {F}.
Arguments removeNaNFromPointCloud {F}.

Definition dirs : list (Z * Z) := [(-1, 0); (0, 1); (0, -1); (1, 0)].
Definition LABEL_INIT : Z := 0.
Definition LABEL_INVALID : Z := 999999.

(** ** The object *)

Record ImageProjection (F : Type) := mkIP {
  laser_cloud_in : list (PointType F);
  laser_cloud_in_ring : list (PointXYZIR F);
  full_cloud : list (PointType F);
  full_info_cloud : list (PointType F);
  ground_cloud : list (PointType F);
  segmented_cloud : list (PointType F);
  segmented_cloud_pure : list (PointType F);
  outlier_cloud : list (PointType F);
  range_mat : list F;
  ground_mat : list Z;
  label_mat : list Z;
  label_count : Z;
  alpha : F;
  all_pushed_indX : list Z;
  all_pushed_indY : list Z;
  queue_indX : list Z;
  queue_indY : list Z;
  seg_msg : CloudInfo F;
  cloud_header : option F;
  (** everything handed to the writers, oldest first *)
  written : list (Message F)
}.
Arguments mkIP {F}.
Arguments laser_cloud_in {F}.
Arguments laser_cloud_in_ring {F}.
Arguments full_cloud {F}.
Arguments full_info_cloud {F}.
Arguments ground_cloud {F}.
Arguments segmented_cloud {F}.
Arguments segmented_cloud_pure {F}.
Arguments outlier_cloud {F}.
Arguments range_mat {F}.
Arguments ground_mat {F}.
Arguments label_mat {F}.
Arguments label_count {F}.
Arguments alpha {F}.
Arguments all_pushed_indX {F}.
Arguments all_pushed_indY {F}.
Arguments queue_indX {F}.
Arguments queue_indY {F}.
Arguments seg_msg {F}.
Arguments cloud_header {F}.
Arguments written {F}.

(** Assignment to one member; the others are kept. *)

Definition set_laser_cloud_in {F} (v : list (PointType F)) (s : ImageProjection F) :
  ImageProjection F :=
  mkIP v (laser_cloud_in_ring s) (full_cloud s) (full_info_cloud s)
    (ground_cloud s) (segmented_cloud s) (segmented_cloud_pure s)
    (outlier_cloud s) (range_mat s) (ground_mat s) (label_mat s)
    (label_count s) (alpha s) (all_pushed_indX s) (all_pushed_indY s)
    (queue_indX s) (queue_indY s) (seg_msg s) (cloud_header s) (written s).

Definition set_laser_cloud_in_ring {F} (v : list (PointXYZIR F)) (s : ImageProjection F) :
  ImageProjection F :=
  mkIP (laser_cloud_in s) v (full_cloud s) (full_info_cloud s)
    (ground_cloud s) (segmented_cloud s) (segmented_cloud_pure s)
    (outlier_cloud s) (range_mat s) (ground_mat s) (label_mat s)
    (label_count s) (alpha s) (all_pushed_indX s) (all_pushed_indY s)
    (queue_indX s) (queue_indY s) (seg_msg s) (cloud_header s) (written s).

Definition set_full_cloud {F} (v : list (PointType F)) (s : ImageProjection F) :
  ImageProjection F :=
  mkIP (laser_cloud_in s) (laser_cloud_in_ring s) v (full_info_cloud s)
    (ground_cloud s) (segmented_cloud s) (segmented_cloud_pure s)
    (outlier_cloud s) (range_mat s) (ground_mat s) (label_mat s)
    (label_count s) (alpha s) (all_pushed_indX s) (all_pushed_indY s)
    (queue_indX s) (queue_indY s) (seg_msg s) (cloud_header s) (written s).

Definition set_full_info_cloud {F} (v : list (PointType F)) (s : ImageProjection F) :
  ImageProjection F :=
  mkIP (laser_cloud_in s) (laser_cloud_in_ring s) (full_cloud s) v
    (ground_cloud s) (segmented_cloud s) (segmented_cloud_pure s)
    (outlier_cloud s) (range_mat s) (ground_mat s) (label_mat s)
    (label_count s) (alpha s) (all_pushed_indX s) (all_pushed_indY s)
    (queue_indX s) (queue_indY s) (seg_msg s) (cloud_header s) (written s).

Definition set_ground_cloud {F} (v : list (PointType F)) (s : ImageProjection F) :
  ImageProjection F :=
  mkIP (laser_cloud_in s) (laser_cloud_in_ring s) (full_cloud s)
    (full_info_cloud s) v (segmented_cloud s) (segmented_cloud_pure s)
    (outlier_cloud s) (range_mat s) (ground_mat s) (label_mat s)
    (label_count s) (alpha s) (all_pushed_indX s) (all_pushed_indY s)
    (queue_indX s) (queue_indY s) (seg_msg s) (cloud_header s) (written s).

Definition set_segmented_cloud {F} (v : list (PointType F)) (s : ImageProjection F) :
  ImageProjection F :=
  mkIP (laser_cloud_in s) (laser_cloud_in_ring s) (full_cloud s)
    (full_info_cloud s) (ground_cloud s) v (segmented_cloud_pure s)
    (outlier_cloud s) (range_mat s) (ground_mat s) (label_mat s)
    (label_count s) (alpha s) (all_pushed_indX s) (all_pushed_indY s)
    (queue_indX s) (queue_indY s) (seg_msg s) (cloud_header s) (written s).

Definition set_segmented_cloud_pure {F} (v : list (PointType F)) (s : ImageProjection F) :
  ImageProjection F :=
  mkIP (laser_cloud_in s) (laser_cloud_in_ring s) (full_cloud s)
    (full_info_cloud s) (ground_cloud s) (segmented_cloud s) v
    (outlier_cloud s) (range_mat s) (ground_mat s) (label_mat s)
    (label_count s) (alpha s) (all_pushed_indX s) (all_pushed_indY s)
    (queue_indX s) (queue_indY s) (seg_msg s) (cloud_header s) (written s).

Definition set_outlier_cloud {F} (v : list (PointType F)) (s : ImageProjection F) :
  ImageProjection F :=
  mkIP (laser_cloud_in s) (laser_cloud_in_ring s) (full_cloud s)
    (full_info_cloud s) (ground_cloud s) (segmented_cloud s)
    (segmented_cloud_pure s) v (range_mat s) (ground_mat s) (label_mat s)
    (label_count s) (alpha s) (all_pushed_indX s) (all_pushed_indY s)
    (queue_indX s) (queue_indY s) (seg_msg s) (cloud_header s) (written s).

Definition set_range_mat {F} (v : list F) (s : ImageProjection F) :
  ImageProjection F :=
  mkIP (laser_cloud_in s) (laser_cloud_in_ring s) (full_cloud s)
    (full_info_cloud s) (ground_cloud s) (segmented_cloud s)
    (segmented_cloud_pure s) (outlier_cloud s) v (ground_mat s) (label_mat s)
    (label_count s) (alpha s) (all_pushed_indX s) (all_pushed_indY s)
    (queue_indX s) (queue_indY s) (seg_msg s) (cloud_header s) (written s).

Definition set_ground_mat {F} (v : list Z) (s : ImageProjection F) :
  ImageProjection F :=
  mkIP (laser_cloud_in s) (laser_cloud_in_ring s) (full_cloud s)
    (full_info_cloud s) (ground_cloud s) (segmented_cloud s)
    (segmented_cloud_pure s) (outlier_cloud s) (range_mat s) v (label_mat s)
    (label_count s) (alpha s) (all_pushed_indX s) (all_pushed_indY s)
    (queue_indX s) (queue_indY s) (seg_msg s) (cloud_header s) (written s).

Definition set_label_mat {F} (v : list Z) (s : ImageProjection F) :
  ImageProjection F :=
  mkIP (laser_cloud_in s) (laser_cloud_in_ring s) (full_cloud s)
    (full_info_cloud s) (ground_cloud s) (segmented_cloud s)
    (segmented_cloud_pure s) (outlier_cloud s) (range_mat s) (ground_mat s) v
    (label_count s) (alpha s) (all_pushed_indX s) (all_pushed_indY s)
    (queue_indX s) (queue_indY s) (seg_msg s) (cloud_header s) (written s).

Definition set_label_count {F} (v : Z) (s : ImageProjection F) :
  ImageProjection F :=
  mkIP (laser_cloud_in s) (laser_cloud_in_ring s) (full_cloud s)
    (full_info_cloud s) (ground_cloud s) (segmented_cloud s)
    (segmented_cloud_pure s) (outlier_cloud s) (range_mat s) (ground_mat s)
    (label_mat s) v (alpha s) (all_pushed_indX s) (all_pushed_indY s)
    (queue_indX s) (queue_indY s) (seg_msg s) (cloud_header s) (written s).

Definition set_alpha {F} (v : F) (s : ImageProjection F) :
  ImageProjection F :=
  mkIP (laser_cloud_in s) (laser_cloud_in_ring s) (full_cloud s)
    (full_info_cloud s) (ground_cloud s) (segmented_cloud s)
    (segmented_cloud_pure s) (outlier_cloud s) (range_mat s) (ground_mat s)
    (label_mat s) (label_count s) v (all_pushed_indX s) (all_pushed_indY s)
    (queue_indX s) (queue_indY s) (seg_msg s) (cloud_header s) (written s).

Definition set_all_pushed_indX {F} (v : list Z) (s : ImageProjection F) :
  ImageProjection F :=
  mkIP (laser_cloud_in s) (laser_cloud_in_ring s) (full_cloud s)
    (full_info_cloud s) (ground_cloud s) (segmented_cloud s)
    (segmented_cloud_pure s) (outlier_cloud s) (range_mat s) (ground_mat s)
    (label_mat s) (label_count s) (alpha s) v (all_pushed_indY s)
    (queue_indX s) (queue_indY s) (seg_msg s) (cloud_header s) (written s).

Definition set_all_pushed_indY {F} (v : list Z) (s : ImageProjection F) :
  ImageProjection F :=
  mkIP (laser_cloud_in s) (laser_cloud_in_ring s) (full_cloud s)
    (full_info_cloud s) (ground_cloud s) (segmented_cloud s)
    (segmented_cloud_pure s) (outlier_cloud s) (range_mat s) (ground_mat s)
    (label_mat s) (label_count s) (alpha s) (all_pushed_indX s) v
    (queue_indX s) (queue_indY s) (seg_msg s) (cloud_header s) (written s).

Definition set_queue_indX {F} (v : list Z) (s : ImageProjection F) :
  ImageProjection F :=
  mkIP (laser_cloud_in s) (laser_cloud_in_ring s) (full_cloud s)
    (full_info_cloud s) (ground_cloud s) (segmented_cloud s)
    (segmented_cloud_pure s) (outlier_cloud s) (range_mat s) (ground_mat s)
    (label_mat s) (label_count s) (alpha s) (all_pushed_indX s)
    (all_pushed_indY s) v (queue_indY s) (seg_msg s) (cloud_header s)
    (written s).

Definition set_queue_indY {F} (v : list Z) (s : ImageProjection F) :
  ImageProjection F :=
  mkIP (laser_cloud_in s) (laser_cloud_in_ring s) (full_cloud s)
    (full_info_cloud s) (ground_cloud s) (segmented_cloud s)
    (segmented_cloud_pure s) (outlier_cloud s) (range_mat s) (ground_mat s)
    (label_mat s) (label_count s) (alpha s) (all_pushed_indX s)
    (all_pushed_indY s) (queue_indX s) v (seg_msg s) (cloud_header s)
    (written s).

Definition set_seg_msg {F} (v : CloudInfo F) (s : ImageProjection F) :
  ImageProjection F :=
  mkIP (laser_cloud_in s) (laser_cloud_in_ring s) (full_cloud s)
    (full_info_cloud s) (ground_cloud s) (segmented_cloud s)
    (segmented_cloud_pure s) (outlier_cloud s) (range_mat s) (ground_mat s)
    (label_mat s) (label_count s) (alpha s) (all_pushed_indX s)
    (all_pushed_indY s) (queue_indX s) (queue_indY s) v (cloud_header s)
    (written s).

Definition set_cloud_header {F} (v : option F) (s : ImageProjection F) :
  ImageProjection F :=
  mkIP (laser_cloud_in s) (laser_cloud_in_ring s) (full_cloud s)
    (full_info_cloud s) (ground_cloud s) (segmented_cloud s)
    (segmented_cloud_pure s) (outlier_cloud s) (range_mat s) (ground_mat s)
    (label_mat s) (label_count s) (alpha s) (all_pushed_indX s)
    (all_pushed_indY s) (queue_indX s) (queue_indY s) (seg_msg s) v
    (written s).

Definition set_written {F} (v : list (Message F)) (s : ImageProjection F) :
  ImageProjection F :=
  mkIP (laser_cloud_in s) (laser_cloud_in_ring s) (full_cloud s)
    (full_info_cloud s) (ground_cloud s) (segmented_cloud s)
    (segmented_cloud_pure s) (outlier_cloud s) (range_mat s) (ground_mat s)
    (label_mat s) (label_count s) (alpha s) (all_pushed_indX s)
    (all_pushed_indY s) (queue_indX s) (queue_indY s) (seg_msg s)
    (cloud_header s) v.

Definition set_stamp {F} (v : option F) (m : CloudInfo F) : CloudInfo F :=
  mkCloudInfo v (startOrientation m) (endOrientation m) (orientationDiff m)
    (startRingIndex m) (endRingIndex m) (segmentedCloudGroundFlag m)
    (segmentedCloudColInd m) (segmentedCloudRange m).

Definition set_startOrientation {F} (v : option F) (m : CloudInfo F) : CloudInfo F :=
  mkCloudInfo (stamp m) v (endOrientation m) (orientationDiff m)
    (startRingIndex m) (endRingIndex m) (segmentedCloudGroundFlag m)
    (segmentedCloudColInd m) (segmentedCloudRange m).

Definition set_endOrientation {F} (v : option F) (m : CloudInfo F) : CloudInfo F :=
  mkCloudInfo (stamp m) (startOrientation m) v (orientationDiff m)
    (startRingIndex m) (endRingIndex m) (segmentedCloudGroundFlag m)
    (segmentedCloudColInd m) (segmentedCloudRange m).

Definition set_orientationDiff {F} (v : option F) (m : CloudInfo F) : CloudInfo F :=
  mkCloudInfo (stamp m) (startOrientation m) (endOrientation m) v
    (startRingIndex m) (endRingIndex m) (segmentedCloudGroundFlag m)
    (segmentedCloudColInd m) (segmentedCloudRange m).

Definition set_startRingIndex {F} (v : gmap Z Z) (m : CloudInfo F) : CloudInfo F :=
  mkCloudInfo (stamp m) (startOrientation m) (endOrientation m)
    (orientationDiff m) v (endRingIndex m) (segmentedCloudGroundFlag m)
    (segmentedCloudColInd m) (segmentedCloudRange m).

Definition set_endRingIndex {F} (v : gmap Z Z) (m : CloudInfo F) : CloudInfo F :=
  mkCloudInfo (stamp m) (startOrientation m) (endOrientation m)
    (orientationDiff m) (startRingIndex m) v (segmentedCloudGroundFlag m)
    (segmentedCloudColInd m) (segmentedCloudRange m).

Definition set_segmentedCloudGroundFlag {F} (v : gmap Z bool) (m : CloudInfo F) : CloudInfo F :=
  mkCloudInfo (stamp m) (startOrientation m) (endOrientation m)
    (orientationDiff m) (startRingIndex m) (endRingIndex m) v
    (segmentedCloudColInd m) (segmentedCloudRange m).

Definition set_segmentedCloudColInd {F} (v : gmap Z Z) (m : CloudInfo F) : CloudInfo F :=
  mkCloudInfo (stamp m) (startOrientation m) (endOrientation m)
    (orientationDiff m) (startRingIndex m) (endRingIndex m)
    (segmentedCloudGroundFlag m) v (segmentedCloudRange m).

Definition set_segmentedCloudRange {F} (v : gmap Z F) (m : CloudInfo F) : CloudInfo F :=
  mkCloudInfo (stamp m) (startOrientation m) (endOrientation m)
    (orientationDiff m) (startRingIndex m) (endRingIndex m)
    (segmentedCloudGroundFlag m) (segmentedCloudColInd m) v.

(** What a method leaves behind: the object, or the object at the point
    where the process stopped. *)
Inductive step (S : Type) := Next (s : S) | Halt (e : failure) (s : S).
Arguments Next {S} s.
Arguments Halt {S} e s.

Definition and_then {S} (m : step S) (f : S → step S) : step S :=
  match m with Next s => f s | Halt e s => Halt e s end.

(** A method that stops only on an undefined access: the object is then
    reported as it was when the method was entered. *)
Definition run {S} (f : S → res S) (s : S) : step S :=
  match f s with Ok s' => Next s' | Err e => Halt e s end.

(** The local variables of [LabelComponents]. *)
Record bfs_locals := mkLocals {
  all_pushed_ind_size : Z;
  queue_start_ind : Z;
  queue_end_ind : Z;
  queue_size : Z;
  line_count_flag : list bool
}.

Section Model.
Context {F : Type} {fops : FloatOps F} (U : Utility F).

Abbreviation IP := (ImageProjection F).

(** *** Matrices of [N_SCAN] rows and [HORIZON_SCAN] columns *)

Definition cells : nat := Z.to_nat (N_SCAN U * HORIZON_SCAN U).

Definition in_image (r c : Z) : Prop :=
  0 ≤ r < N_SCAN U ∧ 0 ≤ c < HORIZON_SCAN U.

(** Position of the element (r, c) in the row-major data. *)
Definition offset (r c : Z) : nat := Z.to_nat (c + r * HORIZON_SCAN U).

(** [m.at<T>(r, c)] *)
Definition mat_at {A} (m : list A) (r c : Z) : res A :=
  if bool_decide (in_image r c) then
    match m !! offset r c with Some a => Ok a | None => Err OutOfBounds end
  else Err OutOfBounds.

(** [m.at<T>(r, c) = a] *)
Definition mat_set {A} (m : list A) (r c : Z) (a : A) : res (list A) :=
  if bool_decide (in_image r c ∧ (offset r c < length m)%nat)
  then Ok (<[offset r c := a]> m)
  else Err OutOfBounds.

(** *** Constructor, AllocateMemory, ResetParameters *)

Definition nan_point : PointType F :=
  mkPoint quiet_NaN quiet_NaN quiet_NaN (Fof_Z (-1)).

Definition default_point : PointType F :=
  mkPoint (Fof_Z 0) (Fof_Z 0) (Fof_Z 0) (Fof_Z 0).

(** [v.resize(n)] *)
Definition resize_vec {A} (n : nat) (d : A) (v : list A) : list A :=
  take n v ++ replicate (n - length v) d.

(** The constructor sizes the four work arrays.  [label_count] and [alpha]
    are not initialised by it; they are assigned before they are read. *)
Definition ImageProjection_ctor : IP :=
  mkIP [] [] [] [] [] [] [] [] [] [] [] 0 (Fof_Z 0)
       (replicate cells 0) (replicate cells 0)
       (replicate cells 0) (replicate cells 0)
       CloudInfo_init None [].

Definition AllocateMemory (s : IP) : IP :=
  let s := set_laser_cloud_in [] s in
  let s := set_laser_cloud_in_ring [] s in
  let s := set_full_cloud (resize_vec cells default_point []) s in
  let s := set_full_info_cloud (resize_vec cells default_point []) s in
  let s := set_ground_cloud [] s in
  let s := set_segmented_cloud [] s in
  let s := set_segmented_cloud_pure [] s in
  set_outlier_cloud [] s.

Definition ResetParameters (s : IP) : IP :=
  let s := set_laser_cloud_in [] s in
  let s := set_laser_cloud_in_ring [] s in
  let s := set_ground_cloud [] s in
  let s := set_segmented_cloud [] s in
  let s := set_segmented_cloud_pure [] s in
  let s := set_outlier_cloud [] s in
  let s := set_range_mat (replicate cells FLT_MAX) s in
  let s := set_ground_mat (replicate cells 0) s in
  let s := set_label_mat (replicate cells LABEL_INIT) s in
  let s := set_label_count 1 s in
  let s := set_full_cloud (replicate (length (full_cloud s)) nan_point) s in
  set_full_info_cloud (replicate (length (full_info_cloud s)) nan_point) s.

(** *** CopyPointCloud *)

Definition CopyPointCloud (msg : DriverPointCloud F) (s : IP) : step IP :=
  let s := set_cloud_header (Some (msg_timestamp_sec msg)) s in
  let s := set_laser_cloud_in (ptr_point <$> msg_points msg) s in
  let s := set_laser_cloud_in
             (removeNaNFromPointCloud U (laser_cloud_in s)) s in
  if FLAGS_use_cloud_ring U then
    let s := set_laser_cloud_in_ring (msg_points msg) s in
    if msg_is_dense msg then Next s else Halt CheckFailed s
  else Next s.

(** *** FindStartEndAngle *)

Definition orientation_span (front back : PointType F) : F :=
  Fsub (Fadd (Fatan2 (pt_x back) (pt_y back)) (Fmul (Fof_Z 2) M_PI))
       (Fatan2 (pt_x front) (pt_y front)).

Definition FindStartEndAngle (s : IP) : step IP :=
  match head (laser_cloud_in s), last (laser_cloud_in s) with
  | Some front, Some back =>
    let m := seg_msg s in
    let m := set_startOrientation
               (Some (Fatan2 (pt_x front) (pt_y front))) m in
    let m := set_endOrientation
               (Some (Fadd (Fatan2 (pt_x back) (pt_y back))
                           (Fmul (Fof_Z 2) M_PI))) m in
    let m := set_orientationDiff (Some (orientation_span front back)) m in
    let s := set_seg_msg m s in
    if negb (Fltb (orientation_span front back) (Fmul (Fof_Z 3) M_PI))
    then Halt CheckFailed s
    else if negb (Fltb M_PI (orientation_span front back))
    then Halt CheckFailed s
    else Next s
  | _, _ => Halt OutOfBounds s
  end.

(** *** ProjectPointCloud *)

Definition to_degrees (a : F) : F := Fdiv (Fmul a (Fof_Z 180)) M_PI.

(** The row bucket, before its conversion to [size_t]. *)
Definition row_bucket (p : PointType F) : F :=
  let vertical_angle :=
    to_degrees (Fatan2 (pt_z p)
      (Fsqrt (Fadd (Fmul (pt_x p) (pt_x p)) (Fmul (pt_y p) (pt_y p))))) in
  Fdiv (Fadd vertical_angle (ang_bottom U)) (ang_res_y U).

(** The column bucket, before its conversion to [size_t]. *)
Definition column_bucket (p : PointType F) : F :=
  let horizon_angle := to_degrees (Fatan2 (pt_x p) (pt_y p)) in
  Fadd (Fneg (Fround (Fdiv (Fsub horizon_angle (Fof_Z 90)) (ang_res_x U))))
       (Fof_Z (HORIZON_SCAN U ÷ 2)).

Definition point_range (p : PointType F) : F :=
  Fsqrt (Fadd (Fadd (Fmul (pt_x p) (pt_x p)) (Fmul (pt_y p) (pt_y p)))
              (Fmul (pt_z p) (pt_z p))).

(** The first half of the loop body: the cell and range of point [i], or
    [None] where the body reaches a [continue]. *)
Definition project_cell (i : Z) (this_point : PointType F) (s : IP) :
  res (option (Z * Z * F)) :=
  row_idn ← (if FLAGS_use_cloud_ring U
             then p ← vec_get (laser_cloud_in_ring s) i; Ok (as_size_t (ring p))
             else Ok (to_size_t (row_bucket this_point)));
  if bool_decide (N_SCAN U ≤ row_idn) then Ok None else
  let column_idn := to_size_t (column_bucket this_point) in
  let column_idn := if bool_decide (HORIZON_SCAN U ≤ column_idn)
                    then column_idn - HORIZON_SCAN U else column_idn in
  if bool_decide (HORIZON_SCAN U ≤ column_idn) then Ok None else
  let range := point_range this_point in
  if Fltb range (FLAGS_sensor_minimum_range U) then Ok None else
  Ok (Some (row_idn, column_idn, range)).

Definition project_point (i : Z) (s : IP) : res IP :=
  this_point ← vec_get (laser_cloud_in s) i;
  cell ← project_cell i this_point s;
  match cell with
  | None => Ok s
  | Some (row_idn, column_idn, range) =>
    rm ← mat_set (range_mat s) row_idn column_idn range;
    let this_point :=
      set_intensity (Fadd (Fof_Z row_idn)
                          (Fdiv (Fof_Z column_idn) (Fof_Z 10000))) this_point in
    let index := column_idn + row_idn * HORIZON_SCAN U in
    fc ← vec_set (full_cloud s) index this_point;
    fic ← vec_set (full_info_cloud s) index this_point;
    fic ← vec_set fic index (set_intensity range this_point);
    Ok (set_full_info_cloud fic (set_full_cloud fc (set_range_mat rm s)))
  end.

Definition ProjectPointCloud (s : IP) : res IP :=
  for_each (seqZ 0 (Z.of_nat (length (laser_cloud_in s)))) project_point s.

(** *** GroundRemoval *)

(** The slope, in degrees, of the segment from [lower] to [upper]. *)
Definition slope_angle (lower upper : PointType F) : F :=
  let diffx := Fsub (pt_x upper) (pt_x lower) in
  let diffy := Fsub (pt_y upper) (pt_y lower) in
  let diffz := Fsub (pt_z upper) (pt_z lower) in
  to_degrees (Fatan2 diffz (Fsqrt (Fadd (Fmul diffx diffx) (Fmul diffy diffy)))).

Definition within_10_degrees (angle : F) : bool :=
  Fleb (Fabs (Fsub angle (FLAGS_sensor_mount_angle U))) (Fof_Z 10).

(** Body of the first loop nest, for the pair of rows (i, i + 1) in column j. *)
Definition ground_pair (i j : Z) (s : IP) : res IP :=
  let lower_ind := j + i * HORIZON_SCAN U in
  let upper_ind := j + (i + 1) * HORIZON_SCAN U in
  lower ← vec_get (full_cloud s) lower_ind;
  missing ← (if IsNaN U lower then Ok true
             else upper ← vec_get (full_cloud s) upper_ind; Ok (IsNaN U upper));
  if (missing : bool) then
    gm ← mat_set (ground_mat s) i j (-1); Ok (set_ground_mat gm s)
  else
    upper ← vec_get (full_cloud s) upper_ind;
    if within_10_degrees (slope_angle lower upper) then
      gm ← mat_set (ground_mat s) i j 1;
      gm ← mat_set gm (i + 1) j 1;
      Ok (set_ground_mat gm s)
    else Ok s.

Definition exclude_cell (i j : Z) (s : IP) : res IP :=
  g ← mat_at (ground_mat s) i j;
  excluded ← (if bool_decide (g = 1) then Ok true
              else r ← mat_at (range_mat s) i j; Ok (Feqb r FLT_MAX));
  if (excluded : bool) then
    lm ← mat_set (label_mat s) i j (-1); Ok (set_label_mat lm s)
  else Ok s.

Definition collect_ground (i j : Z) (s : IP) : res IP :=
  g ← mat_at (ground_mat s) i j;
  if bool_decide (g = 1) then
    p ← vec_get (full_cloud s) (j + i * HORIZON_SCAN U);
    Ok (set_ground_cloud (ground_cloud s ++ [p]) s)
  else Ok s.

(** Two nested [for] loops, rows [0 .. rows) and columns [0 .. HORIZON_SCAN). *)
Definition for_rows_cols {S} (rows : Z) (body : Z → Z → S → res S) : S → res S :=
  for_each (seqZ 0 rows)
    (λ i, for_each (seqZ 0 (HORIZON_SCAN U)) (λ j, body i j)).

Definition GroundRemoval (s : IP) : res IP :=
  s ← for_rows_cols (groundScanInd U) ground_pair s;
  s ← for_rows_cols (N_SCAN U) exclude_cell s;
  for_rows_cols (groundScanInd U + 1) collect_ground s.

(** *** LabelComponents *)

(** The cell examined in direction [d] from (from_indX, from_indY): none
    when the row leaves the image; the column is brought back into it. *)
Definition neighbor (from_indX from_indY : Z) (d : Z * Z) : option (Z * Z) :=
  let this_indX := from_indX + d.1 in
  let this_indY := from_indY + d.2 in
  if bool_decide (this_indX < 0 ∨ N_SCAN U ≤ this_indX) then None else
  let this_indY :=
    if bool_decide (this_indY < 0) then HORIZON_SCAN U - 1 else this_indY in
  let this_indY :=
    if bool_decide (HORIZON_SCAN U ≤ this_indY) then 0 else this_indY in
  Some (this_indX, this_indY).

(** [alpha] for a move in direction [d]. *)
Definition step_alpha (d : Z * Z) : F :=
  if bool_decide (d.1 = 0) then segmentAlphaX U else segmentAlphaY U.

Definition admission_angle (a r_from r_this : F) : F :=
  let '(d2, d1) := minmax r_from r_this in
  Fatan2 (Fmul d2 (Fsin a)) (Fsub d1 (Fmul d2 (Fcos a))).

(** The cell (this_indX, this_indY) joins the segment. *)
Definition enqueue (this_indX this_indY : Z) (st : IP * bfs_locals) :
  res (IP * bfs_locals) :=
  let '(s, l) := st in
  qx ← vec_set (queue_indX s) (queue_end_ind l) this_indX;
  qy ← vec_set (queue_indY s) (queue_end_ind l) this_indY;
  lm ← mat_set (label_mat s) this_indX this_indY (label_count s);
  fl ← vec_set (line_count_flag l) this_indX true;
  ax ← vec_set (all_pushed_indX s) (all_pushed_ind_size l) this_indX;
  ay ← vec_set (all_pushed_indY s) (all_pushed_ind_size l) this_indY;
  Ok (set_all_pushed_indY ay (set_all_pushed_indX ax
        (set_label_mat lm (set_queue_indY qy (set_queue_indX qx s)))),
      mkLocals (all_pushed_ind_size l + 1) (queue_start_ind l)
               (queue_end_ind l + 1) (queue_size l + 1) fl).

(** Body of the loop over the four directions. *)
Definition examine (from_indX from_indY : Z) (d : Z * Z)
  (st : IP * bfs_locals) : res (IP * bfs_locals) :=
  let '(s, l) := st in
  match neighbor from_indX from_indY d with
  | None => Ok (s, l)
  | Some (this_indX, this_indY) =>
    lbl ← mat_at (label_mat s) this_indX this_indY;
    if bool_decide (lbl ≠ LABEL_INIT) then Ok (s, l) else
    r_from ← mat_at (range_mat s) from_indX from_indY;
    r_this ← mat_at (range_mat s) this_indX this_indY;
    let s := set_alpha (step_alpha d) s in
    let angle := admission_angle (alpha s) r_from r_this in
    if Fltb (segmentTheta U) angle
    then enqueue this_indX this_indY (s, l)
    else Ok (s, l)
  end.

(** Body of the [while] loop. *)
Definition bfs_pop (st : IP * bfs_locals) : res (IP * bfs_locals) :=
  let '(s, l) := st in
  from_indX ← vec_get (queue_indX s) (queue_start_ind l);
  from_indY ← vec_get (queue_indY s) (queue_start_ind l);
  let l := mkLocals (all_pushed_ind_size l) (queue_start_ind l + 1)
                    (queue_end_ind l) (queue_size l - 1) (line_count_flag l) in
  lm ← mat_set (label_mat s) from_indX from_indY (label_count s);
  for_each dirs (examine from_indX from_indY) (set_label_mat lm s, l).

Fixpoint bfs_loop (fuel : nat) (st : IP * bfs_locals) : res (IP * bfs_locals) :=
  if bool_decide (0 < queue_size st.2) then
    match fuel with
    | O => Err OutOfFuel
    | S fuel' => st' ← bfs_pop st; bfs_loop fuel' st'
    end
  else Ok st.

(** [LabelComponents] up to the end of its [while] loop. *)
Definition grow (fuel : nat) (row col : Z) (s : IP) : res (IP * bfs_locals) :=
  qx ← vec_set (queue_indX s) 0 row;
  qy ← vec_set (queue_indY s) 0 col;
  ax ← vec_set (all_pushed_indX s) 0 row;
  ay ← vec_set (all_pushed_indY s) 0 col;
  let s := set_all_pushed_indY ay (set_all_pushed_indX ax
             (set_queue_indY qy (set_queue_indX qx s))) in
  bfs_loop fuel
    (s, mkLocals 1 0 1 1 (replicate (Z.to_nat (N_SCAN U)) false)).

Definition line_count (l : bfs_locals) : Z :=
  Z.of_nat (length (filter (λ b : bool, b = true) (line_count_flag l))).

Definition feasible_segment (l : bfs_locals) : bool :=
  if bool_decide (30 ≤ all_pushed_ind_size l) then true
  else if bool_decide (segmentValidPointNum U ≤ all_pushed_ind_size l)
  then bool_decide (segmentValidLineNum U ≤ line_count l)
  else false.

Definition invalidate (i : Z) (s : IP) : res IP :=
  r ← vec_get (all_pushed_indX s) i;
  c ← vec_get (all_pushed_indY s) i;
  lm ← mat_set (label_mat s) r c LABEL_INVALID;
  Ok (set_label_mat lm s).

(** [LabelComponents] after its [while] loop. *)
Definition finish (st : IP * bfs_locals) : res IP :=
  let '(s, l) := st in
  if feasible_segment l then Ok (set_label_count (label_count s + 1) s)
  else for_each (seqZ 0 (all_pushed_ind_size l)) invalidate s.

Definition LabelComponents_fuel (fuel : nat) (row col : Z) (s : IP) : res IP :=
  st ← grow fuel row col s; finish st.

(** The [while] loop has at most one iteration per cell of the image (lemma
    [grow_total]): this fuel is never used up. *)
Definition LabelComponents : Z → Z → IP → res IP := LabelComponents_fuel cells.

(** *** CloudSegmentation *)

Definition label_cell (i j : Z) (s : IP) : res IP :=
  lbl ← mat_at (label_mat s) i j;
  if bool_decide (lbl = LABEL_INIT) then LabelComponents i j s else Ok s.

(** Body of the second loop nest; [size_of_seg_cloud] is threaded. *)
Definition assemble_cell (i j : Z) (st : IP * Z) : res (IP * Z) :=
  let '(s, size_of_seg_cloud) := st in
  lbl ← mat_at (label_mat s) i j;
  g ← mat_at (ground_mat s) i j;
  if bool_decide (0 < lbl) || bool_decide (g = 1) then
    if bool_decide (lbl = LABEL_INVALID) then
      if bool_decide (groundScanInd U < i) && bool_decide (j `rem` 5 = 0) then
        p ← vec_get (full_cloud s) (j + i * HORIZON_SCAN U);
        Ok (set_outlier_cloud (outlier_cloud s ++ [p]) s, size_of_seg_cloud)
      else Ok (s, size_of_seg_cloud)
    else if bool_decide (g = 1) &&
            (bool_decide (j `rem` 5 ≠ 0) && bool_decide (5 < j) &&
             bool_decide (j < as_size_t (HORIZON_SCAN U - 5)))
    then Ok (s, size_of_seg_cloud)
    else
      r ← mat_at (range_mat s) i j;
      p ← vec_get (full_cloud s) (j + i * HORIZON_SCAN U);
      let m := seg_msg s in
      let m := set_segmentedCloudGroundFlag
                 (<[size_of_seg_cloud := bool_decide (g = 1)]>
                    (segmentedCloudGroundFlag m)) m in
      let m := set_segmentedCloudColInd
                 (<[size_of_seg_cloud := j]> (segmentedCloudColInd m)) m in
      let m := set_segmentedCloudRange
                 (<[size_of_seg_cloud := r]> (segmentedCloudRange m)) m in
      Ok (set_segmented_cloud (segmented_cloud s ++ [p]) (set_seg_msg m s),
          size_of_seg_cloud + 1)
  else Ok (s, size_of_seg_cloud).

Definition assemble_row (i : Z) (st : IP * Z) : res (IP * Z) :=
  let '(s, size_of_seg_cloud) := st in
  let m := seg_msg s in
  let s := set_seg_msg (set_startRingIndex
             (<[i := size_of_seg_cloud - 1 + 5]> (startRingIndex m)) m) s in
  '(s, size_of_seg_cloud) ←
    for_each (seqZ 0 (HORIZON_SCAN U)) (assemble_cell i) (s, size_of_seg_cloud);
  let m := seg_msg s in
  Ok (set_seg_msg (set_endRingIndex
        (<[i := size_of_seg_cloud - 1 - 5]> (endRingIndex m)) m) s,
      size_of_seg_cloud).

Definition collect_pure (i j : Z) (s : IP) : res IP :=
  lbl ← mat_at (label_mat s) i j;
  if bool_decide (0 < lbl) && bool_decide (lbl ≠ LABEL_INVALID) then
    p ← vec_get (full_cloud s) (j + i * HORIZON_SCAN U);
    Ok (set_segmented_cloud_pure
          (segmented_cloud_pure s ++ [set_intensity (Fof_Z lbl) p]) s)
  else Ok s.

Definition CloudSegmentation (s : IP) : res IP :=
  s ← for_rows_cols (N_SCAN U) label_cell s;
  st ← for_each (seqZ 0 (N_SCAN U)) assemble_row (s, 0);
  for_rows_cols (N_SCAN U) collect_pure st.1.

(** *** PublishCloud *)

Definition cloud_message (topic : string) (cloud : list (PointType F)) (s : IP) :
  Message F :=
  MsgCloud topic (cloud_header s) "base_link" cloud.

Definition PublishCloud (s : IP) : IP :=
  let s := set_seg_msg (set_stamp (cloud_header s) (seg_msg s)) s in
  set_written
    (written s ++
     [ MsgCloudInfo (seg_msg s);
       cloud_message "/outlier_cloud" (outlier_cloud s) s;
       cloud_message "/segmented_cloud" (segmented_cloud s) s;
       cloud_message "/full_cloud_projected" (full_cloud s) s;
       cloud_message "/full_cloud_info" (full_info_cloud s) s;
       cloud_message "/ground_cloud" (ground_cloud s) s;
       cloud_message "/segmented_cloud_pure" (segmented_cloud_pure s) s ]) s.

(** *** CloudHandler *)

Definition CloudHandler (laser_cloud_msg : DriverPointCloud F) (s : IP) : step IP :=
  and_then (CopyPointCloud laser_cloud_msg s) (λ s,
  and_then (FindStartEndAngle s) (λ s,
  and_then (run ProjectPointCloud s) (λ s,
  and_then (run GroundRemoval s) (λ s,
  and_then (run CloudSegmentation s) (λ s,
  Next (ResetParameters (PublishCloud s))))))).

End Model.


(** ** Invariants of the object *)

Section Invariants.
Context {F : Type} {fops : FloatOps F} (U : Utility F).

(** The containers have the sizes that the constructor, [AllocateMemory]
    and [ResetParameters] give them. *)
Record sized (s : ImageProjection F) : Prop := {
  sized_range : length (range_mat s) = cells U;
  sized_ground : length (ground_mat s) = cells U;
  sized_label : length (label_mat s) = cells U;
  sized_full : length (full_cloud s) = cells U;
  sized_full_info : length (full_info_cloud s) = cells U;
  sized_queue_indX : length (queue_indX s) = cells U;
  sized_queue_indY : length (queue_indY s) = cells U;
  sized_all_pushed_indX : length (all_pushed_indX s) = cells U;
  sized_all_pushed_indY : length (all_pushed_indY s) = cells U
}.

(** The members that [LabelComponents] does not assign. *)
Record same_outside_labels (s0 s : ImageProjection F) : Prop := {
  same_laser_cloud_in : laser_cloud_in s = laser_cloud_in s0;
  same_laser_cloud_in_ring : laser_cloud_in_ring s = laser_cloud_in_ring s0;
  same_full_cloud : full_cloud s = full_cloud s0;
  same_full_info_cloud : full_info_cloud s = full_info_cloud s0;
  same_ground_cloud : ground_cloud s = ground_cloud s0;
  same_segmented_cloud : segmented_cloud s = segmented_cloud s0;
  same_segmented_cloud_pure : segmented_cloud_pure s = segmented_cloud_pure s0;
  same_outlier_cloud : outlier_cloud s = outlier_cloud s0;
  same_range_mat : range_mat s = range_mat s0;
  same_ground_mat : ground_mat s = ground_mat s0;
  same_seg_msg : seg_msg s = seg_msg s0;
  same_cloud_header : cloud_header s = cloud_header s0;
  same_written : written s = written s0
}.

(** The label of the cell (r, c). *)
Definition label_at (s : ImageProjection F) (r c : Z) : option Z :=
  label_mat s !! offset U r c.

Definition cell_in_image (p : Z * Z) : Prop := in_image U p.1 p.2.

(** Invariant of the flood fill started in state [s0] at the seed
    (row, col), once the seed has been given its label: [pushed] lists the
    cells pushed so far, the seed first. *)
Record bfs_inv (s0 : ImageProjection F) (row col : Z) (pushed : list (Z * Z))
    (s : ImageProjection F) (l : bfs_locals) : Prop := {
  inv_same : same_outside_labels s0 s;
  inv_label_count : label_count s = label_count s0;
  inv_len_label : length (label_mat s) = cells U;
  inv_len_queue_indX : length (queue_indX s) = cells U;
  inv_len_queue_indY : length (queue_indY s) = cells U;
  inv_len_all_pushed_indX : length (all_pushed_indX s) = cells U;
  inv_len_all_pushed_indY : length (all_pushed_indY s) = cells U;
  inv_len_flags : length (line_count_flag l) = Z.to_nat (N_SCAN U);
  inv_size : all_pushed_ind_size l = Z.of_nat (length pushed);
  inv_end : queue_end_ind l = Z.of_nat (length pushed);
  inv_start : 0 ≤ queue_start_ind l ≤ Z.of_nat (length pushed);
  inv_queue_size : queue_size l = Z.of_nat (length pushed) - queue_start_ind l;
  inv_seed : head pushed = Some (row, col);
  inv_queue_indX : take (length pushed) (queue_indX s) = pushed.*1;
  inv_queue_indY : take (length pushed) (queue_indY s) = pushed.*2;
  inv_all_pushed_indX : take (length pushed) (all_pushed_indX s) = pushed.*1;
  inv_all_pushed_indY : take (length pushed) (all_pushed_indY s) = pushed.*2;
  inv_in_image : Forall cell_in_image pushed;
  inv_nodup : NoDup pushed;
  inv_label_in : ∀ p, p ∈ pushed → label_at s p.1 p.2 = Some (label_count s0);
  inv_label_out : ∀ r c, in_image U r c → (r, c) ∉ pushed →
                    label_at s r c = label_at s0 r c;
  inv_was_init : ∀ p, p ∈ tail pushed → label_at s0 p.1 p.2 = Some LABEL_INIT;
  inv_flags : ∀ r : nat, (r < Z.to_nat (N_SCAN U))%nat →
                line_count_flag l !! r =
                Some (bool_decide (Z.of_nat r ∈ (tail pushed).*1))
}.

(** The rows of the cells that the flood fill admitted: every pushed cell
    but the seed. *)
Definition flagged_rows (pushed : list (Z * Z)) : list Z :=
  remove_dups (tail pushed).*1.

(** The rows of all the cells of the cluster. *)
Definition cluster_rows (pushed : list (Z * Z)) : list Z :=
  remove_dups pushed.*1.

(** The cells of the rows [0 .. rows), in the order in which two nested
    loops over rows and columns visit them. *)
Definition row_cells (i : Z) : list (Z * Z) :=
  (λ j, (i, j)) <$> seqZ 0 (HORIZON_SCAN U).

Definition row_major (rows : Z) : list (Z * Z) :=
  mjoin (row_cells <$> seqZ 0 rows).

(** The matrices and the dense cloud that output assembly only reads. *)
Definition same_grids (s0 s : ImageProjection F) : Prop :=
  label_mat s = label_mat s0 ∧ ground_mat s = ground_mat s0 ∧
  range_mat s = range_mat s0 ∧ full_cloud s = full_cloud s0 ∧
  label_count s = label_count s0.

(** Invariant of the first loop nest of [CloudSegmentation], started in
    [s0], when the cells [done] have been visited: a cell that was labelled
    keeps its label, a cell that was 0 is still 0, or INVALID, or carries an
    id issued since the start, and a visited cell is not 0; the label
    counter has grown by at most one per visited cell. *)
Record scan_inv (s0 : ImageProjection F) (done : list (Z * Z))
    (s : ImageProjection F) : Prop := {
  scan_sized : sized s;
  scan_same : same_outside_labels s0 s;
  scan_count : 0 < label_count s0 ≤ label_count s ∧
               label_count s ≤ label_count s0 + Z.of_nat (length done);
  scan_labels : ∀ r c, in_image U r c →
    ∃ v v', label_at s0 r c = Some v ∧ label_at s r c = Some v' ∧
      (v ≠ LABEL_INIT → v' = v) ∧
      (v = LABEL_INIT →
         v' = LABEL_INIT ∨ v' = LABEL_INVALID ∨
         label_count s0 ≤ v' < label_count s) ∧
      ((r, c) ∈ done → v' ≠ LABEL_INIT)
}.

(** The members that the stages after FindStartEndAngle assign or emit. *)
Definition untouched (s s' : ImageProjection F) : Prop :=
  range_mat s' = range_mat s ∧ full_cloud s' = full_cloud s ∧
  full_info_cloud s' = full_info_cloud s ∧
  ground_mat s' = ground_mat s ∧ ground_cloud s' = ground_cloud s ∧
  label_mat s' = label_mat s ∧ label_count s' = label_count s ∧
  segmented_cloud s' = segmented_cloud s ∧
  segmented_cloud_pure s' = segmented_cloud_pure s ∧
  outlier_cloud s' = outlier_cloud s ∧
  written s' = written s.

(** *** The segment grown by the flood fill *)

(** The admission test for the move [d] from the cell [p] to the cell [n],
    on the range image [rm]. *)
Definition passes (rm : list F) (p : Z * Z) (d : Z * Z) (n : Z * Z) : Prop :=
  ∃ r_from r_this,
    rm !! offset U p.1 p.2 = Some r_from ∧
    rm !! offset U n.1 n.2 = Some r_this ∧
    Fltb (segmentTheta U) (admission_angle (step_alpha U d) r_from r_this) = true.

(** [n] is the neighbour of [p] in one of the four directions and passes
    the admission test from [p]. *)
Definition admitted_from (rm : list F) (p n : Z * Z) : Prop :=
  ∃ d, d ∈ dirs ∧ neighbor U p.1 p.2 d = Some n ∧ passes rm p d n.

(** Every pushed cell but the first was admitted from a cell pushed before
    it. *)
Definition linked (rm : list F) (pushed : list (Z * Z)) : Prop :=
  ∀ i n, pushed !! S i = Some n →
    ∃ j p, (j ≤ i)%nat ∧ pushed !! j = Some p ∧ admitted_from rm p n.

(** The move [d] from [p] leads to no cell that was unlabelled in [s0],
    passes the test and is missing from [pushed]. *)
Definition closed_at (s0 : ImageProjection F) (pushed : list (Z * Z))
    (p d : Z * Z) : Prop :=
  ∀ n, neighbor U p.1 p.2 d = Some n → passes (range_mat s0) p d n →
       label_at s0 n.1 n.2 = Some LABEL_INIT → n ∈ pushed.

(** Invariant of the flood fill on the shape of the segment, when the first
    [popped] cells of [pushed] have been expanded. *)
Definition fill_inv (s0 : ImageProjection F) (pushed : list (Z * Z))
    (popped : Z) : Prop :=
  linked (range_mat s0) pushed ∧
  ∀ j p d, (Z.of_nat j < popped) → pushed !! j = Some p → d ∈ dirs →
           closed_at s0 pushed p d.

(** The cells reached from [seed] by admitted moves through cells that are
    unlabelled in [s0]. *)
Inductive reaches (s0 : ImageProjection F) (seed : Z * Z) : Z * Z → Prop :=
  | reaches_seed : reaches s0 seed seed
  | reaches_step p n :
      reaches s0 seed p → admitted_from (range_mat s0) p n →
      label_at s0 n.1 n.2 = Some LABEL_INIT → reaches s0 seed n.

(** *** Cells and clouds *)

(** The points that the dense cloud holds for the cells [cs], in order. *)
Definition cloud_points (s : ImageProjection F) (cs : list (Z * Z)) :
  list (PointType F) :=
  omap (λ c, full_cloud s !! offset U c.1 c.2) cs.

(** Label and ground mark of a cell (0 outside the matrix). *)
Definition label_of (s : ImageProjection F) (c : Z * Z) : Z :=
  default 0 (label_mat s !! offset U c.1 c.2).

Definition ground_of (s : ImageProjection F) (c : Z * Z) : Z :=
  default 0 (ground_mat s !! offset U c.1 c.2).

(** What the first loop nest of GroundRemoval can have done to the mark of
    a cell: nothing, or the mark -1, or the mark 1 on a cell that holds a
    return. *)
Definition ground_marked (s : ImageProjection F) (g : list Z) (c : Z * Z) : Prop :=
  g !! offset U c.1 c.2 = ground_mat s !! offset U c.1 c.2 ∨
  g !! offset U c.1 c.2 = Some (-1) ∨
  (g !! offset U c.1 c.2 = Some 1 ∧
   ∃ p, full_cloud s !! offset U c.1 c.2 = Some p ∧ IsNaN U p = false).

(** The label that the second loop nest of GroundRemoval leaves in a cell. *)
Definition excluded_label (s : ImageProjection F) (g : list Z) (c : Z * Z) :
  option Z :=
  match g !! offset U c.1 c.2, range_mat s !! offset U c.1 c.2 with
  | Some m, Some r =>
      if bool_decide (m = 1) || Feqb r FLT_MAX then Some (-1)
      else label_mat s !! offset U c.1 c.2
  | _, _ => None
  end.

(** *** Projection *)

(** The intensity that ProjectPointCloud gives the point of the cell
    (r, c) in the dense cloud. *)
Definition cell_code (r c : Z) : F :=
  Fadd (Fof_Z r) (Fdiv (Fof_Z c) (Fof_Z 10000)).

(** Point [i] of the input cloud is [p], and the loop body of
    ProjectPointCloud takes it to the cell [c]. *)
Definition lands_as (s : ImageProjection F) (i : Z) (p : PointType F)
    (c : Z * Z) : Prop :=
  0 ≤ i ∧ laser_cloud_in s !! Z.to_nat i = Some p ∧
  project_cell U i p s = Ok (Some (c, point_range p)).

Definition lands (s : ImageProjection F) (i : Z) (c : Z * Z) : Prop :=
  ∃ p, lands_as s i p c.

(** The cell [c] of the three containers that ProjectPointCloud assigns,
    after the points [done] of the cloud of [s] have been projected. *)
Definition projected_cell (s : ImageProjection F) (done : list Z)
    (rm : list F) (fc fic : list (PointType F)) (c : Z * Z) : Prop :=
  ((∀ i, i ∈ done → ¬ lands s i c) ∧
   rm !! offset U c.1 c.2 = range_mat s !! offset U c.1 c.2 ∧
   fc !! offset U c.1 c.2 = full_cloud s !! offset U c.1 c.2 ∧
   fic !! offset U c.1 c.2 = full_info_cloud s !! offset U c.1 c.2) ∨
  (∃ i p, i ∈ done ∧ lands_as s i p c ∧
     (∀ i', i' ∈ done → i < i' → ¬ lands s i' c) ∧
     rm !! offset U c.1 c.2 = Some (point_range p) ∧
     fc !! offset U c.1 c.2 = Some (set_intensity (cell_code c.1 c.2) p) ∧
     fic !! offset U c.1 c.2 = Some (set_intensity (point_range p) p)).

(** *** Output assembly *)

(** The cell goes to the outlier cloud. *)
Definition is_outlier (s : ImageProjection F) (c : Z * Z) : Prop :=
  label_of s c = LABEL_INVALID ∧ groundScanInd U < c.1 ∧ c.2 `rem` 5 = 0.

(** The cell goes to the segmented cloud. *)
Definition in_segmented (s : ImageProjection F) (c : Z * Z) : Prop :=
  (0 < label_of s c ∨ ground_of s c = 1) ∧ label_of s c ≠ LABEL_INVALID ∧
  ¬ (ground_of s c = 1 ∧ c.2 `rem` 5 ≠ 0 ∧ 5 < c.2 ∧
     c.2 < as_size_t (HORIZON_SCAN U - 5)).

(** The cell goes to the cloud of the accepted segments. *)
Definition in_pure (s : ImageProjection F) (c : Z * Z) : Prop :=
  0 < label_of s c ∧ label_of s c ≠ LABEL_INVALID.

#[global] Instance is_outlier_dec s c : Decision (is_outlier s c).
Proof. unfold is_outlier. apply _. Defined.

#[global] Instance in_segmented_dec s c : Decision (in_segmented s c).
Proof. unfold in_segmented. apply _. Defined.

#[global] Instance in_pure_dec s c : Decision (in_pure s c).
Proof. unfold in_pure. apply _. Defined.

(** The points of the cells [cs], each with the label of its cell as
    intensity. *)
Definition pure_points (s : ImageProjection F) (cs : list (Z * Z)) :
  list (PointType F) :=
  omap (λ c, set_intensity (Fof_Z (label_of s c)) <$>
             full_cloud s !! offset U c.1 c.2) cs.

(** Number of cells of the rows below [i] that go to the segmented cloud. *)
Definition segmented_before (s : ImageProjection F) (i : Z) : Z :=
  Z.of_nat (length (filter (in_segmented s) (row_major i))).

(** The metadata message with the five tables replaced. *)
Definition assembly_msg (m0 : CloudInfo F) (sr er : gmap Z Z)
    (G : gmap Z bool) (C : gmap Z Z) (R : gmap Z F) : CloudInfo F :=
  set_segmentedCloudRange R
    (set_segmentedCloudColInd C
       (set_segmentedCloudGroundFlag G
          (set_endRingIndex er (set_startRingIndex sr m0)))).

(** The object once the second loop nest of CloudSegmentation, started in
    [s], has visited the cells [done] and the metadata has become [m]. *)
Definition assembly_state (s : ImageProjection F) (done : list (Z * Z))
    (m : CloudInfo F) : ImageProjection F :=
  set_segmented_cloud
    (segmented_cloud s ++ cloud_points s (filter (in_segmented s) done))
    (set_outlier_cloud
       (outlier_cloud s ++ cloud_points s (filter (is_outlier s) done))
       (set_seg_msg m s)).

(** The three per-point tables describe the cells [kept], entry by entry,
    and hold what the message of [s] held at every other index. *)
Definition tables (s : ImageProjection F) (kept : list (Z * Z))
    (G : gmap Z bool) (C : gmap Z Z) (R : gmap Z F) : Prop :=
  (∀ k c, kept !! k = Some c →
     G !! Z.of_nat k = Some (bool_decide (ground_of s c = 1)) ∧
     C !! Z.of_nat k = Some c.2 ∧
     R !! Z.of_nat k = range_mat s !! offset U c.1 c.2) ∧
  (∀ k : Z, ¬ (0 ≤ k < Z.of_nat (length kept)) →
     G !! k = segmentedCloudGroundFlag (seg_msg s) !! k ∧
     C !! k = segmentedCloudColInd (seg_msg s) !! k ∧
     R !! k = segmentedCloudRange (seg_msg s) !! k).

(** The two per-row tables after the rows below [rows]. *)
Definition ring_table (s : ImageProjection F) (rows : Z) (sr er : gmap Z Z) :
  Prop :=
  (∀ i, 0 ≤ i < rows →
     sr !! i = Some (segmented_before s i - 1 + 5) ∧
     er !! i = Some (segmented_before s (i + 1) - 1 - 5)) ∧
  (∀ i, ¬ (0 ≤ i < rows) →
     sr !! i = startRingIndex (seg_msg s) !! i ∧
     er !! i = endRingIndex (seg_msg s) !! i).

(** *** Frames *)

(** The object can take a frame: its containers have their sizes and the
    label counter is positive. *)
Definition ready (s : ImageProjection F) : Prop :=
  sized s ∧ 0 < label_count s.

(** The cloud of a frame once CopyPointCloud has filtered it. *)
Definition frame_cloud (msg : DriverPointCloud F) : list (PointType F) :=
  removeNaNFromPointCloud U (ptr_point <$> msg_points msg).

(** The orientation span of a frame passes the two checks of
    FindStartEndAngle. *)
Definition span_checked (front back : PointType F) : bool :=
  Fltb (orientation_span front back) (Fmul (Fof_Z 3) M_PI) &&
  Fltb M_PI (orientation_span front back).

(** A frame that passes the checks of CopyPointCloud and
    FindStartEndAngle. *)
Definition well_formed (msg : DriverPointCloud F) : Prop :=
  (FLAGS_use_cloud_ring U = true →
   msg_is_dense msg = true ∧
   (length (frame_cloud msg) ≤ length (msg_points msg))%nat) ∧
  ∃ front back,
    head (frame_cloud msg) = Some front ∧
    last (frame_cloud msg) = Some back ∧
    span_checked front back = true.

(** The callback that Init registers, on the messages of the topic in
    order: the process stops with the first frame that stops. *)
Fixpoint handle_frames (msgs : list (DriverPointCloud F))
    (s : ImageProjection F) : step (ImageProjection F) :=
  match msgs with
  | [] => Next s
  | msg :: msgs' => and_then (CloudHandler U msg s) (handle_frames msgs')
  end.

End Invariants.

(** ** A rational implementation of the float interface

    Used to run the model on concrete images.  A value is a rational or NaN
    ([None]); the arithmetic is exact, the square root is exact on squares of
    rationals, and sine, cosine and arc tangent are short rational
    approximations (exact at 0). *)
Module Rational.

Definition num : Type := option Q.

Definition lift1 (f : Q → Q) (a : num) : num :=
  match a with Some q => Some (Qred (f q)) | None => None end.

Definition lift2 (f : Q → Q → Q) (a b : num) : num :=
  match a, b with Some p, Some q => Some (Qred (f p q)) | _, _ => None end.

Definition test2 (f : Q → Q → bool) (a b : num) : bool :=
  match a, b with Some p, Some q => f p q | _, _ => false end.

Definition qlt (p q : Q) : bool := negb (Qle_bool q p).

Definition qdiv (a b : num) : num :=
  match a, b with
  | Some p, Some q => if Qeq_bool q 0 then None else Some (Qred (Qdiv p q))
  | _, _ => None
  end.

Definition qsqrt (a : num) : num :=
  match a with
  | Some q =>
    if qlt q 0 then None
    else Some (Qred (Qmake (Z.sqrt (Qnum q * Zpos (Qden q) * 10 ^ 12))
                           (Qden q * 1000000)))
  | None => None
  end.

Definition qpi : Q := Qmake 355 113.

Definition qsin (q : Q) : Q := (q - q * q * q / Qmake 6 1)%Q.
Definition qcos (q : Q) : Q :=
  (1 - q * q / Qmake 2 1 + q * q * q * q / Qmake 24 1)%Q.

(** arctan t for |t| <= 1 *)
Definition qatan_small (t : Q) : Q := (t / (1 + Qmake 28 100 * t * t))%Q.

Definition qatan2 (y x : Q) : Q :=
  if Qeq_bool x 0 then
    if qlt 0 y then (qpi / Qmake 2 1)%Q
    else if qlt y 0 then (- (qpi / Qmake 2 1))%Q else 0%Q
  else if Qle_bool (Qabs y) (Qabs x) then
    let a := qatan_small (y / x) in
    if qlt x 0 then (if qlt y 0 then a - qpi else a + qpi)%Q else a
  else
    let a := qatan_small (x / y) in
    if qlt y 0 then (- (qpi / Qmake 2 1) - a)%Q else (qpi / Qmake 2 1 - a)%Q.

(** round half away from zero, as [std::round] *)
Definition qround (q : Q) : Q :=
  if qlt q 0 then Qmake (- Qfloor (- q + Qmake 1 2)) 1
  else Qmake (Qfloor (q + Qmake 1 2)) 1.

Definition qtrunc (a : num) : Z :=
  match a with Some q => Qnum q ÷ Zpos (Qden q) | None => 0 end.

#[global] Instance ops : FloatOps num := {|
  Fadd := lift2 Qplus;
  Fsub := lift2 Qminus;
  Fmul := lift2 Qmult;
  Fdiv := qdiv;
  Fneg := lift1 Qopp;
  Fabs := lift1 Qabs;
  Fsqrt := qsqrt;
  Fsin := lift1 qsin;
  Fcos := lift1 qcos;
  Fatan2 := lift2 qatan2;
  Fround := lift1 qround;
  Fltb := test2 qlt;
  Fleb := test2 Qle_bool;
  Feqb := test2 Qeq_bool;
  Fof_Z := λ z, Some (inject_Z z);
  Ftrunc := qtrunc;
  FLT_MAX := Some (inject_Z 340282346638528859811704183484516925440);
  M_PI := Some qpi;
  quiet_NaN := None
|}.

Definition point (x y z : Q) : PointType num :=
  mkPoint (Some x) (Some y) (Some z) (Some 0%Q).

Definition is_nan (p : PointType num) : bool :=
  match pt_x p, pt_y p, pt_z p with
  | Some _, Some _, Some _ => false
  | _, _, _ => true
  end.

(** A sensor of [rows] rings and [cols] azimuth buckets, with the
    thresholds of LeGO-LOAM: minimum 5 cells on 3 lines, 60 degrees. *)
Definition sensor (rows cols ground : Z) (bottom res_y res_x : Q) : Utility num :=
  mkUtility num rows cols (Some res_x) (Some res_y) (Some bottom) ground
    (Some (Qmake 10472 10000)) (Some (Qmake 349 100000)) (Some (Qmake 349 10000))
    5 3 false (Some 0%Q) (Some (Qmake 1 2))
    is_nan (filter (λ p, is_nan p = false)).

(** The object once constructed, allocated and reset. *)
Definition fresh (U : Utility num) : ImageProjection num :=
  ResetParameters U (AllocateMemory U (ImageProjection_ctor U)).

(** The object in which a method stopped or which it left. *)
Definition state_of {S} (r : step S) : S :=
  match r with Next s => s | Halt _ s => s end.

(** *** A pole

    Three rings of two azimuth buckets.  Five returns at 10 m: one on ring
    0, two on ring 1 and two on ring 2; the second bucket of ring 0 has no
    return and is excluded (label -1). *)
Definition pole_sensor : Utility num := sensor 3 2 1 15 2 90.

Definition range10 : num := Some (inject_Z 10).

Definition pole_image : ImageProjection num :=
  set_label_mat [0; -1; 0; 0; 0; 0]
    (set_range_mat [range10; FLT_MAX; range10; range10; range10; range10]
       (fresh pole_sensor)).

(** The cells of the pole in the order in which the flood fill from (0, 0)
    pushes them. *)
Definition pole_cluster : list (Z * Z) := [(0, 0); (1, 0); (1, 1); (2, 0); (2, 1)].

(** The pole with the label counter at 0, a value that ResetParameters
    never leaves. *)
Definition pole_image_unnumbered : ImageProjection num :=
  set_label_count 0 pole_image.

(** The local variables after the seed (0, 0) has been popped. *)
Definition seed_popped : bfs_locals := mkLocals 1 1 1 0 [false; false; false].

(** *** Two ground returns

    Two rings one degree apart, four azimuth buckets; the first ring is a
    ground-candidate ring.  A frame of two returns straight ahead, 1 m and
    10 m away, the second 0.2 m higher. *)
Definition ground_sensor : Utility num := sensor 2 4 1 0 1 90.

Definition ground_frame : DriverPointCloud num :=
  mkDriverCloud (Some (inject_Z 7))
    [mkPointR (point 0 1 0) 0; mkPointR (point 0 10 (Qmake 2 10)) 1] true.

Definition ground_copied : ImageProjection num :=
  state_of (CopyPointCloud ground_sensor ground_frame (fresh ground_sensor)).

Definition ground_projected : ImageProjection num :=
  match ProjectPointCloud ground_sensor (state_of (FindStartEndAngle ground_copied)) with
  | Ok s => s
  | Err _ => ground_copied
  end.

Definition ground_lower : PointType num :=
  mkPoint (Some 0%Q) (Some 1%Q) (Some 0%Q) (Some (Qmake 3 10000)).

Definition ground_upper : PointType num :=
  mkPoint (Some (inject_Z 0)) (Some (inject_Z 10)) (Some (Qmake 2 10))
          (Some (Qmake 10003 10000)).

(** The object after the frame. *)
Definition ground_done : ImageProjection num :=
  state_of (CloudHandler ground_sensor ground_frame (fresh ground_sensor)).

(** A frame whose first return is behind on the left and whose last return
    is behind on the right: the azimuths are -3/4 pi and 3/4 pi. *)
Definition backward_frame : DriverPointCloud num :=
  mkDriverCloud (Some (inject_Z 8))
    [mkPointR (point (-1) (-1) 0) 0; mkPointR (point 1 (-1) 0) 0] true.

Definition backward_copied : ImageProjection num :=
  state_of (CopyPointCloud ground_sensor backward_frame (fresh ground_sensor)).

(** *** Rejected clusters

    Two rings of seven buckets; ring 1 is beyond the ground-candidate ring
    0.  In [scattered] ring 1 has five INVALID cells, in the columns 1, 2, 3,
    4 and 6; in [aligned] it has two, in the columns 0 and 5. *)
Definition outlier_sensor : Utility num := sensor 2 7 0 15 2 90.

Definition scattered : ImageProjection num :=
  set_label_mat
    [-1; -1; -1; -1; -1; -1; -1;
     -1; LABEL_INVALID; LABEL_INVALID; LABEL_INVALID; LABEL_INVALID; -1;
     LABEL_INVALID]
    (fresh outlier_sensor).

Definition aligned : ImageProjection num :=
  set_label_mat
    [-1; -1; -1; -1; -1; -1; -1;
     LABEL_INVALID; -1; -1; -1; -1; LABEL_INVALID; -1]
    (fresh outlier_sensor).

(** The cells labelled INVALID on the rows beyond [groundScanInd]. *)
Definition invalid_beyond_ground (U : Utility num) (s : ImageProjection num) : nat :=
  length (filter (λ v, v = LABEL_INVALID)
            (drop (Z.to_nat ((groundScanInd U + 1) * HORIZON_SCAN U)) (label_mat s))).

(** *** Returns below the lowest ring

    Sixteen rings two degrees apart from -15 degrees up, four azimuth
    buckets.  [low_point] is 16 degrees below the horizon, [lower_point] 19
    degrees. *)
Definition low_sensor : Utility num := sensor 16 4 7 15 2 90.

Definition low_point : PointType num := point 0 1 (Qmake (-287) 1000).

Definition lower_point : PointType num := point 0 1 (Qmake (-35) 100).

Definition low_state : ImageProjection num :=
  set_laser_cloud_in [low_point] (fresh low_sensor).

Definition lower_state : ImageProjection num :=
  set_laser_cloud_in [lower_point] (fresh low_sensor).

(** The object on which ProjectPointCloud runs for [ground_frame]. *)
Definition ground_angled : ImageProjection num :=
  state_of (FindStartEndAngle ground_copied).

(** The object in which [backward_frame] is stopped. *)
Definition backward_stopped : ImageProjection num :=
  state_of (CloudHandler ground_sensor backward_frame (fresh ground_sensor)).

End Rational.


(** * Properties *)

(** ** Checked accesses and loops *)

Lemma bind_Ok {A B} (a : A) (f : A → res B) : (Ok a ≫= f) = f a.
Proof. reflexivity. Qed.

Lemma bind_inv {A B} (m : res A) (f : A → res B) (b : B) :
  (m ≫= f) = Ok b → ∃ a, m = Ok a ∧ f a = Ok b.
Proof. destruct m as [a|e]; [eauto | discriminate]. Qed.

Lemma vec_get_ok {A} (v : list A) (i : Z) (a : A) :
  0 ≤ i → v !! Z.to_nat i = Some a → vec_get v i = Ok a.
Proof.
  intros Hi Hl. unfold vec_get. rewrite bool_decide_eq_true_2 by done.
  by rewrite Hl.
Qed.

Lemma vec_set_ok {A} (v : list A) (i : Z) (a : A) :
  0 ≤ i < Z.of_nat (length v) → vec_set v i a = Ok (<[Z.to_nat i := a]> v).
Proof. intros Hi. unfold vec_set. by rewrite bool_decide_eq_true_2. Qed.

(** An invariant of the state that every iteration keeps is kept by the
    loop, which then does not fail. *)
Lemma for_each_inv {S A} (P : S → Prop) (xs : list A) (body : A → S → res S) s :
  P s →
  (∀ a s, a ∈ xs → P s → ∃ s', body a s = Ok s' ∧ P s') →
  ∃ s', for_each xs body s = Ok s' ∧ P s'.
Proof.
  revert s. induction xs as [|a xs IH]; intros s Hs Hbody; simpl.
  - eauto.
  - destruct (Hbody a s) as (s1 & -> & Hs1); [left | done |].
    rewrite bind_Ok. apply IH; [done|].
    intros b t Hb. apply Hbody. by right.
Qed.

(** The same with an invariant that knows which iterations are done. *)
Lemma for_each_prefix_inv {S A} (P : list A → S → Prop) (xs : list A)
    (body : A → S → res S) s :
  P [] s →
  (∀ done a rest s, xs = done ++ a :: rest → P done s →
     ∃ s', body a s = Ok s' ∧ P (done ++ [a]) s') →
  ∃ s', for_each xs body s = Ok s' ∧ P xs s'.
Proof.
  intros H0 Hbody.
  cut (∀ rest done s, xs = done ++ rest → P done s →
         ∃ s', for_each rest body s = Ok s' ∧ P xs s').
  { intros Hcut. by apply (Hcut xs []). }
  induction rest as [|a rest IH]; intros done t Hxs Ht; simpl.
  - rewrite app_nil_r in Hxs. subst. eauto.
  - destruct (Hbody done a rest t Hxs Ht) as (t1 & -> & Ht1).
    rewrite bind_Ok. apply (IH (done ++ [a])); [|done].
    by rewrite <- app_assoc.
Qed.

(** Names the parts of the invariant. *)
Ltac destruct_inv H :=
  destruct H as [Isame Ilabel_count Ilen_label Ilen_queue_indX Ilen_queue_indY
    Ilen_all_pushed_indX Ilen_all_pushed_indY Ilen_flags Isize Iend
    Istart Iqueue_size Iseed Iqueue_indX Iqueue_indY
    Iall_pushed_indX Iall_pushed_indY Iin_image Inodup Ilabel_in
    Ilabel_out Iwas_init Iflags].




Section Cells.
Context {F : Type} {fops : FloatOps F} (U : Utility F).

(** *** Cells and their position in the row-major data *)

Lemma offset_lt_cells r c : in_image U r c → (offset U r c < cells U)%nat.
Proof. unfold in_image, offset, cells. intros [Hr Hc]. nia. Qed.

Lemma offset_inj r c r' c' :
  in_image U r c → in_image U r' c' →
  offset U r c = offset U r' c' → r = r' ∧ c = c'.
Proof.
  unfold in_image, offset. intros [Hr Hc] [Hr' Hc'] Heq.
  assert (c + r * HORIZON_SCAN U = c' + r' * HORIZON_SCAN U) as E by nia.
  assert (r = r') by nia. subst. lia.
Qed.

Lemma mat_at_ok {A} (m : list A) r c a :
  in_image U r c → m !! offset U r c = Some a → mat_at U m r c = Ok a.
Proof.
  intros Hi Hl. unfold mat_at. rewrite bool_decide_eq_true_2 by done.
  by rewrite Hl.
Qed.

Lemma mat_at_inv {A} (m : list A) r c a :
  mat_at U m r c = Ok a → in_image U r c ∧ m !! offset U r c = Some a.
Proof.
  unfold mat_at. case_bool_decide; [|discriminate].
  destruct (m !! offset U r c); naive_solver.
Qed.

Lemma mat_at_total {A} (m : list A) r c :
  in_image U r c → length m = cells U → ∃ a, mat_at U m r c = Ok a.
Proof.
  intros Hi Hlen. pose proof (offset_lt_cells r c Hi) as Hlt.
  destruct (lookup_lt_is_Some_2 m (offset U r c)) as [a Ha]; [lia|].
  exists a. by apply mat_at_ok.
Qed.

Lemma mat_set_ok {A} (m : list A) r c a :
  in_image U r c → length m = cells U →
  mat_set U m r c a = Ok (<[offset U r c := a]> m).
Proof.
  intros Hi Hlen. pose proof (offset_lt_cells r c Hi).
  unfold mat_set. rewrite bool_decide_eq_true_2; [done|]. split; [done|lia].
Qed.

(** *** Adjacency *)

Lemma neighbor_in_image r c d r' c' :
  in_image U r c → neighbor U r c d = Some (r', c') →
  in_image U r' c' ∧ r' = r + d.1.
Proof.
  unfold neighbor, in_image. intros [Hr Hc] Hn.
  repeat case_bool_decide; simplify_eq; lia.
Qed.


End Cells.

Section FloodFill.
Context {F : Type} {fops : FloatOps F} (U : Utility F).

(** *** The flood fill *)

(** Distinct cells of the image are at most [cells]. *)
Lemma distinct_cells_bound (pushed : list (Z * Z)) :
  NoDup pushed → Forall (cell_in_image U) pushed →
  (length pushed ≤ cells U)%nat.
Proof.
  intros Hnd Hin.
  assert (NoDup ((λ p, offset U p.1 p.2) <$> pushed)) as Hnd'.
  { apply NoDup_fmap_2_strong; [|done].
    intros [r c] [r' c'] Hp Hp' Heq. simpl in Heq.
    rewrite Forall_forall in Hin.
    destruct (offset_inj U r c r' c') as [-> ->]; auto.
    - apply (Hin (r, c) Hp).
    - apply (Hin (r', c') Hp'). }
  rewrite <- (length_fmap (λ p, offset U p.1 p.2) pushed).
  assert (length (seq 0 (cells U)) = cells U) as E by apply length_seq.
  rewrite <- E.
  apply NoDup_incl_length.
  - by apply NoDup_ListNoDup.
  - intros i Hi. apply list_elem_of_In in Hi.
    apply list_elem_of_fmap in Hi as ([r c] & -> & Hp).
    rewrite Forall_forall in Hin. specialize (Hin _ Hp).
    apply in_seq. pose proof (offset_lt_cells U r c Hin). simpl. lia.
Qed.

Lemma take_S_insert {A} (v : list A) (k : nat) (a : A) :
  (k < length v)%nat → take (S k) (<[k := a]> v) = take k v ++ [a].
Proof.
  intros Hk. rewrite (take_S_r _ _ a).
  - by rewrite take_insert_ge by lia.
  - by apply list_lookup_insert_eq.
Qed.

Lemma bfs_inv_set_alpha s0 row col pushed s l a :
  bfs_inv U s0 row col pushed s l → bfs_inv U s0 row col pushed (set_alpha a s) l.
Proof. intros [[] ]. split; try done. Qed.
Lemma tail_app_nonempty {A} (l : list A) (a b : A) :
  head l = Some a → tail (l ++ [b]) = tail l ++ [b].
Proof. by destruct l. Qed.

Lemma head_app_nonempty {A} (l : list A) (a b : A) :
  head l = Some a → head (l ++ [b]) = Some a.
Proof. by destruct l. Qed.

(** Discharges the access at the head of a sequence of checked accesses. *)
Ltac ok_head :=
  lazymatch goal with
  | |- mbind _ (vec_set ?v ?i ?a) = _ =>
      rewrite (vec_set_ok v i a); [rewrite bind_Ok|]
  | |- mbind _ (mat_set ?V ?m ?r ?c ?a) = _ =>
      rewrite (mat_set_ok V m r c a); [rewrite bind_Ok| |]
  end.

(** Admitting a cell whose label is still 0 keeps the invariant: the cell
    is new, so there is room for it in the work arrays. *)
Lemma enqueue_inv s0 row col pushed s l tx ty :
  label_count s0 ≠ 0 →
  bfs_inv U s0 row col pushed s l →
  in_image U tx ty →
  label_at U s tx ty = Some LABEL_INIT →
  ∃ s' l', enqueue U tx ty (s, l) = Ok (s', l') ∧
    bfs_inv U s0 row col (pushed ++ [(tx, ty)]) s' l' ∧
    queue_start_ind l' = queue_start_ind l.
Proof.
  intros Hlc Hinv Him Hlbl.
  assert ((tx, ty) ∉ pushed) as Hnew.
  { intros Hin. apply (inv_label_in _ _ _ _ _ _ _ Hinv) in Hin. simpl in Hin.
    rewrite Hin in Hlbl. unfold LABEL_INIT in Hlbl. congruence. }
  assert (NoDup (pushed ++ [(tx, ty)])) as Hnd.
  { apply NoDup_app. split_and!.
    - by destruct_inv Hinv.
    - intros p Hp Hp'. apply list_elem_of_singleton in Hp'. by subst.
    - apply NoDup_singleton. }
  assert (Forall (cell_in_image U) (pushed ++ [(tx, ty)])) as Hfa.
  { apply Forall_app. split; [by destruct Hinv|]. by constructor. }
  pose proof (distinct_cells_bound _ Hnd Hfa) as Hlen.
  rewrite length_app in Hlen; simpl in Hlen.
  pose proof Him as [Htx Hty].
  destruct_inv Hinv. unfold enqueue.
  eexists _, _. split.
  { repeat ok_head; try done; lia. }
  split; [|done].
  assert (length (pushed ++ [(tx, ty)]) = S (length pushed)) as Hlen'.
  { rewrite length_app. simpl. lia. }
  assert (Z.to_nat (queue_end_ind l) = length pushed) as Hend by lia.
  assert (Z.to_nat (all_pushed_ind_size l) = length pushed) as Hsz by lia.
  split; simpl.
  - by destruct Isame.
  - done.
  - by rewrite length_insert.
  - by rewrite length_insert.
  - by rewrite length_insert.
  - by rewrite length_insert.
  - by rewrite length_insert.
  - by rewrite length_insert.
  - lia.
  - lia.
  - lia.
  - lia.
  - by apply head_app_nonempty.
  - rewrite Hlen', Hend, take_S_insert by lia. by rewrite fmap_app, Iqueue_indX.
  - rewrite Hlen', Hend, take_S_insert by lia. by rewrite fmap_app, Iqueue_indY.
  - rewrite Hlen', Hsz, take_S_insert by lia.
    by rewrite fmap_app, Iall_pushed_indX.
  - rewrite Hlen', Hsz, take_S_insert by lia.
    by rewrite fmap_app, Iall_pushed_indY.
  - done.
  - done.
  - intros [r c] Hp. unfold label_at; simpl.
    destruct (decide ((r, c) = (tx, ty))) as [[= -> ->]|Hne].
    + rewrite list_lookup_insert_eq; [congruence|].
      pose proof (offset_lt_cells U tx ty Him). lia.
    + apply elem_of_app in Hp as [Hp|Hp]; [|by apply list_elem_of_singleton in Hp].
      rewrite list_lookup_insert_ne; [by apply (Ilabel_in (r, c))|].
      intros Heq. rewrite Forall_forall in Iin_image.
      destruct (offset_inj U tx ty r c) as [-> ->]; auto.
      apply (Iin_image (r, c) Hp).
  - intros r c Hrc Hnotin. unfold label_at; simpl.
    rewrite list_lookup_insert_ne.
    + apply Ilabel_out; [done|]. intros Hp. apply Hnotin, elem_of_app. by left.
    + intros Heq. destruct (offset_inj U tx ty r c) as [-> ->]; auto.
      apply Hnotin, elem_of_app. right. by apply list_elem_of_singleton.
  - intros p Hp. rewrite (tail_app_nonempty _ _ _ Iseed) in Hp.
    apply elem_of_app in Hp as [Hp|Hp]; [by apply Iwas_init|].
    apply list_elem_of_singleton in Hp. subst p. simpl.
    rewrite <- Ilabel_out; done.
  - intros r Hr. rewrite (tail_app_nonempty _ _ _ Iseed), fmap_app. simpl.
    destruct (decide (r = Z.to_nat tx)) as [->|Hne].
    + rewrite list_lookup_insert_eq by lia. f_equal. symmetry.
      apply bool_decide_eq_true_2, elem_of_app. right.
      apply list_elem_of_singleton. lia.
    + rewrite list_lookup_insert_ne by done. rewrite Iflags by done.
      f_equal. apply bool_decide_ext. rewrite elem_of_app, list_elem_of_singleton.
      split; [by left|]. intros [?|?]; [done|lia].
Qed.
(** Examining one direction keeps the invariant. *)
Lemma examine_inv s0 row col pushed s l fx fy d :
  label_count s0 ≠ 0 → length (range_mat s0) = cells U →
  bfs_inv U s0 row col pushed s l → in_image U fx fy →
  ∃ s' l' pushed', examine U fx fy d (s, l) = Ok (s', l') ∧
    bfs_inv U s0 row col pushed' s' l' ∧
    queue_start_ind l' = queue_start_ind l.
Proof.
  intros Hlc Hrange Hinv Hfrom. unfold examine.
  destruct (neighbor U fx fy d) as [[tx ty]|] eqn:Hn; [|by eauto 6].
  apply neighbor_in_image in Hn as [Hthis _]; [|done].
  destruct (mat_at_total U (label_mat s) tx ty) as [lbl Hlbl];
    [done | by destruct Hinv |].
  rewrite Hlbl, bind_Ok. case_bool_decide as Hzero; [by eauto 6|].
  assert (range_mat s = range_mat s0) as Hsame by (by destruct Hinv as [[] ]).
  destruct (mat_at_total U (range_mat s) fx fy) as [r_from ->];
    [done | congruence |].
  destruct (mat_at_total U (range_mat s) tx ty) as [r_this ->];
    [done | congruence |].
  rewrite !bind_Ok.
  destruct (Fltb _ _).
  - assert (label_at U (set_alpha (step_alpha U d) s) tx ty = Some LABEL_INIT)
      as Hinit.
    { apply mat_at_inv in Hlbl as [_ Hlbl]. unfold label_at. simpl.
      rewrite Hlbl. f_equal. unfold LABEL_INIT in *. lia. }
    destruct (enqueue_inv s0 row col pushed (set_alpha (step_alpha U d) s) l tx ty)
      as (s' & l' & Hadm & Hinv' & Hstart); eauto using bfs_inv_set_alpha.
    by exists s', l', (pushed ++ [(tx, ty)]).
  - exists (set_alpha (step_alpha U d) s), l, pushed.
    split; [done|]. split; [by apply bfs_inv_set_alpha|done].
Qed.

Lemma examine_all_inv s0 row col pushed s l fx fy :
  label_count s0 ≠ 0 → length (range_mat s0) = cells U →
  bfs_inv U s0 row col pushed s l → in_image U fx fy →
  ∃ s' l' pushed', for_each dirs (examine U fx fy) (s, l) = Ok (s', l') ∧
    bfs_inv U s0 row col pushed' s' l' ∧
    queue_start_ind l' = queue_start_ind l.
Proof.
  intros Hlc Hrange Hinv Hfrom.
  destruct (for_each_inv
    (λ st, ∃ pushed', bfs_inv U s0 row col pushed' st.1 st.2 ∧
                      queue_start_ind st.2 = queue_start_ind l)
    dirs (examine U fx fy) (s, l)) as ([s' l'] & Hrun & pushed' & Hinv' & Hst).
  - by exists pushed.
  - intros d [t m] _ (pushed' & Hinv' & Hst). simpl in Hinv', Hst.
    destruct (examine_inv s0 row col pushed' t m fx fy d)
      as (t' & m' & pushed'' & -> & Hinv'' & Hst'); try done.
    exists (t', m'). split; [done|]. exists pushed''. simpl. split; [done|lia].
  - by exists s', l', pushed'.
Qed.

(** One iteration of the [while] loop keeps the invariant and advances
    [queue_start_ind]. *)
Lemma bfs_pop_inv s0 row col pushed s l :
  label_count s0 ≠ 0 → length (range_mat s0) = cells U →
  bfs_inv U s0 row col pushed s l → 0 < queue_size l →
  ∃ s' l' pushed', bfs_pop U (s, l) = Ok (s', l') ∧
    bfs_inv U s0 row col pushed' s' l' ∧
    queue_start_ind l' = queue_start_ind l + 1.
Proof.
  intros Hlc Hrange Hinv Hq.
  assert (Z.to_nat (queue_start_ind l) < length pushed)%nat as Hlt.
  { destruct_inv Hinv. lia. }
  destruct (lookup_lt_is_Some_2 pushed _ Hlt) as [[fx fy] Hp].
  assert (in_image U fx fy) as Hfrom.
  { destruct_inv Hinv. rewrite Forall_forall in Iin_image.
    apply (Iin_image (fx, fy)). by eapply list_elem_of_lookup_2. }
  assert (queue_indX s !! Z.to_nat (queue_start_ind l) = Some fx) as Hx.
  { destruct_inv Hinv. rewrite <- (lookup_take_lt _ (length pushed)) by done.
    rewrite Iqueue_indX, list_lookup_fmap, Hp. done. }
  assert (queue_indY s !! Z.to_nat (queue_start_ind l) = Some fy) as Hy.
  { destruct_inv Hinv. rewrite <- (lookup_take_lt _ (length pushed)) by done.
    rewrite Iqueue_indY, list_lookup_fmap, Hp. done. }
  assert (label_at U s fx fy = Some (label_count s)) as Hl.
  { destruct_inv Hinv. rewrite Ilabel_count.
    apply (Ilabel_in (fx, fy)). by eapply list_elem_of_lookup_2. }
  assert (0 ≤ queue_start_ind l) as Hst0 by (destruct Hinv; lia).
  assert (length (label_mat s) = cells U) as Hlen by (by destruct Hinv).
  unfold bfs_pop.
  rewrite (vec_get_ok _ _ fx Hst0 Hx), bind_Ok.
  rewrite (vec_get_ok _ _ fy Hst0 Hy), bind_Ok.
  rewrite (mat_set_ok U _ _ _ _ Hfrom Hlen), bind_Ok.
  rewrite list_insert_id by done.
  match goal with |- context [for_each dirs _ (?t, ?m)] =>
    destruct (examine_all_inv s0 row col pushed t m fx fy)
      as (s' & l' & pushed' & Hrun & Hinv' & Hst); try done end.
  - destruct_inv Hinv. split; simpl; try done; try lia. by destruct Isame.
  - exists s', l', pushed'. split; [done|]. split; [done|]. simpl in Hst. lia.
Qed.

Lemma bfs_loop_unfold fuel st :
  bfs_loop U fuel st =
  if bool_decide (0 < queue_size st.2) then
    match fuel with
    | O => Err OutOfFuel
    | S fuel' => st' ← bfs_pop U st; bfs_loop U fuel' st'
    end
  else Ok st.
Proof. by destruct fuel. Qed.

(** The [while] loop ends, within one iteration per cell that can still be
    popped, in a state of the invariant with an empty queue. *)
Lemma bfs_loop_inv s0 row col fuel : ∀ pushed s l,
  label_count s0 ≠ 0 → length (range_mat s0) = cells U →
  bfs_inv U s0 row col pushed s l →
  Z.of_nat (cells U) - queue_start_ind l ≤ Z.of_nat fuel →
  ∃ s' l' pushed', bfs_loop U fuel (s, l) = Ok (s', l') ∧
    bfs_inv U s0 row col pushed' s' l' ∧ queue_size l' = 0.
Proof.
  induction fuel as [|fuel IH]; intros pushed s l Hlc Hrange Hinv Hfuel.
  - rewrite bfs_loop_unfold. cbn [snd]. case_bool_decide as Hq.
    + exfalso. pose proof (distinct_cells_bound pushed) as Hb.
      destruct_inv Hinv. specialize (Hb Inodup Iin_image). lia.
    + exists s, l, pushed. split; [done|]. split; [done|]. destruct_inv Hinv. lia.
  - rewrite bfs_loop_unfold. cbn [snd]. case_bool_decide as Hq.
    + destruct (bfs_pop_inv s0 row col pushed s l)
        as (s1 & l1 & pushed1 & -> & Hinv1 & Hst); try done.
      rewrite bind_Ok. apply (IH pushed1); try done. lia.
    + exists s, l, pushed. split; [done|]. split; [done|]. destruct_inv Hinv. lia.
Qed.
(** [LabelComponents] up to the end of its loop: from a seed of the image
    and a non-zero label counter the loop ends, without an access outside a
    container, in a state of the invariant. *)
Lemma grow_total s0 row col fuel :
  sized U s0 → in_image U row col → label_count s0 ≠ 0 →
  (cells U ≤ fuel)%nat →
  ∃ s l pushed, grow U fuel row col s0 = Ok (s, l) ∧
    bfs_inv U s0 row col pushed s l ∧ queue_size l = 0.
Proof.
  intros Hsz Hseed Hlc Hfuel.
  pose proof (offset_lt_cells U row col Hseed) as Hcells.
  destruct Hsz. unfold grow.
  rewrite (vec_set_ok (queue_indX s0) 0 row), bind_Ok by lia.
  rewrite (vec_set_ok (queue_indY s0) 0 col), bind_Ok by lia.
  rewrite (vec_set_ok (all_pushed_indX s0) 0 row), bind_Ok by lia.
  rewrite (vec_set_ok (all_pushed_indY s0) 0 col), bind_Ok by lia.
  destruct fuel as [|fuel]; [lia|].
  rewrite bfs_loop_unfold. cbn [snd queue_size].
  rewrite bool_decide_eq_true_2 by lia.
  unfold bfs_pop. cbn [queue_indX queue_indY set_all_pushed_indY
    set_all_pushed_indX set_queue_indY set_queue_indX queue_start_ind
    label_mat label_count all_pushed_ind_size queue_end_ind queue_size
    line_count_flag].
  rewrite (vec_get_ok (<[Z.to_nat 0:=row]> (queue_indX s0)) 0 row), bind_Ok;
    [|lia|by apply list_lookup_insert_eq; lia].
  rewrite (vec_get_ok (<[Z.to_nat 0:=col]> (queue_indY s0)) 0 col), bind_Ok;
    [|lia|by apply list_lookup_insert_eq; lia].
  rewrite (mat_set_ok U (label_mat s0) row col), bind_Ok by done.
  match goal with |- context [for_each dirs _ (?t, ?m)] =>
    destruct (examine_all_inv s0 row col [(row, col)] t m row col)
      as (s1 & l1 & pushed1 & Hrun & Hinv1 & Hst1); try done end.
  - change (Z.to_nat 0) with 0%nat.
    split; simpl; try done; try lia.
    + by rewrite length_insert.
    + by rewrite length_insert.
    + by rewrite length_insert.
    + by rewrite length_insert.
    + by rewrite length_insert.
    + by rewrite length_replicate.
    + by rewrite (take_S_insert _ 0) by lia.
    + by rewrite (take_S_insert _ 0) by lia.
    + by rewrite (take_S_insert _ 0) by lia.
    + by rewrite (take_S_insert _ 0) by lia.
    + by apply Forall_singleton.
    + apply NoDup_singleton.
    + intros p Hp. apply list_elem_of_singleton in Hp. subst p.
      unfold label_at. simpl. apply list_lookup_insert_eq. lia.
    + intros r c Hrc Hp. unfold label_at. simpl.
      apply list_lookup_insert_ne. intros Heq.
      destruct (offset_inj U row col r c) as [-> ->]; auto.
      apply Hp, list_elem_of_singleton. done.
    + intros p Hp. by apply elem_of_nil in Hp.
    + intros r Hr. by rewrite lookup_replicate_2.
  - rewrite Hrun, bind_Ok. apply (bfs_loop_inv s0 row col fuel pushed1); try done.
    simpl in Hst1. lia.
Qed.

(** After the loop: the counter is incremented for a feasible segment, and
    otherwise every pushed cell is relabelled. *)
Lemma finish_spec s0 row col pushed s l :
  bfs_inv U s0 row col pushed s l →
  ∃ s', finish U (s, l) = Ok s' ∧
    same_outside_labels s0 s' ∧
    length (label_mat s') = cells U ∧
    length (queue_indX s') = cells U ∧ length (queue_indY s') = cells U ∧
    length (all_pushed_indX s') = cells U ∧
    length (all_pushed_indY s') = cells U ∧
    label_count s' =
      (if feasible_segment U l then label_count s0 + 1 else label_count s0) ∧
    (∀ p, p ∈ pushed →
       label_at U s' p.1 p.2 =
       Some (if feasible_segment U l then label_count s0 else LABEL_INVALID)) ∧
    (∀ r c, in_image U r c → (r, c) ∉ pushed →
       label_at U s' r c = label_at U s0 r c).
Proof.
  intros Hinv. unfold finish. destruct (feasible_segment U l).
  { exists (set_label_count (label_count s + 1) s). destruct_inv Hinv.
    split_and!; simpl; try done; try lia. by destruct Isame. }
  destruct (for_each_prefix_inv
    (λ done t,
       same_outside_labels s0 t ∧ label_count t = label_count s0 ∧
       length (label_mat t) = cells U ∧
       queue_indX t = queue_indX s ∧ queue_indY t = queue_indY s ∧
       all_pushed_indX t = all_pushed_indX s ∧
       all_pushed_indY t = all_pushed_indY s ∧
       (∀ i p, i ∈ done → pushed !! Z.to_nat i = Some p →
          label_at U t p.1 p.2 = Some LABEL_INVALID) ∧
       (∀ r c, in_image U r c → (r, c) ∉ pushed →
          label_at U t r c = label_at U s r c))
    (seqZ 0 (all_pushed_ind_size l)) (invalidate U) s)
    as (s' & Hrun & Hsame & Hcount & Hlen & Hqx & Hqy & Hax & Hay & Hin & Hout).
  - destruct_inv Hinv. split_and!; try done. intros i p Hi. by apply elem_of_nil in Hi.
  - intros done i rest t Hsplit
      (Hsame & Hcount & Hlen & Hqx & Hqy & Hax & Hay & Hin & Hout).
    assert (i ∈ seqZ 0 (all_pushed_ind_size l)) as Hi.
    { rewrite Hsplit. apply elem_of_app. right. left. }
    apply elem_of_seqZ in Hi. destruct_inv Hinv.
    assert (Z.to_nat i < length pushed)%nat as Hlt by lia.
    destruct (lookup_lt_is_Some_2 pushed _ Hlt) as [[r c] Hp].
    assert (in_image U r c) as Hrc.
    { rewrite Forall_forall in Iin_image.
      apply (Iin_image (r, c)). by eapply list_elem_of_lookup_2. }
    assert (all_pushed_indX t !! Z.to_nat i = Some r) as Hr.
    { rewrite Hax, <- (lookup_take_lt _ (length pushed)) by done.
      by rewrite Iall_pushed_indX, list_lookup_fmap, Hp. }
    assert (all_pushed_indY t !! Z.to_nat i = Some c) as Hc.
    { rewrite Hay, <- (lookup_take_lt _ (length pushed)) by done.
      by rewrite Iall_pushed_indY, list_lookup_fmap, Hp. }
    unfold invalidate.
    rewrite (vec_get_ok (all_pushed_indX t) i r), bind_Ok by (done || lia).
    rewrite (vec_get_ok (all_pushed_indY t) i c), bind_Ok by (done || lia).
    rewrite (mat_set_ok U (label_mat t) r c), bind_Ok by done.
    eexists. split; [done|]. pose proof (offset_lt_cells U r c Hrc).
    split_and!; simpl; try done.
    + by destruct Hsame.
    + by rewrite length_insert.
    + intros j [r' c'] Hj Hp'. unfold label_at. simpl.
      destruct (decide (offset U r c = offset U r' c')) as [->|Hne].
      * apply list_lookup_insert_eq. rewrite Hlen.
        apply offset_lt_cells. rewrite Forall_forall in Iin_image.
        apply (Iin_image (r', c')). by eapply list_elem_of_lookup_2.
      * rewrite list_lookup_insert_ne by done.
        apply elem_of_app in Hj as [Hj|Hj].
        -- by apply (Hin j (r', c')).
        -- apply list_elem_of_singleton in Hj. subst j. congruence.
    + intros r' c' Hrc' Hp'. unfold label_at. simpl.
      rewrite list_lookup_insert_ne; [by apply Hout|].
      intros Heq. destruct (offset_inj U r c r' c') as [-> ->]; auto.
      apply Hp'. by eapply list_elem_of_lookup_2.
  - exists s'. destruct_inv Hinv. split_and!; try done; try congruence.
    + intros p Hp. apply list_elem_of_lookup_1 in Hp as [i Hi].
      apply (Hin (Z.of_nat i)).
      * apply elem_of_seqZ. apply lookup_lt_Some in Hi. lia.
      * by rewrite Nat2Z.id.
    + intros r c Hrc Hp. rewrite Hout by done. by apply Ilabel_out.
Qed.

End FloodFill.

Section Components.
Context {F : Type} {fops : FloatOps F} (U : Utility F).

(** [LabelComponents] as a whole. *)
Lemma LabelComponents_spec s0 row col :
  sized U s0 → in_image U row col → label_count s0 ≠ 0 →
  ∃ s l pushed s',
    grow U (cells U) row col s0 = Ok (s, l) ∧
    bfs_inv U s0 row col pushed s l ∧ queue_size l = 0 ∧
    LabelComponents U row col s0 = Ok s' ∧
    sized U s' ∧ same_outside_labels s0 s' ∧
    label_count s' =
      (if feasible_segment U l then label_count s0 + 1 else label_count s0) ∧
    (∀ p, p ∈ pushed →
       label_at U s' p.1 p.2 =
       Some (if feasible_segment U l then label_count s0 else LABEL_INVALID)) ∧
    (∀ r c, in_image U r c → (r, c) ∉ pushed →
       label_at U s' r c = label_at U s0 r c).
Proof.
  intros Hsz Hseed Hlc.
  destruct (grow_total U s0 row col (cells U)) as (s & l & pushed & Hgrow & Hinv & Hq);
    try done.
  destruct (finish_spec U s0 row col pushed s l Hinv)
    as (s' & Hfin & Hsame & Hl1 & Hl2 & Hl3 & Hl4 & Hl5 & Hcount & Hin & Hout).
  exists s, l, pushed, s'. split_and!; try done.
  - unfold LabelComponents, LabelComponents_fuel. by rewrite Hgrow, bind_Ok.
  - destruct Hsz, Hsame. split; congruence.
Qed.

(** C7, as the code has it.  For every invocation of LabelComponents on a
    seed of the image with a non-zero label counter (ResetParameters sets
    the counter to 1 and it only grows), the flood fill ends and no access
    leaves the work arrays (the result is [Ok], where an access past the
    capacity would give [Err OutOfBounds]); the number of cells pushed,
    which is also the write cursor of the queue, is at most
    N_SCAN * HORIZON_SCAN, the capacity of the arrays; the pushed cells are
    pairwise distinct; every pushed cell but the seed had label 0 before the
    call and every pushed cell has the non-zero current label when the loop
    ends. *)
Theorem work_queue_within_capacity (s0 : ImageProjection F) (row col : Z) :
  sized U s0 → in_image U row col → label_count s0 ≠ 0 →
  ∃ s l s' pushed,
    grow U (cells U) row col s0 = Ok (s, l) ∧
    LabelComponents U row col s0 = Ok s' ∧
    0 < all_pushed_ind_size l ≤ N_SCAN U * HORIZON_SCAN U ∧
    queue_end_ind l = all_pushed_ind_size l ∧
    Z.of_nat (length (queue_indX s)) = N_SCAN U * HORIZON_SCAN U ∧
    Z.of_nat (length (all_pushed_indX s)) = N_SCAN U * HORIZON_SCAN U ∧
    Z.of_nat (length pushed) = all_pushed_ind_size l ∧
    take (length pushed) (all_pushed_indX s) = pushed.*1 ∧
    take (length pushed) (all_pushed_indY s) = pushed.*2 ∧
    take (length pushed) (queue_indX s) = pushed.*1 ∧
    take (length pushed) (queue_indY s) = pushed.*2 ∧
    NoDup pushed ∧
    (∀ p, p ∈ tail pushed → label_at U s0 p.1 p.2 = Some LABEL_INIT) ∧
    (∀ p, p ∈ pushed →
       label_at U s p.1 p.2 = Some (label_count s0) ∧ label_count s0 ≠ 0).
Proof.
  intros Hsz Hseed Hlc.
  destruct (LabelComponents_spec s0 row col)
    as (s & l & pushed & s' & Hgrow & Hinv & _ & Hrun & _); try done.
  exists s, l, s', pushed.
  pose proof (distinct_cells_bound U pushed) as Hb.
  destruct_inv Hinv. specialize (Hb Inodup Iin_image).
  assert (Z.of_nat (cells U) = N_SCAN U * HORIZON_SCAN U) as Hcells.
  { unfold cells. destruct Hseed. nia. }
  assert (0 < length pushed)%nat by (destruct pushed; [done | simpl; lia]).
  split_and!; try done; try lia.
  intros p Hp. split; [by apply Ilabel_in | done].
Qed.

End Components.

Section Segmentation.
Context {F : Type} {fops : FloatOps F} (U : Utility F).

(** *** Loops over the image *)

Lemma vec_get_total {A} (v : list A) (i : Z) :
  0 ≤ i < Z.of_nat (length v) → ∃ a, vec_get v i = Ok a.
Proof.
  intros Hi. destruct (lookup_lt_is_Some_2 v (Z.to_nat i)) as [a Ha]; [lia|].
  exists a. apply vec_get_ok; [lia|done].
Qed.

Lemma cloud_index_in_range (i j : Z) :
  in_image U i j → 0 ≤ j + i * HORIZON_SCAN U < Z.of_nat (cells U).
Proof. unfold in_image, cells. intros [Hi Hj]. nia. Qed.

Lemma elem_of_row_major rows i j :
  (i, j) ∈ row_major U rows ↔ 0 ≤ i < rows ∧ 0 ≤ j < HORIZON_SCAN U.
Proof.
  unfold row_major, row_cells. rewrite list_elem_of_join. split.
  - intros (l & Hl & Hls). apply list_elem_of_fmap in Hls as (i' & -> & Hi').
    apply list_elem_of_fmap in Hl as (j' & [= -> ->] & Hj').
    apply elem_of_seqZ in Hi', Hj'. lia.
  - intros [Hi Hj]. exists ((λ j, (i, j)) <$> seqZ 0 (HORIZON_SCAN U)). split.
    + apply list_elem_of_fmap. exists j. split; [done|]. apply elem_of_seqZ. lia.
    + apply list_elem_of_fmap. exists i. split; [done|]. apply elem_of_seqZ. lia.
Qed.

Lemma length_row_major_le rows :
  Z.of_nat (length (row_major U rows)) ≤
  Z.max 0 rows * Z.max 0 (HORIZON_SCAN U).
Proof.
  unfold row_major.
  assert (∀ l : list Z,
            length (mjoin (row_cells U <$> l)) =
            (length l * Z.to_nat (HORIZON_SCAN U))%nat) as Hjoin.
  { induction l as [|i l IH]; [done|]. rewrite fmap_cons.
    change (length (row_cells U i ++ mjoin (row_cells U <$> l)) =
            (S (length l) * Z.to_nat (HORIZON_SCAN U))%nat).
    rewrite length_app, IH. unfold row_cells.
    rewrite length_fmap, length_seqZ. lia. }
  rewrite Hjoin, length_seqZ. nia.
Qed.

(** An invariant that knows the cells visited so far is established for
    all the cells by two nested loops. *)
Lemma for_rows_cols_inv {S} (P : list (Z * Z) → S → Prop) rows
    (body : Z → Z → S → res S) s :
  P [] s →
  (∀ done i j t, 0 ≤ i < rows → 0 ≤ j < HORIZON_SCAN U → P done t →
     ∃ t', body i j t = Ok t' ∧ P (done ++ [(i, j)]) t') →
  ∃ t', for_rows_cols U rows body s = Ok t' ∧ P (row_major U rows) t'.
Proof.
  intros H0 Hbody. unfold for_rows_cols, row_major.
  apply (for_each_prefix_inv (λ done t, P (mjoin (row_cells U <$> done)) t));
    [done|].
  intros done i rest t Hsplit Ht.
  assert (0 ≤ i < rows) as Hi.
  { assert (i ∈ seqZ 0 rows) as Hin by (rewrite Hsplit, elem_of_app; right; left).
    apply elem_of_seqZ in Hin. lia. }
  rewrite fmap_app, join_app. simpl. rewrite app_nil_r. unfold row_cells at 2.
  apply (for_each_prefix_inv
    (λ cols t, P (mjoin (row_cells U <$> done) ++ ((λ j, (i, j)) <$> cols)) t)).
  - simpl. by rewrite app_nil_r.
  - intros cols j rest' t' Hsplit' Ht'.
    assert (0 ≤ j < HORIZON_SCAN U) as Hj.
    { assert (j ∈ seqZ 0 (HORIZON_SCAN U)) as Hin
        by (rewrite Hsplit', elem_of_app; right; left).
      apply elem_of_seqZ in Hin. lia. }
    destruct (Hbody _ i j t' Hi Hj Ht') as (t'' & Hrun & Ht'').
    exists t''. split; [done|]. by rewrite fmap_app, app_assoc.
Qed.

(** The same for an invariant of the state alone. *)
Lemma for_rows_cols_keeps {S} (P : S → Prop) rows (body : Z → Z → S → res S) s :
  P s →
  (∀ i j t, 0 ≤ i < rows → 0 ≤ j < HORIZON_SCAN U → P t →
     ∃ t', body i j t = Ok t' ∧ P t') →
  ∃ t', for_rows_cols U rows body s = Ok t' ∧ P t'.
Proof.
  intros H0 Hbody.
  apply (for_rows_cols_inv (λ _ t, P t)); [done|]. intros _. apply Hbody.
Qed.


(** *** The first loop nest of CloudSegmentation *)

Lemma label_cell_scan s0 done i j t :
  in_image U i j → scan_inv U s0 done t →
  ∃ t', label_cell U i j t = Ok t' ∧ scan_inv U s0 (done ++ [(i, j)]) t'.
Proof.
  intros Hij [Hsz Hsame Hcount Hlabels]. unfold label_cell.
  destruct (mat_at_total U (label_mat t) i j) as [lbl Hlbl];
    [done | by destruct Hsz |].
  rewrite Hlbl, bind_Ok. apply mat_at_inv in Hlbl as [_ Hlbl].
  case_bool_decide as Hzero.
  - subst lbl.
    destruct (LabelComponents_spec U t i j)
      as (g & l & pushed & t' & _ & Hinv & _ & Hrun & Hsz' & Hsame' & Hcount'
          & Hin & Hout); [done | done | lia |].
    exists t'. split; [done|]. destruct_inv Hinv.
    assert (∀ p, p ∈ pushed → label_at U t p.1 p.2 = Some LABEL_INIT) as Hwas.
    { intros p Hp. destruct pushed as [|q pushed']; [done|].
      simpl in Iseed. injection Iseed as ->.
      apply elem_of_cons in Hp as [->|Hp]; [done|]. by apply Iwas_init. }
    assert (label_count t ≤ label_count t') as Hmono.
    { rewrite Hcount'. destruct (feasible_segment U l); lia. }
    assert (label_count t' ≤ label_count t + 1) as Hstep.
    { rewrite Hcount'. destruct (feasible_segment U l); lia. }
    split.
    + done.
    + destruct Hsame, Hsame'. split; congruence.
    + rewrite length_app. simpl. lia.
    + intros r c Hrc. destruct (Hlabels r c Hrc) as (v & v' & Hv & Hv' & Hkeep & Hnew & _).
      destruct (decide ((r, c) ∈ pushed)) as [Hp|Hp].
      * pose proof (Hwas _ Hp) as Hw. simpl in Hw.
        assert (v' = LABEL_INIT) as -> by congruence.
        assert (v = LABEL_INIT) as ->.
        { destruct (decide (v = LABEL_INIT)); [done|]. symmetry. by apply Hkeep. }
        specialize (Hin _ Hp). simpl in Hin.
        eexists _, _. split; [done|]. split; [exact Hin|].
        rewrite Hcount'. destruct (feasible_segment U l);
          unfold LABEL_INIT, LABEL_INVALID; split_and!; intros; lia.
      * exists v, v'. rewrite (Hout r c Hrc Hp). split; [done|]. split; [done|].
        split; [done|]. split.
        -- intros Hv0. destruct (Hnew Hv0) as [?|[?|?]]; [auto | auto |].
           right. right. lia.
        -- intros Hd. apply elem_of_app in Hd as [Hd|Hd].
           ++ destruct (Hlabels r c Hrc) as (w & w' & Hw & Hw' & _ & _ & Hdone).
              assert (w' = v') as <- by congruence. by apply Hdone.
           ++ apply list_elem_of_singleton in Hd. injection Hd as -> ->.
              exfalso. apply Hp. destruct pushed; [done|]. simpl in Iseed.
              injection Iseed as ->. left.
  - exists t. split; [done|]. split; try done.
    { rewrite length_app. simpl. lia. }
    intros r c Hrc. destruct (Hlabels r c Hrc) as (v & v' & Hv & Hv' & Hkeep & Hnew & Hd).
    exists v, v'. split_and!; try done.
    intros Hin. apply elem_of_app in Hin as [Hin|Hin]; [by apply Hd|].
    apply list_elem_of_singleton in Hin. injection Hin as -> ->.
    unfold label_at in Hv'. congruence.
Qed.


Lemma label_scan s0 :
  sized U s0 → 0 < label_count s0 →
  ∃ t, for_rows_cols U (N_SCAN U) (label_cell U) s0 = Ok t ∧
       scan_inv U s0 (row_major U (N_SCAN U)) t.
Proof.
  intros Hsz Hlc. apply (for_rows_cols_inv (scan_inv U s0)).
  - split; [done | done | simpl; lia |].
    intros r c Hrc. pose proof (offset_lt_cells U r c Hrc) as Hlt.
    destruct (lookup_lt_is_Some_2 (label_mat s0) (offset U r c)) as [v Hv].
    { destruct Hsz. lia. }
    exists v, v. unfold label_at. split_and!; auto.
    intros Hin. by apply elem_of_nil in Hin.
  - intros done i j t Hi Hj Ht. by apply label_cell_scan.
Qed.

(** *** Output assembly reads the grids and leaves them as they are *)

Lemma same_grids_refl (s : ImageProjection F) : same_grids s s.
Proof. by repeat split. Qed.

Ltac same_grids_done :=
  eexists; split; [reflexivity|]; simpl; repeat split; simpl; congruence.

Lemma assemble_cell_ok t0 i j st :
  sized U t0 → same_grids t0 st.1 → in_image U i j →
  ∃ st', assemble_cell U i j st = Ok st' ∧ same_grids t0 st'.1.
Proof.
  intros Hsz Hsame Hij. destruct st as [t size]. simpl in Hsame.
  destruct Hsame as (Hl & Hg & Hr & Hf & Hc).
  destruct Hsz as [? ? ? Hfull ? ? ? ? ?].
  unfold assemble_cell.
  destruct (mat_at_total U (label_mat t) i j) as [lbl Hlbl]; [done|congruence|].
  destruct (mat_at_total U (ground_mat t) i j) as [g Hgr]; [done|congruence|].
  destruct (mat_at_total U (range_mat t) i j) as [r Hrg]; [done|congruence|].
  destruct (vec_get_total (full_cloud t) (j + i * HORIZON_SCAN U)) as [p Hp].
  { rewrite Hf, Hfull. by apply cloud_index_in_range. }
  rewrite Hlbl, bind_Ok, Hgr, bind_Ok.
  destruct (_ || _); [|same_grids_done].
  case_bool_decide.
  - destruct (_ && _); [|same_grids_done]. rewrite Hp, bind_Ok. same_grids_done.
  - destruct (_ && _); [same_grids_done|].
    rewrite Hrg, bind_Ok, Hp, bind_Ok. same_grids_done.
Qed.

Lemma assemble_row_ok t0 i st :
  sized U t0 → same_grids t0 st.1 → 0 ≤ i < N_SCAN U →
  ∃ st', assemble_row U i st = Ok st' ∧ same_grids t0 st'.1.
Proof.
  intros Hsz Hsame Hi. destruct st as [t size]. unfold assemble_row.
  match goal with |- context [for_each _ _ ?st0] =>
    destruct (for_each_inv (λ st, same_grids t0 st.1)
      (seqZ 0 (HORIZON_SCAN U)) (assemble_cell U i) st0)
      as ([t' size'] & Hrun & Hsame') end.
  - done.
  - intros j st Hj Hst. apply elem_of_seqZ in Hj.
    apply assemble_cell_ok; [done | done |]. split; lia.
  - rewrite Hrun, bind_Ok. simpl in Hsame'. destruct Hsame' as (? & ? & ? & ? & ?).
    same_grids_done.
Qed.

Lemma collect_pure_ok t0 i j t :
  sized U t0 → same_grids t0 t → in_image U i j →
  ∃ t', collect_pure U i j t = Ok t' ∧ same_grids t0 t'.
Proof.
  intros Hsz (Hl & Hg & Hr & Hf & Hc) Hij.
  destruct Hsz as [? ? ? Hfull ? ? ? ? ?].
  unfold collect_pure.
  destruct (mat_at_total U (label_mat t) i j) as [lbl Hlbl]; [done|congruence|].
  destruct (vec_get_total (full_cloud t) (j + i * HORIZON_SCAN U)) as [p Hp].
  { rewrite Hf, Hfull. by apply cloud_index_in_range. }
  rewrite Hlbl, bind_Ok. destruct (_ && _); [|same_grids_done].
  rewrite Hp, bind_Ok. same_grids_done.
Qed.

(** Output assembly, started in a state of the right sizes, does not fail
    and changes neither the matrices nor the label counter. *)
Lemma assembly_ok t :
  sized U t →
  ∃ st t', for_each (seqZ 0 (N_SCAN U)) (assemble_row U) (t, 0) = Ok st ∧
    for_rows_cols U (N_SCAN U) (collect_pure U) st.1 = Ok t' ∧
    same_grids t t'.
Proof.
  intros Hsz.
  destruct (for_each_inv (λ st, same_grids t st.1)
    (seqZ 0 (N_SCAN U)) (assemble_row U) (t, 0)) as (st & Hrun & Hsame).
  - apply same_grids_refl.
  - intros i st Hi Hst. apply elem_of_seqZ in Hi.
    apply assemble_row_ok; [done | done | lia].
  - destruct (for_rows_cols_keeps (same_grids t) (N_SCAN U) (collect_pure U) st.1)
      as (t' & Hrun' & Hsame'); [done | |].
    + intros i j u Hi Hj Hu. by apply collect_pure_ok.
    + by exists st, t'.
Qed.

(** C3. After CloudSegmentation, started with the containers at their sizes
    and a positive label counter, no cell of the label matrix holds 0: a
    cell that was not 0 (such as a cell marked -1) keeps its label, and a
    cell that was 0 holds the INVALID sentinel or a positive segment id
    issued during this call.  The label counter grows by at most one per
    cell of the image. *)
Theorem segmentation_resolves_every_cell (s : ImageProjection F) :
  sized U s → 0 < label_count s →
  ∃ s', CloudSegmentation U s = Ok s' ∧
    label_count s ≤ label_count s' ≤
      label_count s + Z.max 0 (N_SCAN U) * Z.max 0 (HORIZON_SCAN U) ∧
    ∀ r c, in_image U r c →
      ∃ v v', label_at U s r c = Some v ∧ label_at U s' r c = Some v' ∧
        v' ≠ LABEL_INIT ∧
        (v ≠ LABEL_INIT → v' = v) ∧
        (v = LABEL_INIT →
           v' = LABEL_INVALID ∨
           (0 < v' ∧ label_count s ≤ v' < label_count s')).
Proof.
  intros Hsz Hlc.
  destruct (label_scan s Hsz Hlc) as (t & Hscan & [Hsz' _ Hcount Hlabels]).
  destruct (assembly_ok t Hsz') as (st & s' & Hasm & Hpure & Hl & _ & _ & _ & Hc).
  exists s'. split.
  { unfold CloudSegmentation. by rewrite Hscan, bind_Ok, Hasm, bind_Ok. }
  split.
  { rewrite Hc. split; [lia|]. etrans; [apply Hcount|].
    apply Z.add_le_mono_l. apply length_row_major_le. }
  intros r c Hrc.
  destruct (Hlabels r c Hrc) as (v & v' & Hv & Hv' & Hkeep & Hnew & Hdone).
  exists v, v'. unfold label_at in *. rewrite Hl, Hc.
  assert (v' ≠ LABEL_INIT) as Hnz.
  { apply Hdone, elem_of_row_major. by destruct Hrc. }
  split_and!; try done.
  intros Hv0. destruct (Hnew Hv0) as [?|[?|?]]; [done | by left | right; lia].
Qed.

End Segmentation.

Section Admission.
Context {F : Type} {fops : FloatOps F} (U : Utility F).


End Admission.

Section Acceptance.
Context {F : Type} {fops : FloatOps F} (U : Utility F).

(** *** What the line count counts *)

Lemma count_flags (P : nat → Prop) `{∀ r, Decision (P r)} (flags : list bool) :
  ∀ k : nat,
    (∀ r, (r < length flags)%nat → flags !! r = Some (bool_decide (P (k + r)%nat))) →
    length (filter (λ b : bool, b = true) flags) =
    length (filter P (seq k (length flags))).
Proof.
  induction flags as [|b flags IH]; intros k Hflags; [done|].
  simpl. rewrite !filter_cons.
  pose proof (Hflags 0%nat ltac:(simpl; lia)) as H0. simpl in H0.
  rewrite Nat.add_0_r in H0. injection H0 as ->.
  assert (length (filter (λ b : bool, b = true) flags) =
          length (filter P (seq (S k) (length flags)))) as IH'.
  { apply IH. intros r Hr. specialize (Hflags (S r) ltac:(simpl; lia)).
    simpl in Hflags. rewrite Hflags.
    by replace (k + S r)%nat with (S k + r)%nat by lia. }
  destruct (decide (P k)) as [HP|HP].
  - rewrite bool_decide_eq_true_2 by done.
    rewrite decide_True by done. simpl. by rewrite IH'.
  - rewrite bool_decide_eq_false_2 by done.
    rewrite decide_False by done. done.
Qed.

(** [line_count] is the number of distinct rows of the admitted cells: the
    row of the seed counts only when another cell of that row is admitted. *)
Lemma line_count_admitted_rows s0 row col pushed s l :
  bfs_inv U s0 row col pushed s l →
  line_count l = Z.of_nat (length (flagged_rows pushed)).
Proof.
  intros Hinv. destruct_inv Hinv. unfold line_count, flagged_rows. f_equal.
  rewrite (count_flags (λ r, Z.of_nat r ∈ (tail pushed).*1) _ 0).
  2:{ intros r Hr. rewrite Iflags by lia. done. }
  rewrite Ilen_flags.
  rewrite <- (length_fmap Z.of_nat).
  apply Permutation_length, NoDup_Permutation.
  - apply NoDup_fmap; [apply _|]. apply NoDup_filter, NoDup_seq.
  - apply NoDup_remove_dups.
  - intros r. rewrite list_elem_of_fmap, elem_of_remove_dups. split.
    + intros (n & -> & Hn). by apply list_elem_of_filter in Hn as [Hn _].
    + intros Hr. exists (Z.to_nat r).
      assert (0 ≤ r < N_SCAN U) as Hrange.
      { apply list_elem_of_fmap in Hr as ([r' c'] & -> & Hp).
        rewrite Forall_forall in Iin_image.
        assert ((r', c') ∈ pushed) as Hp'.
        { destruct pushed; [done|]. by right. }
        by destruct (Iin_image _ Hp'). }
      split; [lia|]. apply list_elem_of_filter. split.
      * by rewrite Z2Nat.id by lia.
      * apply elem_of_seq. lia.
Qed.

(** X16. The effect of LabelComponents, as the code has it.  The flood
    fill from a seed of the image labelled 0 collects the cells [pushed];
    the segment is kept exactly when it has at least 30 cells, or at least
    [segmentValidPointNum] cells whose admitted cells (all but the seed) lie
    on at least [segmentValidLineNum] distinct rows.  A kept segment has the
    label counter's value on all its cells and the counter goes up by one;
    otherwise all its cells, the seed too, are INVALID and the counter is
    unchanged.  No other cell changes. *)
Theorem label_components_effect (s0 : ImageProjection F) (row col : Z) :
  sized U s0 → in_image U row col → 0 < label_count s0 →
  ∃ pushed s',
    LabelComponents U row col s0 = Ok s' ∧
    head pushed = Some (row, col) ∧ NoDup pushed ∧
    Forall (cell_in_image U) pushed ∧
    let size := Z.of_nat (length pushed) in
    let kept :=
      bool_decide (30 ≤ size ∨
                   (segmentValidPointNum U ≤ size ∧
                    segmentValidLineNum U ≤
                      Z.of_nat (length (flagged_rows pushed)))) in
    label_count s' = (if kept then label_count s0 + 1 else label_count s0) ∧
    (∀ p, p ∈ pushed →
       label_at U s' p.1 p.2 =
       Some (if kept then label_count s0 else LABEL_INVALID)) ∧
    (∀ r c, in_image U r c → (r, c) ∉ pushed →
       label_at U s' r c = label_at U s0 r c).
Proof.
  intros Hsz Hseed Hlc.
  destruct (LabelComponents_spec U s0 row col)
    as (s & l & pushed & s' & _ & Hinv & _ & Hrun & _ & _ & Hcount & Hin & Hout);
    [done | done | lia |].
  exists pushed, s'.
  pose proof (line_count_admitted_rows _ _ _ _ _ _ Hinv) as Hlines.
  assert (feasible_segment U l =
          bool_decide (30 ≤ Z.of_nat (length pushed) ∨
            (segmentValidPointNum U ≤ Z.of_nat (length pushed) ∧
             segmentValidLineNum U ≤ Z.of_nat (length (flagged_rows pushed)))))
    as Hkept.
  { unfold feasible_segment. destruct_inv Hinv. rewrite Isize, Hlines.
    repeat case_bool_decide; try done; lia. }
  destruct_inv Hinv. do 4 (split; [done|]). cbv zeta. by rewrite <- Hkept.
Qed.

End Acceptance.

Section Ground.
Context {F : Type} {fops : FloatOps F} (U : Utility F).


End Ground.

Section Handler.
Context {F : Type} {fops : FloatOps F} (U : Utility F).

(** *** FindStartEndAngle and the stages after it *)

Lemma CopyPointCloud_untouched msg s s1 e :
  CopyPointCloud U msg s = Next s1 ∨ CopyPointCloud U msg s = Halt e s1 →
  untouched s s1.
Proof.
  unfold CopyPointCloud.
  destruct (FLAGS_use_cloud_ring U), (msg_is_dense msg);
    intros [Hc|Hc]; simplify_eq; by repeat split.
Qed.

(** C6, as the code has it.  The orientation span of a frame is the azimuth
    of its last point plus 2 pi, minus the azimuth of its first point; it
    is checked, not corrected.  When the span is not within the open
    interval (pi, 3 pi), CloudHandler stops in FindStartEndAngle with a
    failed CHECK, the span stored as it was computed: the range image, the
    dense clouds, the ground matrix and cloud, the label matrix and counter
    and the output clouds are as they were before the frame and nothing has
    been written to a writer.  A frame that CloudHandler completes has its
    span within (pi, 3 pi). *)
Theorem span_outside_interval_stops_frame
    (msg : DriverPointCloud F) (s s1 : ImageProjection F)
    (front back : PointType F) :
  CopyPointCloud U msg s = Next s1 →
  head (laser_cloud_in s1) = Some front →
  last (laser_cloud_in s1) = Some back →
  let span :=
    Fsub (Fadd (Fatan2 (pt_x back) (pt_y back)) (Fmul (Fof_Z 2) M_PI))
         (Fatan2 (pt_x front) (pt_y front)) in
  let inside := Fltb span (Fmul (Fof_Z 3) M_PI) && Fltb M_PI span in
  (inside = false →
     ∃ s', CloudHandler U msg s = Halt CheckFailed s' ∧
           orientationDiff (seg_msg s') = Some span ∧ untouched s s') ∧
  (∀ s', CloudHandler U msg s = Next s' → inside = true).
Proof.
  intros Hcopy Hfront Hback span inside.
  pose proof (CopyPointCloud_untouched msg s s1 CheckFailed (or_introl Hcopy))
    as Hun.
  unfold CloudHandler. rewrite Hcopy. cbn [and_then].
  unfold FindStartEndAngle. rewrite Hfront, Hback.
  change (orientation_span front back) with span.
  unfold inside. split.
  - intros Hout. destruct (Fltb span (Fmul (Fof_Z 3) M_PI)); simpl in *.
    + rewrite Hout. simpl. eexists. split; [reflexivity|]. by split.
    + eexists. split; [reflexivity|]. by split.
  - intros s'. destruct (Fltb span (Fmul (Fof_Z 3) M_PI)); simpl; [|done].
    by destruct (Fltb M_PI span).
Qed.

(** *** ResetParameters *)

Lemma CloudHandler_ends_with_reset msg s s' :
  CloudHandler U msg s = Next s' →
  ∃ t, s' = ResetParameters U (PublishCloud t).
Proof.
  unfold CloudHandler, and_then, run.
  destruct (CopyPointCloud U msg s) as [s1|]; [|done].
  destruct (FindStartEndAngle s1) as [s2|]; [|done].
  destruct (ProjectPointCloud U s2) as [s3|]; [|done].
  destruct (GroundRemoval U s3) as [s4|]; [|done].
  destruct (CloudSegmentation U s4) as [s5|]; [|done].
  intros [= <-]. by exists s5.
Qed.

(** C8, as the code has it.  After a frame has been processed,
    ResetParameters has run on the state [t] in which the frame was
    published: every cell of the range image is FLT_MAX, every cell of the
    ground matrix and of the label matrix is 0, the label counter is 1, the
    two input clouds and the four appended clouds (ground, segmented,
    segmented-pure, outlier) are empty, and the two dense clouds keep their
    length with the NaN point in every slot.  The segmentation metadata, the
    header and the writers' history are those of [t]: they are not reset. *)
Theorem reset_after_every_frame (msg : DriverPointCloud F)
    (s s' : ImageProjection F) :
  CloudHandler U msg s = Next s' →
  ∃ t, s' = ResetParameters U (PublishCloud t) ∧
    range_mat s' = replicate (cells U) FLT_MAX ∧
    ground_mat s' = replicate (cells U) 0 ∧
    label_mat s' = replicate (cells U) LABEL_INIT ∧
    label_count s' = 1 ∧
    laser_cloud_in s' = [] ∧ laser_cloud_in_ring s' = [] ∧
    ground_cloud s' = [] ∧ segmented_cloud s' = [] ∧
    segmented_cloud_pure s' = [] ∧ outlier_cloud s' = [] ∧
    full_cloud s' = replicate (length (full_cloud t)) (nan_point (F:=F)) ∧
    full_info_cloud s' =
      replicate (length (full_info_cloud t)) (nan_point (F:=F)) ∧
    seg_msg s' = seg_msg (PublishCloud t) ∧
    cloud_header s' = cloud_header t ∧
    written s' = written (PublishCloud t).
Proof.
  intros Hrun. destruct (CloudHandler_ends_with_reset msg s s' Hrun) as [t ->].
  exists t. by repeat split.
Qed.

End Handler.

Section Outliers.
Context {F : Type} {fops : FloatOps F} (U : Utility F).

(** C9, as the code has it.  During output assembly a cell (i, j) labelled
    INVALID is appended to the outlier cloud exactly when its row is
    strictly beyond [groundScanInd] and its column index is a multiple of
    5; in both cases it is left out of the segmented cloud, whose size and
    metadata do not change. *)
Theorem invalid_cell_sampled_by_column (s : ImageProjection F)
    (size_of_seg_cloud i j g : Z) (p : PointType F) :
  mat_at U (label_mat s) i j = Ok LABEL_INVALID →
  mat_at U (ground_mat s) i j = Ok g →
  full_cloud s !! offset U i j = Some p →
  ∃ s', assemble_cell U i j (s, size_of_seg_cloud) = Ok (s', size_of_seg_cloud) ∧
    segmented_cloud s' = segmented_cloud s ∧ seg_msg s' = seg_msg s ∧
    outlier_cloud s' =
      if bool_decide (groundScanInd U < i ∧ j `mod` 5 = 0)
      then outlier_cloud s ++ [p] else outlier_cloud s.
Proof.
  intros Hlbl Hg Hp. pose proof (mat_at_inv U _ _ _ _ Hlbl) as [[Hi Hj] _].
  assert (0 ≤ j + i * HORIZON_SCAN U) as Hidx by nia.
  assert (j `rem` 5 = j `mod` 5) as Hrem by (apply Z.rem_mod_nonneg; lia).
  unfold assemble_cell. rewrite Hlbl, bind_Ok, Hg, bind_Ok.
  rewrite (bool_decide_eq_true_2 (0 < LABEL_INVALID)) by done.
  rewrite (bool_decide_eq_true_2 (LABEL_INVALID = LABEL_INVALID)) by done.
  cbn [orb]. rewrite Hrem.
  destruct (decide (groundScanInd U < i)) as [Hrow|Hrow];
    destruct (decide (j `mod` 5 = 0)) as [Hcol|Hcol].
  - rewrite !bool_decide_eq_true_2 by done. cbn [andb].
    rewrite (vec_get_ok (full_cloud s) _ p Hidx Hp), bind_Ok. by eauto.
  - rewrite (bool_decide_eq_false_2 (j `mod` 5 = 0)) by done.
    rewrite (bool_decide_eq_false_2 (_ ∧ _)) by tauto.
    rewrite andb_false_r. by eauto.
  - rewrite (bool_decide_eq_false_2 (groundScanInd U < i)) by done.
    rewrite (bool_decide_eq_false_2 (_ ∧ _)) by tauto. by eauto.
  - rewrite (bool_decide_eq_false_2 (groundScanInd U < i)) by done.
    rewrite (bool_decide_eq_false_2 (_ ∧ _)) by tauto. by eauto.
Qed.

End Outliers.

Section Projection.
Context {F : Type} {fops : FloatOps F} (U : Utility F).

Lemma to_size_t_range (f : F) : 0 ≤ to_size_t f < 2 ^ 64.
Proof. unfold to_size_t. apply Z.mod_pos_bound. lia. Qed.

Lemma to_size_t_negative (f : F) :
  - 2 ^ 63 ≤ Ftrunc f < 0 → to_size_t f = Ftrunc f + 2 ^ 64.
Proof.
  intros Hf. unfold to_size_t. symmetry.
  apply (Z.mod_unique_pos _ _ (-1)); lia.
Qed.

(** A point that passes the checks of the loop body has a cell of the image. *)
Lemma project_cell_in_image i p s r c rg :
  project_cell U i p s = Ok (Some (r, c, rg)) →
  in_image U r c ∧ 0 ≤ c + r * HORIZON_SCAN U < N_SCAN U * HORIZON_SCAN U.
Proof.
  unfold project_cell. intros Hrun.
  apply bind_inv in Hrun as (row & Hrow & Hrun).
  assert (0 ≤ row) as Hrow0.
  { destruct (FLAGS_use_cloud_ring U).
    - apply bind_inv in Hrow as (q & _ & [= <-]). unfold as_size_t.
      apply Z.mod_pos_bound. lia.
    - injection Hrow as <-. apply to_size_t_range. }
  pose proof (to_size_t_range (column_bucket U p)) as Hcol.
  repeat case_bool_decide; try done; destruct (Fltb _ _); try done;
    injection Hrun as <- <- <-; unfold in_image; split; try nia; lia.
Qed.

Lemma project_point_sized i s p r c rg :
  sized U s → vec_get (laser_cloud_in s) i = Ok p →
  project_cell U i p s = Ok (Some (r, c, rg)) →
  ∃ s', project_point U i s = Ok s' ∧ sized U s' ∧
    laser_cloud_in s' = laser_cloud_in s ∧
    laser_cloud_in_ring s' = laser_cloud_in_ring s ∧
    range_mat s' = <[offset U r c := rg]> (range_mat s).
Proof.
  intros Hsz Hp Hcell.
  destruct (project_cell_in_image _ _ _ _ _ _ Hcell) as [Hrc Hidx].
  pose proof (offset_lt_cells U r c Hrc) as Hlt.
  destruct Hsz as [Hrange Hground Hlabel Hfull Hinfo Hqx Hqy Hax Hay].
  assert (Z.of_nat (cells U) = N_SCAN U * HORIZON_SCAN U) as Hcells.
  { unfold cells. destruct Hrc. nia. }
  unfold project_point. rewrite Hp, bind_Ok, Hcell, bind_Ok.
  rewrite (mat_set_ok U (range_mat s) r c) by done. rewrite bind_Ok.
  rewrite (vec_set_ok (full_cloud s)) by lia. rewrite bind_Ok.
  rewrite (vec_set_ok (full_info_cloud s)) by lia. rewrite bind_Ok.
  rewrite vec_set_ok by (rewrite length_insert; lia). rewrite bind_Ok.
  eexists. split; [reflexivity|]. split; [|done].
  split; simpl; rewrite ?length_insert; done.
Qed.


(** ProjectPointCloud as a whole: with the row taken from the vertical
    angle, no point of the cloud leads to an access outside a container. *)
Lemma ProjectPointCloud_total s :
  sized U s → FLAGS_use_cloud_ring U = false →
  ∃ s', ProjectPointCloud U s = Ok s' ∧ sized U s' ∧
        laser_cloud_in s' = laser_cloud_in s.
Proof.
  intros Hsz Hring. unfold ProjectPointCloud.
  apply (for_each_inv (λ t, sized U t ∧ laser_cloud_in t = laser_cloud_in s));
    [done|].
  intros i t Hi [Hszt Hin]. apply elem_of_seqZ in Hi.
  destruct (vec_get_total (laser_cloud_in t) i) as [p Hp]; [rewrite Hin; lia|].
  destruct (project_cell U i p t) as [[[[r c] rg]|]|e] eqn:Hcell.
  - destruct (project_point_sized i t p r c rg) as (t' & Hrun & Hsz' & Hin' & _);
      try done.
    exists t'. split; [done|]. split; [done|]. congruence.
  - exists t. unfold project_point. by rewrite Hp, bind_Ok, Hcell, bind_Ok.
  - exfalso. unfold project_cell in Hcell. rewrite Hring, bind_Ok in Hcell.
    repeat case_bool_decide; try done; by destruct (Fltb _ _).
Qed.

End Projection.

(** ** More on the flood fill: the shape of a segment *)

Section Fill.
Context {F : Type} {fops : FloatOps F} (U : Utility F).

Lemma linked_snoc rm pushed p n :
  linked U rm pushed → p ∈ pushed → admitted_from U rm p n →
  linked U rm (pushed ++ [n]).
Proof.
  intros Hlinked Hp Hadm i m Hm.
  destruct (decide (S i < length pushed)%nat) as [Hlt|Hge].
  - rewrite lookup_app_l in Hm by done.
    destruct (Hlinked i m Hm) as (j & q & Hj & Hq & Hqm).
    exists j, q. split; [done|]. split; [|done].
    rewrite lookup_app_l; [done|]. apply lookup_lt_Some in Hq. lia.
  - assert (S i = length pushed) as Hi.
    { apply lookup_lt_Some in Hm. rewrite length_app in Hm. simpl in Hm. lia. }
    rewrite Hi, list_lookup_middle in Hm by done. injection Hm as <-.
    apply list_elem_of_lookup_1 in Hp as [j Hj].
    exists j, p. pose proof (lookup_lt_Some _ _ _ Hj).
    split; [lia|]. split; [|done]. by rewrite lookup_app_l by lia.
Qed.

Lemma closed_at_snoc s0 pushed p d n :
  closed_at U s0 pushed p d → closed_at U s0 (pushed ++ [n]) p d.
Proof. intros Hc m H1 H2 H3. apply elem_of_app. left. by apply Hc. Qed.

Lemma fill_inv_snoc s0 pushed popped p n :
  popped ≤ Z.of_nat (length pushed) →
  fill_inv U s0 pushed popped → p ∈ pushed →
  admitted_from U (range_mat s0) p n →
  fill_inv U s0 (pushed ++ [n]) popped.
Proof.
  intros Hlen [Hlinked Hclosed] Hp Hadm. split.
  - by eapply linked_snoc.
  - intros j q d Hj Hq Hd. apply closed_at_snoc.
    apply (Hclosed j q d Hj); [|done].
    rewrite lookup_app_l in Hq; [done|lia].
Qed.

(** Examining one direction from a pushed cell: the segment grows by the
    neighbour, admitted from that cell, or stays, and afterwards the
    direction is closed. *)
Lemma examine_fill s0 row col pushed s l fx fy d popped :
  label_count s0 ≠ 0 → length (range_mat s0) = cells U →
  bfs_inv U s0 row col pushed s l → (fx, fy) ∈ pushed →
  popped ≤ Z.of_nat (length pushed) →
  fill_inv U s0 pushed popped → d ∈ dirs →
  ∃ s' l' pushed', examine U fx fy d (s, l) = Ok (s', l') ∧
    bfs_inv U s0 row col pushed' s' l' ∧
    queue_start_ind l' = queue_start_ind l ∧
    (∃ ext, pushed' = pushed ++ ext) ∧
    fill_inv U s0 pushed' popped ∧
    closed_at U s0 pushed' (fx, fy) d.
Proof.
  intros Hlc Hrange Hinv Hin Hlen Hfill Hd.
  assert (in_image U fx fy) as Hfrom.
  { destruct_inv Hinv. rewrite Forall_forall in Iin_image.
    apply (Iin_image (fx, fy) Hin). }
  unfold examine.
  destruct (neighbor U fx fy d) as [[tx ty]|] eqn:Hn.
  2:{ exists s, l, pushed. split_and!; try done.
      - exists []. by rewrite app_nil_r.
      - intros n Hn'. simpl in Hn'. congruence. }
  pose proof Hn as Hn0.
  apply neighbor_in_image in Hn as [Hthis _]; [|done].
  destruct (mat_at_total U (label_mat s) tx ty) as [lbl Hlbl];
    [done | by destruct Hinv |].
  rewrite Hlbl, bind_Ok. apply mat_at_inv in Hlbl as [_ Hlbl].
  case_bool_decide as Hzero.
  { exists s, l, pushed. split_and!; try done.
    - exists []. by rewrite app_nil_r.
    - intros n Hn' _ Hl0. simpl in Hn'. rewrite Hn0 in Hn'.
      injection Hn' as <-. simpl in Hl0.
      destruct (decide ((tx, ty) ∈ pushed)) as [|Hout]; [done|].
      exfalso. destruct_inv Hinv.
      pose proof (Ilabel_out tx ty Hthis Hout) as Heq.
      unfold label_at in *. congruence. }
  assert (range_mat s = range_mat s0) as Hsame by (by destruct Hinv as [[] ]).
  destruct (mat_at_total U (range_mat s) fx fy) as [r_from Hrf];
    [done | congruence |].
  destruct (mat_at_total U (range_mat s) tx ty) as [r_this Hrt];
    [done | congruence |].
  rewrite Hrf, bind_Ok, Hrt, bind_Ok.
  apply mat_at_inv in Hrf as [_ Hrf]. apply mat_at_inv in Hrt as [_ Hrt].
  rewrite Hsame in Hrf, Hrt.
  change (alpha (set_alpha (step_alpha U d) s)) with (step_alpha U d).
  destruct (Fltb (segmentTheta U) (admission_angle (step_alpha U d) r_from r_this))
    eqn:Htest.
  - assert (label_at U (set_alpha (step_alpha U d) s) tx ty = Some LABEL_INIT)
      as Hinit.
    { unfold label_at. simpl. rewrite Hlbl. f_equal.
      unfold LABEL_INIT in *. lia. }
    destruct (enqueue_inv U s0 row col pushed (set_alpha (step_alpha U d) s) l tx ty)
      as (s' & l' & Hadm & Hinv' & Hstart); eauto using bfs_inv_set_alpha.
    exists s', l', (pushed ++ [(tx, ty)]). split_and!; try done.
    + by exists [(tx, ty)].
    + apply (fill_inv_snoc s0 pushed popped (fx, fy)); try done.
      exists d. split; [done|]. split; [done|].
      exists r_from, r_this. by split_and!.
    + intros n Hn' _ _. simpl in Hn'. rewrite Hn0 in Hn'. injection Hn' as <-.
      apply elem_of_app. right. by apply list_elem_of_singleton.
  - exists (set_alpha (step_alpha U d) s), l, pushed. split_and!; try done.
    + by apply bfs_inv_set_alpha.
    + exists []. by rewrite app_nil_r.
    + intros n Hn' (rf & rt & H1 & H2 & H3) _. exfalso.
      simpl in Hn'. rewrite Hn0 in Hn'. injection Hn' as <-. simpl in *.
      congruence.
Qed.


Lemma closed_at_app s0 pushed ext p d :
  closed_at U s0 pushed p d → closed_at U s0 (pushed ++ ext) p d.
Proof. intros Hc m H1 H2 H3. apply elem_of_app. left. by apply Hc. Qed.

Lemma examine_all_fill s0 row col pushed s l fx fy popped :
  label_count s0 ≠ 0 → length (range_mat s0) = cells U →
  bfs_inv U s0 row col pushed s l → (fx, fy) ∈ pushed →
  popped ≤ Z.of_nat (length pushed) →
  fill_inv U s0 pushed popped →
  ∃ s' l' pushed', for_each dirs (examine U fx fy) (s, l) = Ok (s', l') ∧
    bfs_inv U s0 row col pushed' s' l' ∧
    queue_start_ind l' = queue_start_ind l ∧
    (∃ ext, pushed' = pushed ++ ext) ∧
    fill_inv U s0 pushed' popped ∧
    (∀ d, d ∈ dirs → closed_at U s0 pushed' (fx, fy) d).
Proof.
  intros Hlc Hrange Hinv Hin Hlen Hfill.
  destruct (for_each_prefix_inv
    (λ done st, ∃ pushed', bfs_inv U s0 row col pushed' st.1 st.2 ∧
       queue_start_ind st.2 = queue_start_ind l ∧
       (∃ ext, pushed' = pushed ++ ext) ∧
       fill_inv U s0 pushed' popped ∧
       (∀ d, d ∈ done → closed_at U s0 pushed' (fx, fy) d))
    dirs (examine U fx fy) (s, l))
    as ([s' l'] & Hrun & pushed' & Hinv' & Hst & Hext & Hfill' & Hclosed).
  - exists pushed. split_and!; try done.
    + exists []. by rewrite app_nil_r.
    + intros d Hd. by apply elem_of_nil in Hd.
  - intros done d rest [t m] Hsplit (pushed' & Hinv' & Hst & [ext ->] & Hfill' & Hclosed).
    simpl in Hinv', Hst.
    assert (d ∈ dirs) as Hd by (rewrite Hsplit, elem_of_app; right; left).
    destruct (examine_fill s0 row col (pushed ++ ext) t m fx fy d popped)
      as (t' & m' & pushed'' & Hrun & Hinv'' & Hst' & [ext' ->] & Hfill'' & Hcl);
      try done.
    { apply elem_of_app. by left. }
    { rewrite length_app. lia. }
    exists (t', m'). split; [done|]. exists ((pushed ++ ext) ++ ext'). simpl.
    split_and!; try done.
    + lia.
    + exists (ext ++ ext'). by rewrite app_assoc.
    + intros e He. apply elem_of_app in He as [He|He].
      * apply closed_at_app. by apply Hclosed.
      * apply list_elem_of_singleton in He. by subst e.
  - by exists s', l', pushed'.
Qed.

Lemma bfs_pop_fill s0 row col pushed s l :
  label_count s0 ≠ 0 → length (range_mat s0) = cells U →
  bfs_inv U s0 row col pushed s l →
  fill_inv U s0 pushed (queue_start_ind l) → 0 < queue_size l →
  ∃ s' l' pushed', bfs_pop U (s, l) = Ok (s', l') ∧
    bfs_inv U s0 row col pushed' s' l' ∧
    queue_start_ind l' = queue_start_ind l + 1 ∧
    fill_inv U s0 pushed' (queue_start_ind l').
Proof.
  intros Hlc Hrange Hinv Hfill Hq.
  assert (Z.to_nat (queue_start_ind l) < length pushed)%nat as Hlt.
  { destruct_inv Hinv. lia. }
  destruct (lookup_lt_is_Some_2 pushed _ Hlt) as [[fx fy] Hp].
  assert ((fx, fy) ∈ pushed) as Hin by (by eapply list_elem_of_lookup_2).
  assert (in_image U fx fy) as Hfrom.
  { destruct_inv Hinv. rewrite Forall_forall in Iin_image.
    apply (Iin_image (fx, fy) Hin). }
  assert (queue_indX s !! Z.to_nat (queue_start_ind l) = Some fx) as Hx.
  { destruct_inv Hinv. rewrite <- (lookup_take_lt _ (length pushed)) by done.
    rewrite Iqueue_indX, list_lookup_fmap, Hp. done. }
  assert (queue_indY s !! Z.to_nat (queue_start_ind l) = Some fy) as Hy.
  { destruct_inv Hinv. rewrite <- (lookup_take_lt _ (length pushed)) by done.
    rewrite Iqueue_indY, list_lookup_fmap, Hp. done. }
  assert (label_at U s fx fy = Some (label_count s)) as Hl.
  { destruct_inv Hinv. rewrite Ilabel_count. by apply (Ilabel_in (fx, fy)). }
  assert (0 ≤ queue_start_ind l) as Hst0 by (destruct_inv Hinv; lia).
  assert (length (label_mat s) = cells U) as Hlen by (by destruct Hinv).
  unfold bfs_pop.
  rewrite (vec_get_ok _ _ fx Hst0 Hx), bind_Ok.
  rewrite (vec_get_ok _ _ fy Hst0 Hy), bind_Ok.
  rewrite (mat_set_ok U _ _ _ _ Hfrom Hlen), bind_Ok.
  rewrite list_insert_id by done.
  match goal with |- context [for_each dirs _ (?t, ?m)] =>
    destruct (examine_all_fill s0 row col pushed t m fx fy (queue_start_ind l))
      as (s' & l' & pushed' & Hrun & Hinv' & Hst & [ext ->] & [Hlinked Hold] & Hnew);
      try done end.
  - destruct_inv Hinv. split; simpl; try done; try lia. by destruct Isame.
  - lia.
  - exists s', l', (pushed ++ ext). split; [done|]. split; [done|].
    simpl in Hst. split; [lia|]. split; [done|].
    intros j p d Hj Hpj Hd.
    destruct (decide (Z.of_nat j < queue_start_ind l)) as [Hearlier|Hnow].
    + by apply (Hold j).
    + assert (j = Z.to_nat (queue_start_ind l)) as -> by lia.
      rewrite lookup_app_l in Hpj by done.
      assert (p = (fx, fy)) as -> by congruence. by apply Hnew.
Qed.

Lemma bfs_loop_fill s0 row col fuel : ∀ pushed s l,
  label_count s0 ≠ 0 → length (range_mat s0) = cells U →
  bfs_inv U s0 row col pushed s l →
  fill_inv U s0 pushed (queue_start_ind l) →
  Z.of_nat (cells U) - queue_start_ind l ≤ Z.of_nat fuel →
  ∃ s' l' pushed', bfs_loop U fuel (s, l) = Ok (s', l') ∧
    bfs_inv U s0 row col pushed' s' l' ∧ queue_size l' = 0 ∧
    fill_inv U s0 pushed' (queue_start_ind l').
Proof.
  induction fuel as [|fuel IH]; intros pushed s l Hlc Hrange Hinv Hfill Hfuel.
  - rewrite bfs_loop_unfold. cbn [snd]. case_bool_decide as Hq.
    + exfalso. pose proof (distinct_cells_bound U pushed) as Hb.
      destruct_inv Hinv. specialize (Hb Inodup Iin_image). lia.
    + exists s, l, pushed. split_and!; try done. destruct_inv Hinv. lia.
  - rewrite bfs_loop_unfold. cbn [snd]. case_bool_decide as Hq.
    + destruct (bfs_pop_fill s0 row col pushed s l)
        as (s1 & l1 & pushed1 & -> & Hinv1 & Hst & Hfill1); try done.
      rewrite bind_Ok. apply (IH pushed1); try done. lia.
    + exists s, l, pushed. split_and!; try done. destruct_inv Hinv. lia.
Qed.

(** The flood fill ends with a segment in which every cell has been
    expanded. *)
Lemma grow_fill s0 row col fuel :
  sized U s0 → in_image U row col → label_count s0 ≠ 0 →
  (cells U ≤ fuel)%nat →
  ∃ s l pushed, grow U fuel row col s0 = Ok (s, l) ∧
    bfs_inv U s0 row col pushed s l ∧ queue_size l = 0 ∧
    fill_inv U s0 pushed (Z.of_nat (length pushed)).
Proof.
  intros Hsz Hseed Hlc Hfuel.
  pose proof (offset_lt_cells U row col Hseed) as Hcells.
  destruct Hsz as [Hrange Hground Hlabel Hfull Hinfo Hqx Hqy Hax Hay].
  unfold grow.
  rewrite (vec_set_ok (queue_indX s0) 0 row), bind_Ok by lia.
  rewrite (vec_set_ok (queue_indY s0) 0 col), bind_Ok by lia.
  rewrite (vec_set_ok (all_pushed_indX s0) 0 row), bind_Ok by lia.
  rewrite (vec_set_ok (all_pushed_indY s0) 0 col), bind_Ok by lia.
  destruct fuel as [|fuel]; [lia|].
  rewrite bfs_loop_unfold. cbn [snd queue_size].
  rewrite bool_decide_eq_true_2 by lia.
  unfold bfs_pop. cbn [queue_indX queue_indY set_all_pushed_indY
    set_all_pushed_indX set_queue_indY set_queue_indX queue_start_ind
    label_mat label_count all_pushed_ind_size queue_end_ind queue_size
    line_count_flag].
  rewrite (vec_get_ok (<[Z.to_nat 0:=row]> (queue_indX s0)) 0 row), bind_Ok;
    [|lia|by apply list_lookup_insert_eq; lia].
  rewrite (vec_get_ok (<[Z.to_nat 0:=col]> (queue_indY s0)) 0 col), bind_Ok;
    [|lia|by apply list_lookup_insert_eq; lia].
  unfold mat_set. rewrite bool_decide_eq_true_2 by (split; [done|lia]).
  rewrite bind_Ok.
  match goal with |- context [for_each dirs _ (?t, ?m)] =>
    destruct (examine_all_fill s0 row col [(row, col)] t m row col 0)
      as (s1 & l1 & pushed1 & Hrun & Hinv1 & Hst1 & [ext ->] & [Hlinked _] & Hnew);
      try done end.
  - change (Z.to_nat 0) with 0%nat.
    split; simpl; try done; try lia.
    + by rewrite length_insert.
    + rewrite length_insert. congruence.
    + rewrite length_insert. congruence.
    + rewrite length_insert. congruence.
    + rewrite length_insert. congruence.
    + by rewrite length_replicate.
    + by rewrite (take_S_insert _ 0) by lia.
    + by rewrite (take_S_insert _ 0) by lia.
    + by rewrite (take_S_insert _ 0) by lia.
    + by rewrite (take_S_insert _ 0) by lia.
    + by apply Forall_singleton.
    + apply NoDup_singleton.
    + intros p Hp. apply list_elem_of_singleton in Hp. subst p.
      unfold label_at. simpl. apply list_lookup_insert_eq. lia.
    + intros r c Hrc Hp. unfold label_at. simpl.
      apply list_lookup_insert_ne. intros Heq.
      destruct (offset_inj U row col r c) as [-> ->]; auto.
      apply Hp, list_elem_of_singleton. done.
    + intros p Hp. by apply elem_of_nil in Hp.
    + intros r Hr. by rewrite lookup_replicate_2.
  - apply list_elem_of_singleton. done.
  - split.
    + intros i n Hn. by destruct i.
    + intros j p d Hj. lia.
  - rewrite Hrun, bind_Ok.
    destruct (bfs_loop_fill s0 row col fuel ([(row, col)] ++ ext) s1 l1)
      as (s2 & l2 & pushed2 & Hloop & Hinv2 & Hq2 & Hfill2); try done.
    + split; [done|]. intros j p d Hj Hp Hd.
      simpl in Hst1. assert (j = 0%nat) as -> by lia.
      simpl in Hp. injection Hp as <-. by apply Hnew.
    + simpl in Hst1. lia.
    + exists s2, l2, pushed2. split_and!; try done.
      destruct_inv Hinv2.
      assert (queue_start_ind l2 = Z.of_nat (length pushed2)) as <- by lia.
      done.
Qed.


Lemma linked_reaches s0 row col pushed :
  head pushed = Some (row, col) →
  linked U (range_mat s0) pushed →
  (∀ p, p ∈ tail pushed → label_at U s0 p.1 p.2 = Some LABEL_INIT) →
  ∀ i n, pushed !! i = Some n → reaches U s0 (row, col) n.
Proof.
  intros Hhead Hlinked Hinit i.
  induction i as [i IH] using lt_wf_ind. intros n Hn.
  destruct i as [|i].
  - rewrite <- head_lookup, Hhead in Hn. injection Hn as <-. constructor.
  - destruct (Hlinked i n Hn) as (j & p & Hj & Hp & Hadm).
    apply (reaches_step U s0 _ p); [|done|].
    + apply (IH j); [lia|done].
    + apply Hinit. destruct pushed; [done|]. simpl in *.
      by eapply list_elem_of_lookup_2.
Qed.

(** X1. The cells that LabelComponents collects from its seed are exactly
    the cells reached from the seed by admitted moves (a step to one of the
    four neighbours, the column wrapping, that passes the angle test)
    through cells that were unlabelled: the segment is connected and
    nothing admissible is left out.  These cells, pairwise distinct, all
    carry the label counter's value or all carry INVALID afterwards, and no
    other cell changes. *)
Theorem segment_is_reachable_set (s0 : ImageProjection F) (row col : Z) :
  sized U s0 → in_image U row col → label_count s0 ≠ 0 →
  ∃ pushed s',
    LabelComponents U row col s0 = Ok s' ∧
    NoDup pushed ∧
    (∀ n, n ∈ pushed ↔ reaches U s0 (row, col) n) ∧
    ((∀ p, p ∈ pushed → label_at U s' p.1 p.2 = Some (label_count s0)) ∨
     (∀ p, p ∈ pushed → label_at U s' p.1 p.2 = Some LABEL_INVALID)) ∧
    (∀ r c, in_image U r c → (r, c) ∉ pushed →
       label_at U s' r c = label_at U s0 r c).
Proof.
  intros Hsz Hseed Hlc.
  destruct (grow_fill s0 row col (cells U))
    as (s & l & pushed & Hgrow & Hinv & Hq & Hlinked & Hclosed); try done.
  destruct (finish_spec U s0 row col pushed s l Hinv)
    as (s' & Hfin & _ & _ & _ & _ & _ & _ & _ & Hin & Hout).
  exists pushed, s'. destruct_inv Hinv. split_and!; try done.
  - unfold LabelComponents, LabelComponents_fuel. by rewrite Hgrow, bind_Ok.
  - intros n. split.
    + intros Hn. apply list_elem_of_lookup_1 in Hn as [i Hi].
      by apply (linked_reaches s0 row col pushed Iseed Hlinked Iwas_init i).
    + induction 1 as [|p n Hreach IH (d & Hd & Hnb & Hpass) Hinit].
      * destruct pushed; [done|]. simpl in Iseed. injection Iseed as ->. left.
      * apply list_elem_of_lookup_1 in IH as [j Hj].
        apply (Hclosed j p d); try done.
        apply lookup_lt_Some in Hj. lia.
  - destruct (feasible_segment U l); [by left | by right].
Qed.

End Fill.

(** ** GroundRemoval as a whole *)

Section GroundRemovalSpec.
Context {F : Type} {fops : FloatOps F} (U : Utility F).

Lemma cloud_points_app s cs cs' :
  cloud_points U s (cs ++ cs') = cloud_points U s cs ++ cloud_points U s cs'.
Proof. unfold cloud_points. apply omap_app. Qed.

(** The step for one pair of rows only assigns the ground matrix. *)
Lemma ground_pair_step s g i j :
  length g = cells U → in_image U i j → in_image U (i + 1) j →
  length (full_cloud s) = cells U →
  (∀ c, cell_in_image U c → ground_marked U s g c) →
  ∃ g', ground_pair U i j (set_ground_mat g s) = Ok (set_ground_mat g' s) ∧
    length g' = cells U ∧
    (∀ c, cell_in_image U c → ground_marked U s g' c) ∧
    (∀ c, cell_in_image U c → c.1 ≠ i → c.1 ≠ i + 1 →
       g' !! offset U c.1 c.2 = g !! offset U c.1 c.2).
Proof.
  intros Hlen Hlo Hup Hfull Hmarked.
  pose proof (offset_lt_cells U i j Hlo) as Hlt0.
  pose proof (offset_lt_cells U (i + 1) j Hup) as Hlt1.
  destruct (lookup_lt_is_Some_2 (full_cloud s) (offset U i j)) as [lower Hlower];
    [lia|].
  destruct (lookup_lt_is_Some_2 (full_cloud s) (offset U (i + 1) j))
    as [upper Hupper]; [lia|].
  assert (0 ≤ j + i * HORIZON_SCAN U) as Hi0 by (destruct Hlo; nia).
  assert (0 ≤ j + (i + 1) * HORIZON_SCAN U) as Hi1 by (destruct Hup; nia).
  assert (∀ (v : Z) (h : list Z) r c, in_image U r c → offset U r c ≠ offset U i j →
            <[offset U i j := v]> h !! offset U r c = h !! offset U r c) as Hne0.
  { intros v h r c _ Hne. by apply list_lookup_insert_ne. }
  assert (∀ c, cell_in_image U c → c.1 ≠ i → offset U c.1 c.2 ≠ offset U i j)
    as Hoff0.
  { intros [r c] Hc Hr Heq. simpl in *.
    by destruct (offset_inj U r c i j Hc Hlo Heq). }
  assert (∀ c, cell_in_image U c → c.1 ≠ i + 1 →
            offset U c.1 c.2 ≠ offset U (i + 1) j) as Hoff1.
  { intros [r c] Hc Hr Heq. simpl in *.
    by destruct (offset_inj U r c (i + 1) j Hc Hup Heq). }
  unfold ground_pair. cbn [full_cloud ground_mat set_ground_mat].
  rewrite (vec_get_ok (full_cloud s) _ lower Hi0 Hlower), bind_Ok.
  rewrite (vec_get_ok (full_cloud s) _ upper Hi1 Hupper).
  assert (∀ h, length h = cells U →
            (∀ c, cell_in_image U c → ground_marked U s h c) →
            ∀ c, cell_in_image U c →
              ground_marked U s (<[offset U i j := -1]> h) c) as Hminus.
  { intros h Hh Hm c Hc. unfold ground_marked.
    destruct (decide (offset U c.1 c.2 = offset U i j)) as [->|Hne].
    - right. left. apply list_lookup_insert_eq. lia.
    - rewrite list_lookup_insert_ne by done. by apply Hm. }
  destruct (IsNaN U lower) eqn:Hnl; simpl.
  { rewrite (mat_set_ok U g i j) by done. simpl.
    exists (<[offset U i j := -1]> g). split_and!; try done.
    - by rewrite length_insert.
    - by apply Hminus.
    - intros c Hc Hr _. apply list_lookup_insert_ne. intros Heq.
      by apply (Hoff0 c Hc Hr). }
  destruct (IsNaN U upper) eqn:Hnu; simpl.
  { rewrite (mat_set_ok U g i j) by done. simpl.
    exists (<[offset U i j := -1]> g). split_and!; try done.
    - by rewrite length_insert.
    - by apply Hminus.
    - intros c Hc Hr _. apply list_lookup_insert_ne. intros Heq.
      by apply (Hoff0 c Hc Hr). }
  destruct (within_10_degrees U (slope_angle lower upper)).
  - rewrite (mat_set_ok U g i j) by done. simpl.
    rewrite (mat_set_ok U _ (i + 1) j) by (done || by rewrite length_insert).
    simpl. exists (<[offset U (i + 1) j := 1]> (<[offset U i j := 1]> g)).
    split_and!; try done.
    + by rewrite !length_insert.
    + intros c Hc. unfold ground_marked.
      destruct (decide (offset U c.1 c.2 = offset U (i + 1) j)) as [->|Hne1].
      * right. right. split; [|by eauto].
        apply list_lookup_insert_eq. rewrite length_insert. lia.
      * rewrite list_lookup_insert_ne by done.
        destruct (decide (offset U c.1 c.2 = offset U i j)) as [->|Hne0'].
        -- right. right. split; [|by eauto]. apply list_lookup_insert_eq. lia.
        -- rewrite list_lookup_insert_ne by done. by apply Hmarked.
    + intros c Hc Hr Hr'. rewrite !list_lookup_insert_ne; [done| |].
      * intros Heq. by apply (Hoff0 c Hc Hr).
      * intros Heq. by apply (Hoff1 c Hc Hr').
  - exists g. by split_and!.
Qed.

(** The first loop nest. *)
Lemma ground_marks_loop s :
  sized U s → 0 ≤ groundScanInd U < N_SCAN U →
  ∃ g, for_rows_cols U (groundScanInd U) (ground_pair U) s
         = Ok (set_ground_mat g s) ∧
    length g = cells U ∧
    (∀ c, cell_in_image U c → ground_marked U s g c) ∧
    (∀ c, cell_in_image U c → groundScanInd U < c.1 →
       g !! offset U c.1 c.2 = ground_mat s !! offset U c.1 c.2).
Proof.
  intros Hs Hg.
  destruct (for_rows_cols_keeps U
    (λ t, ∃ g, t = set_ground_mat g s ∧ length g = cells U ∧
       (∀ c, cell_in_image U c → ground_marked U s g c) ∧
       (∀ c, cell_in_image U c → groundScanInd U < c.1 →
          g !! offset U c.1 c.2 = ground_mat s !! offset U c.1 c.2))
    (groundScanInd U) (ground_pair U) s) as (t & Hrun & g & -> & Hg');
    [| |by eauto].
  - exists (ground_mat s). split_and!.
    + by destruct s.
    + by destruct Hs.
    + intros c _. by left.
    + done.
  - intros i j t Hi Hj (g & -> & Hlen & Hmarked & Hbeyond).
    destruct (ground_pair_step s g i j) as (g' & Hrun & Hlen' & Hmarked' & Hother);
      try done; try (split; lia).
    { by destruct Hs. }
    exists (set_ground_mat g' s). split; [done|]. exists g'. split_and!; try done.
    intros c Hc Hlt. rewrite Hother by (done || lia). by apply Hbeyond.
Qed.

(** The second loop nest. *)
Lemma exclusion_loop s g :
  sized U s → length g = cells U →
  ∃ lm, for_rows_cols U (N_SCAN U) (exclude_cell U) (set_ground_mat g s)
          = Ok (set_label_mat lm (set_ground_mat g s)) ∧
    length lm = cells U ∧
    (∀ c, cell_in_image U c → lm !! offset U c.1 c.2 = excluded_label U s g c).
Proof.
  intros Hs Hlen. set (s1 := set_ground_mat g s).
  destruct (for_rows_cols_inv U
    (λ done t, ∃ lm, t = set_label_mat lm s1 ∧ length lm = cells U ∧
       (∀ c, cell_in_image U c →
          lm !! offset U c.1 c.2 = excluded_label U s g c ∨
          ((c ∉ done) ∧ lm !! offset U c.1 c.2 = label_mat s !! offset U c.1 c.2)))
    (N_SCAN U) (exclude_cell U) s1) as (t & Hrun & lm & -> & Hlm & Hall);
    [| |].
  - exists (label_mat s). split_and!.
    + by destruct s.
    + by destruct Hs.
    + intros c _. right. split; [apply not_elem_of_nil|done].
  - intros done i j t Hi Hj (lm & -> & Hlm & Hall).
    assert (in_image U i j) as Hin by done.
    pose proof (offset_lt_cells U i j Hin) as Hlt.
    destruct (lookup_lt_is_Some_2 g (offset U i j)) as [m Hm]; [lia|].
    destruct (lookup_lt_is_Some_2 (range_mat s) (offset U i j)) as [r Hr].
    { destruct Hs. lia. }
    assert (excluded_label U s g (i, j) =
            if bool_decide (m = 1) || Feqb r FLT_MAX then Some (-1)
            else label_mat s !! offset U i j) as Hrule.
    { unfold excluded_label. simpl. by rewrite Hm, Hr. }
    unfold exclude_cell. cbn [ground_mat range_mat label_mat set_label_mat s1
      set_ground_mat].
    rewrite (mat_at_ok U g i j m Hin Hm), bind_Ok.
    assert (∃ b, (if bool_decide (m = 1) then Ok true
                  else r ← mat_at U (range_mat s) i j; Ok (Feqb r FLT_MAX))
                 = Ok b ∧ b = bool_decide (m = 1) || Feqb r FLT_MAX)
      as (b & -> & Hb).
    { case_bool_decide; [by eauto|].
      rewrite (mat_at_ok U (range_mat s) i j r Hin Hr), bind_Ok. by eauto. }
    rewrite bind_Ok. rewrite <- Hb in Hrule. destruct b.
    + rewrite (mat_set_ok U lm i j) by done. simpl.
      exists (set_label_mat (<[offset U i j := -1]> lm) s1). split; [done|].
      exists (<[offset U i j := -1]> lm). split_and!; [done|by rewrite length_insert|].
      intros c Hc. destruct (decide (c = (i, j))) as [->|Hne].
      * left. simpl. rewrite Hrule. apply list_lookup_insert_eq. lia.
      * assert (offset U c.1 c.2 ≠ offset U i j) as Hoff.
        { intros Heq. destruct c as [r' c'].
          by destruct (offset_inj U r' c' i j Hc Hin Heq) as [-> ->]. }
        rewrite list_lookup_insert_ne by done.
        destruct (Hall c Hc) as [?|[Hnot ?]]; [by left|right]. split; [|done].
        rewrite elem_of_app, list_elem_of_singleton. tauto.
    + exists (set_label_mat lm s1). split; [done|]. exists lm.
      split_and!; try done.
      intros c Hc. destruct (decide (c = (i, j))) as [->|Hne].
      * left. destruct (Hall (i, j) Hc) as [?|[_ Heq]]; [done|].
        simpl in *. by rewrite Hrule.
      * destruct (Hall c Hc) as [?|[Hnot ?]]; [by left|right]. split; [|done].
        rewrite elem_of_app, list_elem_of_singleton. tauto.
  - exists lm. split_and!; try done.
    intros c Hc. destruct (Hall c Hc) as [?|[Hnot _]]; [done|].
    destruct Hnot. destruct c. by apply elem_of_row_major.
Qed.

(** The third loop nest. *)
Lemma ground_cloud_loop s rows :
  sized U s → 0 ≤ rows ≤ N_SCAN U →
  for_rows_cols U rows (collect_ground U) s
    = Ok (set_ground_cloud
            (ground_cloud s ++
             cloud_points U s
               (filter (λ c, ground_mat s !! offset U c.1 c.2 = Some 1)
                  (row_major U rows))) s).
Proof.
  intros Hs Hrows.
  destruct (for_rows_cols_inv U
    (λ done t, t = set_ground_cloud
            (ground_cloud s ++
             cloud_points U s
               (filter (λ c, ground_mat s !! offset U c.1 c.2 = Some 1) done)) s)
    rows (collect_ground U) s) as (t & Hrun & ->); [| |done].
  - simpl. rewrite app_nil_r. by destruct s.
  - intros done i j t Hi Hj ->.
    assert (in_image U i j) as Hin by (split; lia).
    pose proof (offset_lt_cells U i j Hin) as Hlt.
    destruct (lookup_lt_is_Some_2 (ground_mat s) (offset U i j)) as [m Hm].
    { destruct Hs. lia. }
    destruct (lookup_lt_is_Some_2 (full_cloud s) (offset U i j)) as [p Hp].
    { destruct Hs. lia. }
    unfold collect_ground. cbn [ground_mat full_cloud ground_cloud
      set_ground_cloud].
    rewrite (mat_at_ok U (ground_mat s) i j m Hin Hm), bind_Ok.
    rewrite filter_app, cloud_points_app, filter_cons, filter_nil. simpl.
    case_bool_decide as Hone.
    + rewrite (vec_get_ok (full_cloud s) _ p) by (done || destruct Hin; nia).
      rewrite bind_Ok. eexists. split; [done|].
      rewrite decide_True by (by rewrite Hm, Hone).
      unfold cloud_points at 3. simpl. fold (offset U i j). rewrite Hp. simpl.
      by rewrite app_assoc.
    + eexists. split; [done|].
      rewrite decide_False by (rewrite Hm; congruence).
      unfold cloud_points at 3. simpl. by rewrite app_nil_r.
Qed.

(** GroundRemoval assigns the ground matrix, the label matrix and the
    ground cloud, and nothing else. *)
Lemma GroundRemoval_spec s :
  sized U s → 0 ≤ groundScanInd U < N_SCAN U →
  ∃ g lm,
    GroundRemoval U s =
      Ok (set_ground_cloud
            (ground_cloud s ++
             cloud_points U s
               (filter (λ c, g !! offset U c.1 c.2 = Some 1)
                  (row_major U (groundScanInd U + 1))))
            (set_label_mat lm (set_ground_mat g s))) ∧
    length g = cells U ∧ length lm = cells U ∧
    (∀ c, cell_in_image U c → ground_marked U s g c) ∧
    (∀ c, cell_in_image U c → groundScanInd U < c.1 →
       g !! offset U c.1 c.2 = ground_mat s !! offset U c.1 c.2) ∧
    (∀ c, cell_in_image U c → lm !! offset U c.1 c.2 = excluded_label U s g c).
Proof.
  intros Hs Hg.
  destruct (ground_marks_loop s Hs Hg) as (g & Hrun1 & Hlen & Hmarked & Hbeyond).
  destruct (exclusion_loop s g Hs Hlen) as (lm & Hrun2 & Hlm & Hlabels).
  exists g, lm. split_and!; try done.
  unfold GroundRemoval. rewrite Hrun1, bind_Ok, Hrun2, bind_Ok.
  rewrite ground_cloud_loop; [done| |lia].
  destruct Hs. by split.
Qed.

(** X2. GroundRemoval runs to its end on every allocated state when
    groundScanInd is a row of the image: no access leaves a container. It
    assigns the ground matrix and the label matrix, which keep their sizes,
    extends the ground cloud, and assigns no other member. *)
Theorem ground_removal_assigns_three_members (s : ImageProjection F) :
  sized U s → 0 ≤ groundScanInd U < N_SCAN U →
  ∃ g lm gc,
    GroundRemoval U s =
      Ok (set_ground_cloud gc (set_label_mat lm (set_ground_mat g s))) ∧
    length g = cells U ∧ length lm = cells U ∧
    ground_cloud s `prefix_of` gc.
Proof.
  intros Hs Hg.
  destruct (GroundRemoval_spec s Hs Hg) as (g & lm & Hrun & Hlen & Hlm & _).
  eexists g, lm, _. split_and!; try done. by eexists.
Qed.

(** X3. After GroundRemoval a cell has label -1 exactly when it is marked
    ground or its range is FLT_MAX (no return); every other cell keeps the
    label it had. *)
Theorem ground_removal_excludes_cells (s : ImageProjection F) :
  sized U s → 0 ≤ groundScanInd U < N_SCAN U →
  ∃ s', GroundRemoval U s = Ok s' ∧ range_mat s' = range_mat s ∧
    ∀ r c, in_image U r c →
      ∃ m rg,
        ground_mat s' !! offset U r c = Some m ∧
        range_mat s !! offset U r c = Some rg ∧
        label_at U s' r c =
          if bool_decide (m = 1) || Feqb rg FLT_MAX then Some (-1)
          else label_at U s r c.
Proof.
  intros Hs Hg.
  destruct (GroundRemoval_spec s Hs Hg)
    as (g & lm & Hrun & Hlen & Hlm & _ & _ & Hlabels).
  eexists. split_and!; [done|done|].
  intros r c Hin. pose proof (offset_lt_cells U r c Hin) as Hlt.
  destruct (lookup_lt_is_Some_2 g (offset U r c)) as [m Hm]; [lia|].
  destruct (lookup_lt_is_Some_2 (range_mat s) (offset U r c)) as [rg Hr].
  { destruct Hs. lia. }
  exists m, rg. split_and!; try done.
  pose proof (Hlabels (r, c) Hin) as Hrule.
  unfold excluded_label in Hrule. simpl in Hrule. rewrite Hm, Hr in Hrule.
  unfold label_at. simpl. by rewrite Hrule.
Qed.

(** X4. GroundRemoval appends to the ground cloud the points of the cells
    marked ground in rows 0 .. groundScanInd, in row-major order, and leaves
    the dense cloud as it was. *)
Theorem ground_cloud_lists_marked_cells (s : ImageProjection F) :
  sized U s → 0 ≤ groundScanInd U < N_SCAN U →
  ∃ s', GroundRemoval U s = Ok s' ∧ full_cloud s' = full_cloud s ∧
    ground_cloud s' =
      ground_cloud s ++
      cloud_points U s'
        (filter (λ c, ground_of U s' c = 1) (row_major U (groundScanInd U + 1))).
Proof.
  intros Hs Hg.
  destruct (GroundRemoval_spec s Hs Hg) as (g & lm & Hrun & Hlen & _).
  eexists. split_and!; [done|done|]. simpl. f_equal.
  unfold cloud_points. simpl. f_equal.
  apply list_filter_iff. intros c. unfold ground_of. simpl.
  destruct (g !! offset U c.1 c.2) as [m|]; simpl; [|done].
  split; [by intros [= ->]|by intros ->].
Qed.

(** X5. GroundRemoval leaves the ground marks of the rows above
    groundScanInd as they were, and a cell that it marks ground holds a
    return: its point in the dense cloud is not NaN. *)
Theorem ground_marks_need_returns (s : ImageProjection F) :
  sized U s → 0 ≤ groundScanInd U < N_SCAN U →
  ∃ s', GroundRemoval U s = Ok s' ∧
    (∀ r c, in_image U r c → groundScanInd U < r →
       ground_mat s' !! offset U r c = ground_mat s !! offset U r c) ∧
    (∀ r c, in_image U r c →
       ground_mat s' !! offset U r c = Some 1 →
       ground_mat s !! offset U r c = Some 1 ∨
       ∃ p, full_cloud s !! offset U r c = Some p ∧ IsNaN U p = false).
Proof.
  intros Hs Hg.
  destruct (GroundRemoval_spec s Hs Hg)
    as (g & lm & Hrun & _ & _ & Hmarked & Hbeyond & _).
  eexists. split_and!; [done| |].
  - intros r c Hin Hlt. simpl. by apply (Hbeyond (r, c)).
  - intros r c Hin. simpl. intros Hone.
    destruct (Hmarked (r, c) Hin) as [Hsame|[Hminus|[_ Hp]]]; simpl in *.
    + left. by rewrite <- Hsame.
    + congruence.
    + by right.
Qed.

End GroundRemovalSpec.

(** ** ProjectPointCloud as a whole *)

Section ProjectionSpec.
Context {F : Type} {fops : FloatOps F} (U : Utility F).

Lemma seqZ_prefix (n a : Z) (done rest : list Z) :
  seqZ 0 n = done ++ a :: rest →
  a = Z.of_nat (length done) ∧ ∀ i, i ∈ done → 0 ≤ i < a.
Proof.
  intros Hsplit.
  assert (∀ k x, (done ++ a :: rest) !! k = Some x → x = Z.of_nat k) as Hlook.
  { intros k x. rewrite <- Hsplit. intros Hx.
    apply lookup_seqZ in Hx. lia. }
  assert (a = Z.of_nat (length done)) as Ha.
  { apply Hlook. by rewrite list_lookup_middle. }
  split; [done|]. intros i Hi.
  apply list_elem_of_lookup in Hi as [k Hk].
  pose proof (lookup_lt_Some _ _ _ Hk) as Hlt.
  rewrite (Hlook k i); [lia|]. by rewrite lookup_app_l.
Qed.

Lemma project_cell_range i p s c rg :
  project_cell U i p s = Ok (Some (c, rg)) → rg = point_range p.
Proof.
  unfold project_cell. intros Hrun.
  apply bind_inv in Hrun as (row & Hrow & Hrun).
  repeat case_bool_decide; try done; destruct (Fltb _ _); try done;
    by injection Hrun as <- <-.
Qed.

Lemma project_cell_total i p s :
  (FLAGS_use_cloud_ring U = true →
   0 ≤ i < Z.of_nat (length (laser_cloud_in_ring s))) →
  ∃ o, project_cell U i p s = Ok o.
Proof.
  intros Hring. unfold project_cell.
  destruct (FLAGS_use_cloud_ring U).
  - destruct (vec_get_total (laser_cloud_in_ring s) i) as [q ->]; [by apply Hring|].
    rewrite !bind_Ok.
    repeat case_bool_decide; try destruct (Fltb _ _); by eauto.
  - rewrite bind_Ok.
    repeat case_bool_decide; try destruct (Fltb _ _); by eauto.
Qed.

(** What the loop body writes for a point that has a cell. *)
Lemma project_point_writes i s p r c :
  sized U s → vec_get (laser_cloud_in s) i = Ok p →
  project_cell U i p s = Ok (Some (r, c, point_range p)) →
  project_point U i s =
    Ok (set_full_info_cloud
          (<[offset U r c := set_intensity (point_range p) p]> (full_info_cloud s))
          (set_full_cloud
             (<[offset U r c := set_intensity (cell_code r c) p]> (full_cloud s))
             (set_range_mat (<[offset U r c := point_range p]> (range_mat s)) s))).
Proof.
  intros Hsz Hp Hcell.
  destruct (project_cell_in_image U _ _ _ _ _ _ Hcell) as [Hrc Hidx].
  pose proof (offset_lt_cells U r c Hrc) as Hlt.
  destruct Hsz as [Hrange Hground Hlabel Hfull Hinfo Hqx Hqy Hax Hay].
  assert (Z.of_nat (cells U) = N_SCAN U * HORIZON_SCAN U) as Hcells.
  { unfold cells. destruct Hrc. nia. }
  unfold project_point. rewrite Hp, bind_Ok, Hcell, bind_Ok.
  rewrite (mat_set_ok U (range_mat s) r c) by done. rewrite bind_Ok.
  rewrite (vec_set_ok (full_cloud s)) by lia. rewrite bind_Ok.
  rewrite (vec_set_ok (full_info_cloud s)) by lia. rewrite bind_Ok.
  rewrite vec_set_ok by (rewrite length_insert; lia). rewrite bind_Ok.
  rewrite list_insert_insert_eq. reflexivity.
Qed.

(** One iteration of the loop of ProjectPointCloud. *)
Lemma project_point_step s done a rm fc fic :
  sized U s →
  (FLAGS_use_cloud_ring U = true →
   (length (laser_cloud_in s) ≤ length (laser_cloud_in_ring s))%nat) →
  0 ≤ a < Z.of_nat (length (laser_cloud_in s)) →
  (∀ i, i ∈ done → i < a) →
  length rm = cells U → length fc = cells U → length fic = cells U →
  (∀ c, cell_in_image U c → projected_cell U s done rm fc fic c) →
  ∃ rm' fc' fic',
    project_point U a
      (set_full_info_cloud fic (set_full_cloud fc (set_range_mat rm s))) =
    Ok (set_full_info_cloud fic' (set_full_cloud fc' (set_range_mat rm' s))) ∧
    length rm' = cells U ∧ length fc' = cells U ∧ length fic' = cells U ∧
    (∀ c, cell_in_image U c →
       projected_cell U s (done ++ [a]) rm' fc' fic' c).
Proof.
  intros Hs Hring Ha Hbelow Hrm Hfc Hfic Hcells.
  set (t := set_full_info_cloud fic (set_full_cloud fc (set_range_mat rm s))).
  assert (sized U t) as Ht by (destruct Hs; by split).
  destruct (lookup_lt_is_Some_2 (laser_cloud_in s) (Z.to_nat a)) as [p Hp];
    [lia|].
  assert (vec_get (laser_cloud_in t) a = Ok p) as Hget
    by (apply vec_get_ok; [lia|done]).
  destruct (project_cell_total a p s) as [o Ho]; [intros Hr; specialize (Hring Hr); lia|].
  assert (project_cell U a p t = Ok o) as Ho' by done.
  (* a point that lands elsewhere, or nowhere, leaves the cell as it is *)
  assert (∀ c, (∀ c', o = Some (c', point_range p) → c' ≠ c) → ¬ lands U s a c)
    as Hnot.
  { intros c Hc (p' & Hland).
    assert (lands_as U s a p' c) as Hland' by done.
    destruct Hland as (_ & Hp' & Hcell). assert (p' = p) as -> by congruence.
    rewrite Ho in Hcell. injection Hcell as ->. by apply (Hc c). }
  assert (∀ c rm' fc' fic',
    (∀ c', o = Some (c', point_range p) → c' ≠ c) →
    rm' !! offset U c.1 c.2 = rm !! offset U c.1 c.2 →
    fc' !! offset U c.1 c.2 = fc !! offset U c.1 c.2 →
    fic' !! offset U c.1 c.2 = fic !! offset U c.1 c.2 →
    projected_cell U s done rm fc fic c →
    projected_cell U s (done ++ [a]) rm' fc' fic' c) as Hkeep.
  { intros c rm' fc' fic' Hc Erm Efc Efic
      [(Hnone & ? & ? & ?)|(i & q & Hi & Hq & Hlast & ? & ? & ?)].
    - left. rewrite Erm, Efc, Efic. split_and!; try done.
      intros i [Hi| ->%list_elem_of_singleton]%elem_of_app; [by apply Hnone|].
      by apply Hnot.
    - right. exists i, q. rewrite Erm, Efc, Efic. split_and!; try done.
      + apply elem_of_app. by left.
      + intros i' [Hi'| ->%list_elem_of_singleton]%elem_of_app Hlt;
          [by apply Hlast|]. by apply Hnot. }
  destruct o as [[[r c] rg]|].
  - pose proof (project_cell_range _ _ _ _ _ Ho) as ->.
    destruct (project_cell_in_image U _ _ _ _ _ _ Ho) as [Hrc _].
    pose proof (offset_lt_cells U r c Hrc) as Hlt.
    rewrite (project_point_writes a t p r c Ht Hget Ho').
    exists (<[offset U r c := point_range p]> rm),
      (<[offset U r c := set_intensity (cell_code r c) p]> fc),
      (<[offset U r c := set_intensity (point_range p) p]> fic).
    split; [reflexivity|].
    rewrite !length_insert. split_and!; try done.
    intros c' Hc'. destruct (decide (c' = (r, c))) as [->|Hne].
    + right. exists a, p. simpl. split_and!.
      * apply elem_of_app. right. by apply list_elem_of_singleton.
      * split_and!; [lia|done|done].
      * intros i' [Hi'| ->%list_elem_of_singleton]%elem_of_app Hlt'; [|lia].
        specialize (Hbelow i' Hi'). lia.
      * apply list_lookup_insert_eq. lia.
      * apply list_lookup_insert_eq. lia.
      * apply list_lookup_insert_eq. lia.
    + assert (offset U c'.1 c'.2 ≠ offset U r c) as Hoff.
      { intros Heq. destruct c' as [r' c'].
        by destruct (offset_inj U r' c' r c Hc' Hrc Heq) as [-> ->]. }
      apply Hkeep; [|by apply list_lookup_insert_ne..|by apply Hcells].
      intros c'' [= <-]. done.
  - exists rm, fc, fic. split_and!; try done.
    + unfold project_point. by rewrite Hget, bind_Ok, Ho', bind_Ok.
    + intros c Hc. apply Hkeep; try done. by apply Hcells.
Qed.

(** The whole loop of ProjectPointCloud. *)
Lemma ProjectPointCloud_spec (s : ImageProjection F) :
  sized U s →
  (FLAGS_use_cloud_ring U = true →
   (length (laser_cloud_in s) ≤ length (laser_cloud_in_ring s))%nat) →
  ∃ rm fc fic,
    ProjectPointCloud U s =
      Ok (set_full_info_cloud fic (set_full_cloud fc (set_range_mat rm s))) ∧
    length rm = cells U ∧ length fc = cells U ∧ length fic = cells U ∧
    ∀ c, cell_in_image U c →
      projected_cell U s (seqZ 0 (Z.of_nat (length (laser_cloud_in s))))
        rm fc fic c.
Proof.
  intros Hs Hring. unfold ProjectPointCloud.
  set (n := Z.of_nat (length (laser_cloud_in s))).
  destruct (for_each_prefix_inv
    (λ done t, ∃ rm fc fic,
       t = set_full_info_cloud fic (set_full_cloud fc (set_range_mat rm s)) ∧
       length rm = cells U ∧ length fc = cells U ∧ length fic = cells U ∧
       ∀ c, cell_in_image U c → projected_cell U s done rm fc fic c)
    (seqZ 0 n) (project_point U) s)
    as (t & Hrun & rm & fc & fic & -> & Hrm & Hfc & Hfic & Hcells).
  - exists (range_mat s), (full_cloud s), (full_info_cloud s).
    destruct Hs. split_and!; try done; [by destruct s|].
    intros c _. left. split_and!; try done. intros i Hi.
    by apply not_elem_of_nil in Hi.
  - intros done a rest t Hsplit (rm & fc & fic & -> & Hrm & Hfc & Hfic & Hcells).
    destruct (seqZ_prefix n a done rest Hsplit) as [Ha Hbelow].
    assert (a ∈ seqZ 0 n) as Hin
      by (rewrite Hsplit, elem_of_app; right; left).
    apply elem_of_seqZ in Hin.
    destruct (project_point_step s done a rm fc fic)
      as (rm' & fc' & fic' & Hrun' & ? & ? & ? & ?); try done.
    { intros i Hi. apply Hbelow in Hi. lia. }
    eexists. split; [done|]. by exists rm', fc', fic'.
  - by exists rm, fc, fic.
Qed.

(** X6. ProjectPointCloud runs to its end on every allocated state (in ring
    mode, when the ring cloud has a point for every point of the cloud),
    and assigns the range image, the dense cloud and the dense info cloud
    only. A cell on which no point of the cloud lands keeps what it held;
    any other cell holds the data of the last point of the cloud that
    lands on it: its range in the range image, the point with the
    intensity row + column / 10000 in the dense cloud, and the point with
    its range as intensity in the dense info cloud. *)
Theorem projection_keeps_last_return (s : ImageProjection F) :
  sized U s →
  (FLAGS_use_cloud_ring U = true →
   (length (laser_cloud_in s) ≤ length (laser_cloud_in_ring s))%nat) →
  ∃ rm fc fic,
    ProjectPointCloud U s =
      Ok (set_full_info_cloud fic (set_full_cloud fc (set_range_mat rm s))) ∧
    length rm = cells U ∧ length fc = cells U ∧ length fic = cells U ∧
    ∀ r c, in_image U r c →
      ((∀ i, ¬ lands U s i (r, c)) ∧
       rm !! offset U r c = range_mat s !! offset U r c ∧
       fc !! offset U r c = full_cloud s !! offset U r c ∧
       fic !! offset U r c = full_info_cloud s !! offset U r c) ∨
      (∃ i p, lands_as U s i p (r, c) ∧
         (∀ i', i < i' → ¬ lands U s i' (r, c)) ∧
         rm !! offset U r c = Some (point_range p) ∧
         fc !! offset U r c = Some (set_intensity (cell_code r c) p) ∧
         fic !! offset U r c = Some (set_intensity (point_range p) p)).
Proof.
  intros Hs Hring.
  destruct (ProjectPointCloud_spec s Hs Hring)
    as (rm & fc & fic & Hrun & Hrm & Hfc & Hfic & Hcells).
  set (n := Z.of_nat (length (laser_cloud_in s))) in *.
  exists rm, fc, fic. split_and!; try done.
  assert (∀ i c, lands U s i c → i ∈ seqZ 0 n) as Hdom.
  { intros i c (p & Hi & Hp & _). apply lookup_lt_Some in Hp.
    apply elem_of_seqZ. unfold n. lia. }
  intros r c Hin.
  destruct (Hcells (r, c) Hin)
    as [(Hnone & ? & ? & ?)|(i & p & Hi & Hp & Hlast & ? & ? & ?)].
  - left. split_and!; try done. intros i Hland.
    apply (Hnone i); [by eapply Hdom|done].
  - right. exists i, p. split_and!; try done. intros i' Hlt Hland.
    apply (Hlast i'); [by eapply Hdom|done|done].
Qed.

Lemma project_cell_minimum i p s c rg :
  project_cell U i p s = Ok (Some (c, rg)) →
  Fltb rg (FLAGS_sensor_minimum_range U) = false.
Proof.
  unfold project_cell. intros Hrun.
  apply bind_inv in Hrun as (row & Hrow & Hrun).
  repeat case_bool_decide; try done;
    destruct (Fltb _ _) eqn:Hmin; try done; by injection Hrun as <- <-.
Qed.

(** X17. No return closer than FLAGS_sensor_minimum_range enters the range
    image: after ProjectPointCloud every cell holds the range it held
    before or a range that is not below the minimum. *)
Theorem projected_ranges_reach_minimum (s : ImageProjection F) :
  sized U s →
  (FLAGS_use_cloud_ring U = true →
   (length (laser_cloud_in s) ≤ length (laser_cloud_in_ring s))%nat) →
  ∃ s', ProjectPointCloud U s = Ok s' ∧
    ∀ r c, in_image U r c →
      range_mat s' !! offset U r c = range_mat s !! offset U r c ∨
      ∃ rg, range_mat s' !! offset U r c = Some rg ∧
            Fltb rg (FLAGS_sensor_minimum_range U) = false.
Proof.
  intros Hs Hring.
  destruct (ProjectPointCloud_spec s Hs Hring)
    as (rm & fc & fic & Hrun & _ & _ & _ & Hcells).
  eexists. split; [exact Hrun|]. intros r c Hin. simpl.
  destruct (Hcells (r, c) Hin)
    as [(_ & Hrm & _)|(i & p & _ & (_ & _ & Hcell) & _ & Hrm & _)].
  - by left.
  - right. exists (point_range p). split; [done|].
    by apply (project_cell_minimum i p s (r, c)).
Qed.

End ProjectionSpec.

(** ** The output assembly of CloudSegmentation as a whole *)

Section Assembly.
Context {F : Type} {fops : FloatOps F} (U : Utility F).

Lemma filter_snoc {A} (P : A → Prop) `{!∀ x, Decision (P x)} (l : list A) x :
  filter P (l ++ [x]) = filter P l ++ (if decide (P x) then [x] else []).
Proof. rewrite filter_app, filter_cons, filter_nil. by destruct (decide _). Qed.

Lemma for_each_app {S A} (xs ys : list A) (body : A → S → res S) s :
  for_each (xs ++ ys) body s = s' ← for_each xs body s; for_each ys body s'.
Proof.
  revert s. induction xs as [|a xs IH]; intros s; simpl; [done|].
  destruct (body a s); simpl; [apply IH|done].
Qed.

Lemma for_each_singleton {S A} (a : A) (body : A → S → res S) s :
  for_each [a] body s = body a s.
Proof. simpl. by destruct (body a s). Qed.

Lemma row_major_S (k : nat) :
  row_major U (Z.of_nat (S k)) =
  row_major U (Z.of_nat k) ++ row_cells U (Z.of_nat k).
Proof.
  unfold row_major. rewrite seqZ_S, fmap_app, join_app. simpl.
  by rewrite app_nil_r.
Qed.

Lemma row_major_to_nat rows :
  row_major U rows = row_major U (Z.of_nat (Z.to_nat rows)).
Proof. unfold row_major, seqZ. by rewrite Nat2Z.id. Qed.

(** The body of the second loop nest, by the fate of the cell. *)
Lemma assemble_cell_spec s t i j size :
  sized U s → same_grids s t → in_image U i j →
  ∃ p r, full_cloud s !! offset U i j = Some p ∧
    range_mat s !! offset U i j = Some r ∧
    assemble_cell U i j (t, size) =
      Ok (if decide (in_segmented U s (i, j)) then
            (set_segmented_cloud (segmented_cloud t ++ [p])
               (set_seg_msg
                  (set_segmentedCloudRange
                     (<[size := r]> (segmentedCloudRange (seg_msg t)))
                     (set_segmentedCloudColInd
                        (<[size := j]> (segmentedCloudColInd (seg_msg t)))
                        (set_segmentedCloudGroundFlag
                           (<[size := bool_decide (ground_of U s (i, j) = 1)]>
                              (segmentedCloudGroundFlag (seg_msg t)))
                           (seg_msg t)))) t),
             size + 1)
          else if decide (is_outlier U s (i, j)) then
            (set_outlier_cloud (outlier_cloud t ++ [p]) t, size)
          else (t, size)).
Proof.
  intros Hs (Hlabel & Hground & Hrange & Hfull & _) Hin.
  pose proof (offset_lt_cells U i j Hin) as Hlt.
  destruct Hs as [Hlr Hlg Hll Hlf _ _ _ _ _].
  destruct (lookup_lt_is_Some_2 (label_mat s) (offset U i j)) as [lbl Hlbl]; [lia|].
  destruct (lookup_lt_is_Some_2 (ground_mat s) (offset U i j)) as [g Hg]; [lia|].
  destruct (lookup_lt_is_Some_2 (range_mat s) (offset U i j)) as [r Hr]; [lia|].
  destruct (lookup_lt_is_Some_2 (full_cloud s) (offset U i j)) as [p Hp]; [lia|].
  exists p, r. split_and!; [done|done|].
  assert (label_of U s (i, j) = lbl) as Elbl
    by (unfold label_of; simpl; by rewrite Hlbl).
  assert (ground_of U s (i, j) = g) as Eg
    by (unfold ground_of; simpl; by rewrite Hg).
  assert (vec_get (full_cloud t) (j + i * HORIZON_SCAN U) = Ok p) as Hget.
  { rewrite Hfull. apply vec_get_ok; [destruct Hin; nia|done]. }
  unfold assemble_cell.
  rewrite (mat_at_ok U (label_mat t) i j lbl Hin) by (by rewrite Hlabel).
  rewrite bind_Ok.
  rewrite (mat_at_ok U (ground_mat t) i j g Hin) by (by rewrite Hground).
  rewrite bind_Ok.
  rewrite (mat_at_ok U (range_mat t) i j r Hin) by (by rewrite Hrange).
  rewrite Hget, !bind_Ok. subst lbl g.
  repeat case_bool_decide; simpl;
    try (exfalso; unfold LABEL_INVALID in *; lia);
    repeat (first
      [rewrite decide_True
         by (unfold in_segmented, is_outlier, LABEL_INVALID in *; simpl;
             intuition lia)
      |rewrite decide_False
         by (unfold in_segmented, is_outlier, LABEL_INVALID in *; simpl;
             intuition lia)]);
    reflexivity.
Qed.

Lemma cloud_points_singleton s c p :
  full_cloud s !! offset U c.1 c.2 = Some p → cloud_points U s [c] = [p].
Proof. intros Hp. unfold cloud_points. simpl. by rewrite Hp. Qed.

Lemma tables_snoc s kept c r G C R :
  tables U s kept G C R → range_mat s !! offset U c.1 c.2 = Some r →
  tables U s (kept ++ [c])
    (<[Z.of_nat (length kept) := bool_decide (ground_of U s c = 1)]> G)
    (<[Z.of_nat (length kept) := c.2]> C)
    (<[Z.of_nat (length kept) := r]> R).
Proof.
  intros [Hkept Hstale] Hr. split.
  - intros k c' Hk. apply lookup_snoc_Some in Hk as [[Hlt Hk]|[-> <-]].
    + rewrite !lookup_insert_ne by lia. by apply Hkept.
    + by rewrite !lookup_insert_eq, Hr.
  - intros k Hk. rewrite length_app in Hk. simpl in Hk.
    rewrite !lookup_insert_ne by lia. apply Hstale. lia.
Qed.

(** One cell of the second loop nest. *)
Lemma assemble_cell_step s done sr er G C R i j :
  sized U s → in_image U i j →
  tables U s (filter (in_segmented U s) done) G C R →
  ∃ G' C' R',
    assemble_cell U i j
      (assembly_state U s done (assembly_msg (seg_msg s) sr er G C R),
       Z.of_nat (length (filter (in_segmented U s) done))) =
    Ok (assembly_state U s (done ++ [(i, j)])
          (assembly_msg (seg_msg s) sr er G' C' R'),
        Z.of_nat (length (filter (in_segmented U s) (done ++ [(i, j)])))) ∧
    tables U s (filter (in_segmented U s) (done ++ [(i, j)])) G' C' R'.
Proof.
  intros Hs Hin Htab.
  set (t := assembly_state U s done (assembly_msg (seg_msg s) sr er G C R)).
  destruct (assemble_cell_spec s t i j
              (Z.of_nat (length (filter (in_segmented U s) done))) Hs)
    as (p & r & Hp & Hr & ->); [by repeat split|done|].
  unfold assembly_state.
  rewrite !(filter_snoc _ done), !cloud_points_app.
  destruct (decide (in_segmented U s (i, j))) as [Hseg|Hseg].
  - rewrite (decide_False (P := is_outlier U s (i, j)))
      by (intros [? _]; by destruct Hseg as (_ & ? & _)).
    rewrite (cloud_points_singleton s (i, j) p Hp).
    eexists _, _, _. split; [|by apply (tables_snoc s _ (i, j) r)].
    rewrite length_app, app_nil_r, app_assoc. simpl.
    replace (Z.of_nat (length (filter (in_segmented U s) done) + 1))
      with (Z.of_nat (length (filter (in_segmented U s) done)) + 1) by lia.
    reflexivity.
  - exists G, C, R. rewrite !app_nil_r. split; [|done].
    destruct (decide (is_outlier U s (i, j))).
    + rewrite (cloud_points_singleton s (i, j) p Hp), app_assoc. reflexivity.
    + unfold cloud_points at 3. simpl. rewrite app_nil_r. reflexivity.
Qed.

(** One row of the second loop nest. *)
Lemma assemble_row_step s (k : nat) sr er G C R :
  sized U s → Z.of_nat k < N_SCAN U →
  tables U s (filter (in_segmented U s) (row_major U (Z.of_nat k))) G C R →
  ∃ G' C' R',
    assemble_row U (Z.of_nat k)
      (assembly_state U s (row_major U (Z.of_nat k))
         (assembly_msg (seg_msg s) sr er G C R),
       segmented_before U s (Z.of_nat k)) =
    Ok (assembly_state U s (row_major U (Z.of_nat (S k)))
          (assembly_msg (seg_msg s)
             (<[Z.of_nat k := segmented_before U s (Z.of_nat k) - 1 + 5]> sr)
             (<[Z.of_nat k := segmented_before U s (Z.of_nat (S k)) - 1 - 5]> er)
             G' C' R'),
        segmented_before U s (Z.of_nat (S k))) ∧
    tables U s (filter (in_segmented U s) (row_major U (Z.of_nat (S k))))
      G' C' R'.
Proof.
  intros Hs Hk Htab. set (i := Z.of_nat k).
  set (sr' := <[i := segmented_before U s i - 1 + 5]> sr).
  destruct (for_each_prefix_inv
    (λ cols (st : ImageProjection F * Z), ∃ G' C' R',
       st = (assembly_state U s (row_major U i ++ ((λ j, (i, j)) <$> cols))
               (assembly_msg (seg_msg s) sr' er G' C' R'),
             Z.of_nat (length (filter (in_segmented U s)
                                 (row_major U i ++ ((λ j, (i, j)) <$> cols))))) ∧
       tables U s (filter (in_segmented U s)
                     (row_major U i ++ ((λ j, (i, j)) <$> cols))) G' C' R')
    (seqZ 0 (HORIZON_SCAN U)) (assemble_cell U i)
    (assembly_state U s (row_major U i) (assembly_msg (seg_msg s) sr' er G C R),
     segmented_before U s i))
    as (st & Hrun & G' & C' & R' & -> & Htab').
  - exists G, C, R. simpl. by rewrite app_nil_r.
  - intros cols j rest st Hsplit (G' & C' & R' & -> & Htab').
    assert (j ∈ seqZ 0 (HORIZON_SCAN U)) as Hj
      by (rewrite Hsplit, elem_of_app; right; left).
    apply elem_of_seqZ in Hj.
    destruct (assemble_cell_step s (row_major U i ++ ((λ j, (i, j)) <$> cols))
                sr' er G' C' R' i j) as (G2 & C2 & R2 & Hrun & Htab2);
      [done|split; lia|done|].
    eexists. split; [exact Hrun|]. exists G2, C2, R2.
    rewrite fmap_app. simpl. rewrite app_assoc. by split.
  - exists G', C', R'. rewrite row_major_S. fold i. split; [|done].
    replace (segmented_before U s (Z.of_nat (S k)))
      with (Z.of_nat (length (filter (in_segmented U s)
                                (row_major U i ++ row_cells U i))))
      by (unfold segmented_before; by rewrite row_major_S).
    transitivity
      ('(t, size) ← for_each (seqZ 0 (HORIZON_SCAN U)) (assemble_cell U i)
          (assembly_state U s (row_major U i)
             (assembly_msg (seg_msg s) sr' er G C R), segmented_before U s i);
       Ok (set_seg_msg
             (set_endRingIndex (<[i := size - 1 - 5]> (endRingIndex (seg_msg t)))
                (seg_msg t)) t, size)); [reflexivity|].
    rewrite Hrun. reflexivity.
Qed.

Lemma assembly_state_start (s : ImageProjection F) :
  s = assembly_state U s []
        (assembly_msg (seg_msg s) (startRingIndex (seg_msg s))
           (endRingIndex (seg_msg s)) (segmentedCloudGroundFlag (seg_msg s))
           (segmentedCloudColInd (seg_msg s)) (segmentedCloudRange (seg_msg s))).
Proof.
  unfold assembly_state, assembly_msg, cloud_points.
  rewrite !filter_nil. simpl. rewrite !app_nil_r.
  destruct s as [? ? ? ? ? ? ? ? ? ? ? ? ? ? ? ? ? m ? ?]. by destruct m.
Qed.

(** The second loop nest, up to row [k]. *)
Lemma assembly_rows s (k : nat) :
  sized U s → Z.of_nat k ≤ Z.max 0 (N_SCAN U) →
  ∃ sr er G C R,
    for_each (seqZ 0 (Z.of_nat k)) (assemble_row U) (s, 0) =
      Ok (assembly_state U s (row_major U (Z.of_nat k))
            (assembly_msg (seg_msg s) sr er G C R),
          segmented_before U s (Z.of_nat k)) ∧
    tables U s (filter (in_segmented U s) (row_major U (Z.of_nat k))) G C R ∧
    ring_table U s (Z.of_nat k) sr er.
Proof.
  intros Hs. induction k as [|k IH]; intros Hk.
  - eexists _, _, _, _, _. split_and!.
    + simpl. f_equal. f_equal. apply assembly_state_start.
    + split; [by intros k c Hk'|done].
    + split; [intros i Hi; lia|done].
  - destruct IH as (sr & er & G & C & R & Hrun & Htab & [Hring Hstale]); [lia|].
    destruct (assemble_row_step s k sr er G C R)
      as (G' & C' & R' & Hrow & Htab'); [done|lia|done|].
    eexists _, _, G', C', R'. split_and!; [|done|].
    + rewrite seqZ_S, for_each_app, Hrun, bind_Ok, Z.add_0_l.
      rewrite for_each_singleton. exact Hrow.
    + split.
      * intros i Hi. destruct (decide (i = Z.of_nat k)) as [->|Hne].
        -- rewrite !lookup_insert_eq.
           by replace (Z.of_nat k + 1) with (Z.of_nat (S k)) by lia.
        -- rewrite !lookup_insert_ne by done. apply Hring. lia.
      * intros i Hi. rewrite !lookup_insert_ne by lia. apply Hstale. lia.
Qed.

(** The third loop nest. *)
Lemma pure_loop s t :
  sized U s → same_grids s t →
  for_rows_cols U (N_SCAN U) (collect_pure U) t =
    Ok (set_segmented_cloud_pure
          (segmented_cloud_pure t ++
           pure_points U s (filter (in_pure U s) (row_major U (N_SCAN U)))) t).
Proof.
  intros Hs (Hlabel & Hground & Hrange & Hfull & _).
  destruct (for_rows_cols_inv U
    (λ done u, u = set_segmented_cloud_pure
          (segmented_cloud_pure t ++
           pure_points U s (filter (in_pure U s) done)) t)
    (N_SCAN U) (collect_pure U) t) as (u & Hrun & ->); [| |done].
  - unfold pure_points. rewrite filter_nil. simpl. rewrite app_nil_r.
    by destruct t.
  - intros done i j u Hi Hj ->.
    assert (in_image U i j) as Hin by done.
    pose proof (offset_lt_cells U i j Hin) as Hlt.
    destruct Hs as [_ _ Hll Hlf _ _ _ _ _].
    destruct (lookup_lt_is_Some_2 (label_mat s) (offset U i j)) as [lbl Hlbl];
      [lia|].
    destruct (lookup_lt_is_Some_2 (full_cloud s) (offset U i j)) as [p Hp]; [lia|].
    assert (label_of U s (i, j) = lbl) as Elbl
      by (unfold label_of; simpl; by rewrite Hlbl).
    unfold collect_pure. cbn [label_mat full_cloud segmented_cloud_pure
      set_segmented_cloud_pure].
    rewrite (mat_at_ok U (label_mat t) i j lbl Hin) by (by rewrite Hlabel).
    rewrite bind_Ok, Hfull.
    rewrite (vec_get_ok (full_cloud s) _ p) by (done || destruct Hin; nia).
    rewrite bind_Ok, filter_snoc. unfold pure_points. rewrite omap_app.
    subst lbl.
    repeat case_bool_decide; simpl; (eexists; split; [reflexivity|]).
    + rewrite decide_True by done. simpl. fold (offset U i j). rewrite Hp. simpl.
      by rewrite app_assoc.
    + rewrite decide_False by (by intros [_ ?]). simpl. by rewrite app_nil_r.
    + rewrite decide_False by (by intros [? _]). simpl. by rewrite app_nil_r.
    + rewrite decide_False by (by intros [? _]). simpl. by rewrite app_nil_r.
Qed.

(** CloudSegmentation: the labelling, then the clouds and the metadata
    tables read off the labelled image. *)
Lemma CloudSegmentation_spec s :
  sized U s → 0 < label_count s →
  ∃ s1 sr er G C R,
    scan_inv U s (row_major U (N_SCAN U)) s1 ∧
    CloudSegmentation U s =
      Ok (set_segmented_cloud_pure
            (segmented_cloud_pure s1 ++
             pure_points U s1 (filter (in_pure U s1) (row_major U (N_SCAN U))))
            (assembly_state U s1 (row_major U (N_SCAN U))
               (assembly_msg (seg_msg s1) sr er G C R))) ∧
    tables U s1 (filter (in_segmented U s1) (row_major U (N_SCAN U))) G C R ∧
    ring_table U s1 (N_SCAN U) sr er.
Proof.
  intros Hs Hlc.
  destruct (label_scan U s Hs Hlc) as (s1 & Hscan & Hinv).
  assert (sized U s1) as Hs1 by (by destruct Hinv).
  destruct (assembly_rows s1 (Z.to_nat (N_SCAN U)) Hs1)
    as (sr & er & G & C & R & Hrows & Htab & [Hring Hstale]); [lia|].
  rewrite <- row_major_to_nat in Hrows, Htab.
  replace (seqZ 0 (Z.of_nat (Z.to_nat (N_SCAN U)))) with (seqZ 0 (N_SCAN U))
    in Hrows by (unfold seqZ; by rewrite Nat2Z.id).
  exists s1, sr, er, G, C, R. split_and!; try done.
  - unfold CloudSegmentation. rewrite Hscan, bind_Ok, Hrows, bind_Ok.
    cbn [fst]. rewrite (pure_loop s1); [reflexivity|done|].
    by repeat split.
  - split.
    + intros i Hi. apply Hring. lia.
    + intros i Hi. apply Hstale. lia.
Qed.


(** X8. After CloudSegmentation the metadata gives, for every row i of the
    image, startRingIndex[i] = n + 4 and endRingIndex[i] = n' - 6, where n
    is the number of cells of the rows below i that went to the segmented
    cloud and n' that number with row i included. *)
Theorem ring_index_table (s : ImageProjection F) :
  sized U s → 0 < label_count s →
  ∃ s', CloudSegmentation U s = Ok s' ∧
    ∀ i, 0 ≤ i < N_SCAN U →
      startRingIndex (seg_msg s') !! i = Some (segmented_before U s' i + 4) ∧
      endRingIndex (seg_msg s') !! i = Some (segmented_before U s' (i + 1) - 6).
Proof.
  intros Hs Hlc.
  destruct (CloudSegmentation_spec s Hs Hlc)
    as (s1 & sr & er & G & C & R & _ & Hrun & _ & [Hring _]).
  eexists. split; [exact Hrun|]. intros i Hi.
  destruct (Hring i Hi) as [Hstart Hend]. split.
  - replace (segmented_before U _ i + 4) with (segmented_before U s1 i - 1 + 5);
      [exact Hstart|]. change (segmented_before U s1 i - 1 + 5 =
                               segmented_before U s1 i + 4). lia.
  - replace (segmented_before U _ (i + 1) - 6)
      with (segmented_before U s1 (i + 1) - 1 - 5); [exact Hend|].
    change (segmented_before U s1 (i + 1) - 1 - 5 =
            segmented_before U s1 (i + 1) - 6). lia.
Qed.

(** X9. CloudSegmentation appends to the outlier cloud the points of the
    cells labelled INVALID in a row above groundScanInd and a column that
    is a multiple of 5, in row-major order, and nothing else. *)
Theorem outlier_cloud_content (s : ImageProjection F) :
  sized U s → 0 < label_count s →
  ∃ s', CloudSegmentation U s = Ok s' ∧
    outlier_cloud s' =
      outlier_cloud s ++
      cloud_points U s' (filter (is_outlier U s') (row_major U (N_SCAN U))).
Proof.
  intros Hs Hlc.
  destruct (CloudSegmentation_spec s Hs Hlc)
    as (s1 & sr & er & G & C & R & Hinv & Hrun & _).
  destruct Hinv as [_ Hsame _ _].
  eexists. split; [exact Hrun|].
  rewrite <- (same_outlier_cloud _ _ Hsame). reflexivity.
Qed.



End Assembly.

(** ** CloudHandler on an object that is ready for a frame *)

Section Frames.
Context {F : Type} {fops : FloatOps F} (U : Utility F).

Lemma CopyPointCloud_next msg s s1 :
  CopyPointCloud U msg s = Next s1 →
  ∃ ring,
    s1 = set_laser_cloud_in_ring ring
           (set_laser_cloud_in (frame_cloud U msg)
              (set_cloud_header (Some (msg_timestamp_sec msg)) s)) ∧
    (FLAGS_use_cloud_ring U = true →
     ring = msg_points msg ∧ msg_is_dense msg = true).
Proof.
  unfold CopyPointCloud, frame_cloud.
  destruct (FLAGS_use_cloud_ring U).
  - destruct (msg_is_dense msg); [|done]. intros [= <-]. by eexists.
  - intros [= <-]. exists (laser_cloud_in_ring s). split; [|done].
    by destruct s.
Qed.

Lemma FindStartEndAngle_next (s1 s2 : ImageProjection F) :
  FindStartEndAngle s1 = Next s2 →
  ∃ front back,
    head (laser_cloud_in s1) = Some front ∧
    last (laser_cloud_in s1) = Some back ∧
    span_checked front back = true ∧
    s2 = set_seg_msg
           (set_orientationDiff (Some (orientation_span front back))
              (set_endOrientation
                 (Some (Fadd (Fatan2 (pt_x back) (pt_y back))
                             (Fmul (Fof_Z 2) M_PI)))
                 (set_startOrientation
                    (Some (Fatan2 (pt_x front) (pt_y front))) (seg_msg s1))))
           s1.
Proof.
  unfold FindStartEndAngle, span_checked.
  destruct (head (laser_cloud_in s1)) as [front|]; [|done].
  destruct (last (laser_cloud_in s1)) as [back|]; [|done].
  destruct (Fltb (orientation_span front back) _) eqn:Hupper; [|done].
  destruct (Fltb M_PI _) eqn:Hlower; [|done]. simpl. intros [= <-].
  exists front, back. by rewrite Hupper, Hlower.
Qed.

(** The three stages after FindStartEndAngle run to their end. *)
Lemma stages_run (s2 : ImageProjection F) :
  sized U s2 → 0 < label_count s2 → 0 ≤ groundScanInd U < N_SCAN U →
  (FLAGS_use_cloud_ring U = true →
   (length (laser_cloud_in s2) ≤ length (laser_cloud_in_ring s2))%nat) →
  ∃ s3 s4 t,
    ProjectPointCloud U s2 = Ok s3 ∧ GroundRemoval U s3 = Ok s4 ∧
    CloudSegmentation U s4 = Ok t ∧
    sized U t ∧ written t = written s2 ∧ cloud_header t = cloud_header s2 ∧
    stamp (seg_msg t) = stamp (seg_msg s2) ∧
    startOrientation (seg_msg t) = startOrientation (seg_msg s2) ∧
    endOrientation (seg_msg t) = endOrientation (seg_msg s2) ∧
    orientationDiff (seg_msg t) = orientationDiff (seg_msg s2).
Proof.
  intros Hs Hlc Hg Hring.
  destruct (ProjectPointCloud_spec U s2 Hs Hring)
    as (rm & fc & fic & Hrun3 & Hrm & Hfc & Hfic & _).
  set (s3 := set_full_info_cloud fic (set_full_cloud fc (set_range_mat rm s2)))
    in *.
  assert (sized U s3) as Hs3 by (destruct Hs; by split).
  destruct (GroundRemoval_spec U s3 Hs3 Hg)
    as (g & lm & Hrun4 & Hlen & Hlm & _).
  match type of Hrun4 with _ = Ok ?x => set (s4 := x) in * end.
  assert (sized U s4) as Hs4 by (destruct Hs3; by split).
  destruct (CloudSegmentation_spec U s4 Hs4 Hlc)
    as (s1 & sr & er & G & C & R & Hinv & Hrun5 & _).
  destruct Hinv as [Hs1 Hsame _ _].
  eexists s3, s4, _. split_and!; [done|done|exact Hrun5|..].
  - destruct Hs1. by split.
  - apply (same_written _ _ Hsame).
  - apply (same_cloud_header _ _ Hsame).
  - simpl. by rewrite (same_seg_msg _ _ Hsame).
  - simpl. by rewrite (same_seg_msg _ _ Hsame).
  - simpl. by rewrite (same_seg_msg _ _ Hsame).
  - simpl. by rewrite (same_seg_msg _ _ Hsame).
Qed.

(** CloudHandler once CopyPointCloud and FindStartEndAngle have passed. *)
Lemma frame_runs msg (s s1 s2 : ImageProjection F) :
  ready U s → 0 ≤ groundScanInd U < N_SCAN U →
  (FLAGS_use_cloud_ring U = true →
   (length (frame_cloud U msg) ≤ length (msg_points msg))%nat) →
  CopyPointCloud U msg s = Next s1 → FindStartEndAngle s1 = Next s2 →
  ∃ t, CloudHandler U msg s = Next (ResetParameters U (PublishCloud t)) ∧
    sized U t ∧ written t = written s ∧
    cloud_header t = Some (msg_timestamp_sec msg) ∧
    orientationDiff (seg_msg t) = orientationDiff (seg_msg s2).
Proof.
  intros [Hs Hlc] Hg Hlen Hcopy Hfind.
  destruct (CopyPointCloud_next msg s s1 Hcopy) as (ring & Hs1 & Hring).
  destruct (FindStartEndAngle_next s1 s2 Hfind)
    as (front & back & _ & _ & _ & Hs2).
  destruct (stages_run s2)
    as (s3 & s4 & t & Hrun3 & Hrun4 & Hrun5 & Ht & Hw & Hh & _ & _ & _ & Hd).
  - subst s2 s1. destruct Hs. by split.
  - by subst s2 s1.
  - done.
  - intros Hr. destruct (Hring Hr) as [-> _]. subst s2 s1. simpl.
    by apply Hlen.
  - exists t. split_and!; try done.
    + unfold CloudHandler, and_then, run.
      by rewrite Hcopy, Hfind, Hrun3, Hrun4, Hrun5.
    + rewrite Hw. by subst s2 s1.
    + rewrite Hh. by subst s2 s1.
Qed.


(** X13. On an object that is ready for a frame, CloudHandler stops in three
    cases only: in ring mode on a message that is not dense (failed check),
    on a frame whose cloud is empty once the NaN points are removed (front()
    of an empty vector), and on an orientation span outside (pi, 3 pi)
    (failed check). In each case the range image, the matrices and the
    clouds are as before the frame and nothing has been written; no stage
    after FindStartEndAngle stops. *)
Theorem frame_stops_before_projection (msg : DriverPointCloud F)
    (s s' : ImageProjection F) (e : failure) :
  ready U s → 0 ≤ groundScanInd U < N_SCAN U →
  (FLAGS_use_cloud_ring U = true →
   (length (frame_cloud U msg) ≤ length (msg_points msg))%nat) →
  CloudHandler U msg s = Halt e s' →
  untouched s s' ∧
  ((e = CheckFailed ∧ FLAGS_use_cloud_ring U = true ∧
    msg_is_dense msg = false) ∨
   (e = OutOfBounds ∧ frame_cloud U msg = []) ∨
   (e = CheckFailed ∧
    ∃ front back,
      head (frame_cloud U msg) = Some front ∧
      last (frame_cloud U msg) = Some back ∧
      span_checked front back = false)).
Proof.
  intros Hready Hg Hlen Hhalt.
  destruct (CopyPointCloud U msg s) as [s1|e1 s1] eqn:Hcopy.
  - destruct (CopyPointCloud_next msg s s1 Hcopy) as (ring & Hs1 & _).
    assert (untouched s s1) as Hun
      by (by apply (CopyPointCloud_untouched U msg s s1 e); left).
    assert (laser_cloud_in s1 = frame_cloud U msg) as Hcloud by (by subst s1).
    destruct (FindStartEndAngle s1) as [s2|e2 s2] eqn:Hfind.
    + destruct (frame_runs msg s s1 s2 Hready Hg Hlen Hcopy Hfind)
        as (t & Hrun & _). congruence.
    + assert (CloudHandler U msg s = Halt e2 s2) as Hrun.
      { unfold CloudHandler, and_then. by rewrite Hcopy, Hfind. }
      rewrite Hrun in Hhalt. injection Hhalt as <- <-.
      unfold FindStartEndAngle in Hfind. rewrite Hcloud in Hfind.
      destruct (head (frame_cloud U msg)) as [front|] eqn:Hfront.
      * destruct (last (frame_cloud U msg)) as [back|] eqn:Hback.
        -- assert (untouched s
             (set_seg_msg
                (set_orientationDiff (Some (orientation_span front back))
                   (set_endOrientation
                      (Some (Fadd (Fatan2 (pt_x back) (pt_y back))
                                  (Fmul (Fof_Z 2) M_PI)))
                      (set_startOrientation
                         (Some (Fatan2 (pt_x front) (pt_y front)))
                         (seg_msg s1)))) s1)) as Hun'.
           { destruct Hun as (? & ? & ? & ? & ? & ? & ? & ? & ? & ? & ?).
             by repeat split. }
           unfold span_checked.
           destruct (Fltb (orientation_span front back) _) eqn:Hupper;
             simpl in Hfind.
           ++ destruct (Fltb M_PI _) eqn:Hlower; simpl in Hfind; [done|].
              injection Hfind as <- <-. split; [done|].
              right. right. split; [done|]. exists front, back.
              by rewrite Hupper, Hlower.
           ++ injection Hfind as <- <-. split; [done|].
              right. right. split; [done|]. exists front, back.
              by rewrite Hupper.
        -- injection Hfind as <- <-. split; [done|]. right. left.
           split; [done|]. by apply last_None.
      * injection Hfind as <- <-. split; [done|]. right. left.
        split; [done|]. by apply head_None.
  - assert (CloudHandler U msg s = Halt e1 s1) as Hrun.
    { unfold CloudHandler, and_then. by rewrite Hcopy. }
    rewrite Hrun in Hhalt. injection Hhalt as <- <-. split.
    + by apply (CopyPointCloud_untouched U msg s s1 e1); right.
    + left. unfold CopyPointCloud in Hcopy.
      destruct (FLAGS_use_cloud_ring U); [|done].
      destruct (msg_is_dense msg); [done|]. by injection Hcopy as <- _.
Qed.

End Frames.

(** ** The object from its construction on *)

Section Lifecycle.
Context {F : Type} {fops : FloatOps F} (U : Utility F).

(** On an object whose range image is empty, the loop body of
    ProjectPointCloud writes nothing. *)
Lemma project_point_unallocated i (s s' : ImageProjection F) :
  range_mat s = [] → project_point U i s = Ok s' → s' = s.
Proof.
  intros Hrm. unfold project_point. intros Hrun.
  apply bind_inv in Hrun as (p & _ & Hrun).
  apply bind_inv in Hrun as (cell & _ & Hrun).
  destruct cell as [[[r c] rg]|]; [|by injection Hrun].
  apply bind_inv in Hrun as (rm & Hset & _).
  unfold mat_set in Hset. rewrite Hrm in Hset. simpl in Hset.
  case_bool_decide as Hin; [|done]. lia.
Qed.

Lemma ProjectPointCloud_unallocated (s s' : ImageProjection F) :
  range_mat s = [] → ProjectPointCloud U s = Ok s' → s' = s.
Proof.
  intros Hrm. unfold ProjectPointCloud.
  generalize (seqZ 0 (Z.of_nat (length (laser_cloud_in s)))). intros xs.
  induction xs as [|a xs IH]; simpl; [by intros [= <-]|].
  intros Hrun. apply bind_inv in Hrun as (t & Ht & Hrun).
  apply (project_point_unallocated a s t Hrm) in Ht as ->. by apply IH.
Qed.

Lemma for_each_first_err {S A} (a : A) (xs : list A) (body : A → S → res S)
    s e :
  body a s = Err e → for_each (a :: xs) body s = Err e.
Proof. intros He. simpl. by rewrite He. Qed.

(** Without its matrices and dense cloud, GroundRemoval leaves a
    container at its first access. *)
Lemma GroundRemoval_unallocated (s : ImageProjection F) :
  0 < N_SCAN U → 0 < HORIZON_SCAN U →
  ground_mat s = [] → full_cloud s = [] →
  GroundRemoval U s = Err OutOfBounds.
Proof.
  intros HN HH Hgm Hfc. unfold GroundRemoval, for_rows_cols.
  rewrite (seqZ_cons 0 (HORIZON_SCAN U)) by done.
  destruct (decide (0 < groundScanInd U)) as [Hpos|Hneg].
  - rewrite (seqZ_cons 0 (groundScanInd U)) by done.
    rewrite for_each_first_err with (e := OutOfBounds); [done|].
    apply for_each_first_err. unfold ground_pair. rewrite Hfc.
    by unfold vec_get.
  - rewrite (seqZ_nil 0 (groundScanInd U)) by lia.
    rewrite (seqZ_cons 0 (N_SCAN U)) by done.
    change (for_each [] _ s) with (Ok s). rewrite bind_Ok.
    rewrite for_each_first_err with (e := OutOfBounds); [done|].
    apply for_each_first_err. unfold exclude_cell. rewrite Hgm.
    unfold mat_at. by case_bool_decide.
Qed.

Lemma FindStartEndAngle_assigns (s s' : ImageProjection F) e :
  FindStartEndAngle s = Next s' ∨ FindStartEndAngle s = Halt e s' →
  ∃ m, s' = set_seg_msg m s.
Proof.
  unfold FindStartEndAngle.
  destruct (head (laser_cloud_in s)) as [front|];
    [destruct (last (laser_cloud_in s)) as [back|]|].
  - destruct (negb _); [|destruct (negb _)];
      intros [Hr|Hr]; simplify_eq; by eexists.
  - intros [[=]|[= _ <-]]. exists (seg_msg s). by destruct s.
  - intros [[=]|[= _ <-]]. exists (seg_msg s). by destruct s.
Qed.

(** X14. Neither the constructor nor Init runs AllocateMemory or
    ResetParameters. On an object that has only been constructed the range
    image, the matrices and the dense clouds have no cells, and CloudHandler
    cannot process a frame: whatever the message, it stops (a failed check
    or an access outside a container) and nothing is written. *)
Theorem constructed_object_cannot_take_a_frame (msg : DriverPointCloud F) :
  0 < N_SCAN U → 0 < HORIZON_SCAN U →
  ∃ e s', CloudHandler U msg (ImageProjection_ctor U) = Halt e s' ∧
          written s' = [].
Proof.
  intros HN HH. set (s := ImageProjection_ctor U).
  unfold CloudHandler, and_then.
  destruct (CopyPointCloud U msg s) as [s1|e1 s1] eqn:Hcopy.
  - destruct (CopyPointCloud_next U msg s s1 Hcopy) as (ring & Hs1 & _).
    destruct (FindStartEndAngle s1) as [s2|e2 s2] eqn:Hfind.
    + destruct (FindStartEndAngle_assigns s1 s2 CheckFailed) as [m Hs2];
        [by left|].
      unfold run.
      destruct (ProjectPointCloud U s2) as [s3|e3] eqn:Hrun3.
      * apply ProjectPointCloud_unallocated in Hrun3 as ->; [|by subst s2 s1].
        rewrite GroundRemoval_unallocated by (done || by subst s2 s1).
        eexists _, _. split; [done|]. by subst s2 s1.
      * eexists _, _. split; [done|]. by subst s2 s1.
    + destruct (FindStartEndAngle_assigns s1 s2 e2) as [m Hs2]; [by right|].
      eexists _, _. split; [done|]. by subst s2 s1.
  - eexists _, _. split; [done|].
    destruct (CopyPointCloud_untouched U msg s s1 e1) as (_ & _ & _ & _ & _ & _ & _ & _ & _ & _ & ->);
      [by right|done].
Qed.

Lemma allocated_object_ready :
  ready U (ResetParameters U (AllocateMemory U (ImageProjection_ctor U))).
Proof.
  split; [|simpl; lia].
  split; cbn -[take replicate]; unfold resize_vec;
    rewrite ?length_replicate, ?length_app, ?length_take, ?length_replicate;
    simpl; lia.
Qed.

Lemma handle_frames_ready msgs (s : ImageProjection F) :
  ready U s → 0 ≤ groundScanInd U < N_SCAN U →
  Forall (well_formed U) msgs →
  ∃ s', handle_frames U msgs s = Next s' ∧ ready U s' ∧
    length (written s') = (length (written s) + 7 * length msgs)%nat.
Proof.
  intros Hready Hg Hmsgs. revert s Hready.
  induction Hmsgs as [|msg msgs Hmsg _ IH]; intros s Hready.
  - exists s. simpl. split_and!; [done|done|lia].
  - destruct Hmsg as [Hring (front & back & Hfront & Hback & Hspan)].
    set (s1 := set_laser_cloud_in_ring
                 (if FLAGS_use_cloud_ring U then msg_points msg
                  else laser_cloud_in_ring s)
                 (set_laser_cloud_in (frame_cloud U msg)
                    (set_cloud_header (Some (msg_timestamp_sec msg)) s))).
    assert (CopyPointCloud U msg s = Next s1) as Hcopy.
    { unfold CopyPointCloud, s1, frame_cloud.
      destruct (FLAGS_use_cloud_ring U).
      - destruct Hring as [-> _]; done.
      - by destruct s. }
    assert (∃ s2, FindStartEndAngle s1 = Next s2) as [s2 Hfind].
    { apply andb_true_iff in Hspan as [Hupper Hlower].
      unfold FindStartEndAngle.
      change (laser_cloud_in s1) with (frame_cloud U msg).
      rewrite Hfront, Hback, Hupper, Hlower. simpl. by eexists. }
    destruct (frame_runs U msg s s1 s2 Hready Hg) as (t & Hrun & Ht & Hw & _);
      try done.
    { intros Hr. by destruct (Hring Hr). }
    destruct (IH (ResetParameters U (PublishCloud t))) as (s' & Hrest & Hs' & Hlen).
    { split; [|simpl; lia]. destruct Ht. split; simpl;
        rewrite ?length_replicate; done. }
    exists s'. split_and!; [|done|].
    + simpl. by rewrite Hrun.
    + rewrite Hlen. simpl. rewrite length_app, Hw. simpl. lia.
Qed.

(** X15. An object on which the constructor, AllocateMemory and
    ResetParameters have run processes every sequence of frames that pass
    the checks of CopyPointCloud and FindStartEndAngle: no stage leaves a
    container, each frame leaves the object ready for the next one, and
    seven messages are written per frame. *)
Theorem allocated_object_takes_frames (msgs : list (DriverPointCloud F)) :
  0 ≤ groundScanInd U < N_SCAN U →
  Forall (well_formed U) msgs →
  ∃ s',
    handle_frames U msgs
      (ResetParameters U (AllocateMemory U (ImageProjection_ctor U))) = Next s' ∧
    ready U s' ∧ length (written s') = (7 * length msgs)%nat.
Proof.
  intros Hg Hmsgs.
  destruct (handle_frames_ready msgs _ allocated_object_ready Hg Hmsgs)
    as (s' & Hrun & Hs' & Hlen).
  exists s'. by split_and!.
Qed.

End Lifecycle.

(** * The model on concrete images *)

Import Rational.

(** C1 (the code misses the claim).  On the pole, LabelComponents started
    at (0, 0) collects a cluster of 5 cells on 3 distinct rows: at least
    [segmentValidPointNum] = 5 cells spanning at least
    [segmentValidLineNum] = 3 rows, which the claim accepts.  The code
    counts the rows of the admitted cells only: the seed is alone on row 0,
    the line count is 2, the segment is not feasible, the five cells are
    relabelled INVALID and the label counter stays at 1. *)
Theorem seed_row_not_counted :
  ∃ s l s',
    grow pole_sensor (cells pole_sensor) 0 0 pole_image = Ok (s, l) ∧
    all_pushed_ind_size l = 5 ∧
    zip (take 5 (all_pushed_indX s)) (take 5 (all_pushed_indY s)) = pole_cluster ∧
    segmentValidPointNum pole_sensor ≤ Z.of_nat (length pole_cluster) ∧
    segmentValidLineNum pole_sensor ≤ Z.of_nat (length (cluster_rows pole_cluster)) ∧
    line_count l = 2 ∧
    feasible_segment pole_sensor l = false ∧
    LabelComponents pole_sensor 0 0 pole_image = Ok s' ∧
    label_mat s' =
      [LABEL_INVALID; -1; LABEL_INVALID; LABEL_INVALID; LABEL_INVALID;
       LABEL_INVALID] ∧
    label_count s' = 1 ∧ label_count pole_image = 1.
Proof.
  eexists _, _, _. split; [vm_compute; reflexivity|].
  split_and!; vm_compute; try reflexivity; discriminate.
Qed.

(** Arithmetic on closed terms. *)
Ltac closed :=
  vm_compute;
  lazymatch goal with
  | |- _ = _ => reflexivity
  | |- _ => repeat split; first [reflexivity | intros; discriminate]
  end.

(** The pole has the containers at their sizes. *)
Lemma pole_image_sized : sized pole_sensor pole_image.
Proof. split; reflexivity. Defined.


(** CloudSegmentation on the pole. *)
Lemma segmentation_resolves_every_cell_witness :
  sized pole_sensor pole_image ∧ 0 < label_count pole_image ∧
  ∃ s', CloudSegmentation pole_sensor pole_image = Ok s' ∧
    label_count pole_image ≤ label_count s' ≤
      label_count pole_image +
      Z.max 0 (N_SCAN pole_sensor) * Z.max 0 (HORIZON_SCAN pole_sensor) ∧
    ∀ r c, in_image pole_sensor r c →
      ∃ v v', label_at pole_sensor pole_image r c = Some v ∧
        label_at pole_sensor s' r c = Some v' ∧
        v' ≠ LABEL_INIT ∧
        (v ≠ LABEL_INIT → v' = v) ∧
        (v = LABEL_INIT →
           v' = LABEL_INVALID ∨
           (0 < v' ∧ label_count pole_image ≤ v' < label_count s')).
Proof.
  assert (0 < label_count pole_image) as Hlc by closed.
  split; [exact pole_image_sized|]. split; [exact Hlc|].
  exact (segmentation_resolves_every_cell pole_sensor pole_image
           pole_image_sized Hlc).
Defined.



(** C6 (counterexample).  The span of [backward_frame] is 3.5 pi.  It is
    not brought into (pi, 3 pi), though one turn less would be there: the
    frame stops at the CHECK with the span stored as computed. *)
Lemma span_is_checked_not_corrected :
  ∃ s' d,
    CloudHandler ground_sensor backward_frame (fresh ground_sensor)
      = Halt CheckFailed s' ∧
    orientationDiff (seg_msg s') = Some d ∧
    Fltb d (Fmul (Fof_Z 3) M_PI) = false ∧
    Fltb M_PI (Fsub d (Fmul (Fof_Z 2) M_PI)) = true ∧
    Fltb (Fsub d (Fmul (Fof_Z 2) M_PI)) (Fmul (Fof_Z 3) M_PI) = true.
Proof.
  eexists _, _. split; [vm_compute; reflexivity|].
  split; [vm_compute; reflexivity|]. split_and!; closed.
Qed.

(** [backward_frame] is stopped. *)
Lemma span_outside_interval_stops_frame_witness :
  CopyPointCloud ground_sensor backward_frame (fresh ground_sensor)
    = Next backward_copied ∧
  head (laser_cloud_in backward_copied) = Some (point (-1) (-1) 0) ∧
  last (laser_cloud_in backward_copied) = Some (point 1 (-1) 0) ∧
  ∃ s', CloudHandler ground_sensor backward_frame (fresh ground_sensor)
          = Halt CheckFailed s' ∧
        untouched (fresh ground_sensor) s'.
Proof.
  assert (CopyPointCloud ground_sensor backward_frame (fresh ground_sensor)
          = Next backward_copied) as H1 by closed.
  assert (head (laser_cloud_in backward_copied) = Some (point (-1) (-1) 0))
    as H2 by closed.
  assert (last (laser_cloud_in backward_copied) = Some (point 1 (-1) 0))
    as H3 by closed.
  do 3 (split; [assumption|]).
  destruct (span_outside_interval_stops_frame ground_sensor backward_frame
              (fresh ground_sensor) backward_copied _ _ H1 H2 H3)
    as [Hout _].
  destruct Hout as (s' & Hrun & _ & Hun); [closed|].
  exists s'. split; [exact Hrun | exact Hun].
Defined.

(** C7 (counterexample).  With the label counter at 0 an enqueued cell keeps
    the label 0 and is enqueued again from each of its neighbours: on the
    pole the seventh push is past the 6 slots of the work arrays.  Nothing
    checks the bound: the run reaches the access outside the array, not a
    failed assertion. *)
Lemma zero_label_counter_overruns_arrays :
  sized pole_sensor pole_image_unnumbered ∧
  in_image pole_sensor 0 0 ∧
  label_at pole_sensor pole_image_unnumbered 0 0 = Some LABEL_INIT ∧
  Z.of_nat (length (queue_indX pole_image_unnumbered)) =
    N_SCAN pole_sensor * HORIZON_SCAN pole_sensor ∧
  LabelComponents pole_sensor 0 0 pole_image_unnumbered = Err OutOfBounds ∧
  LabelComponents pole_sensor 0 0 pole_image_unnumbered ≠ Err CheckFailed.
Proof.
  split; [split; reflexivity|]. split_and!; closed.
Qed.

(** The flood fill of the pole stays within the 6 slots. *)
Lemma work_queue_within_capacity_witness :
  sized pole_sensor pole_image ∧ in_image pole_sensor 0 0 ∧
  label_count pole_image ≠ 0 ∧
  ∃ s l s',
    grow pole_sensor (cells pole_sensor) 0 0 pole_image = Ok (s, l) ∧
    LabelComponents pole_sensor 0 0 pole_image = Ok s' ∧
    0 < all_pushed_ind_size l ≤ N_SCAN pole_sensor * HORIZON_SCAN pole_sensor ∧
    queue_end_ind l = all_pushed_ind_size l.
Proof.
  assert (in_image pole_sensor 0 0) as H2 by closed.
  assert (label_count pole_image ≠ 0) as H3 by closed.
  split; [exact pole_image_sized|]. split; [exact H2|]. split; [exact H3|].
  destruct (work_queue_within_capacity pole_sensor pole_image 0 0
              pole_image_sized H2 H3)
    as (s & l & s' & pushed & Hgrow & Hrun & Hsize & Hend & _).
  exists s, l, s'. split; [exact Hgrow|]. split; [exact Hrun|].
  split; [exact Hsize | exact Hend].
Defined.

(** C8 (counterexample).  After the frame of two ground returns has been
    processed and the parameters reset, the object is not back to its
    initial values and does hold data of the frame: the two dense clouds,
    which are among the six output clouds, are not empty (they have their 8
    slots), and the segmentation metadata, which ResetParameters does not
    assign, still holds the time stamp, the orientations, the ring index
    table and the column indices of the frame. *)
Lemma reset_leaves_frame_data :
  CloudHandler ground_sensor ground_frame (fresh ground_sensor) = Next ground_done ∧
  seg_msg (fresh ground_sensor) = CloudInfo_init ∧
  length (full_cloud ground_done) = 8%nat ∧
  length (full_info_cloud ground_done) = 8%nat ∧
  seg_msg ground_done ≠ CloudInfo_init ∧
  stamp (seg_msg ground_done) = Some (msg_timestamp_sec ground_frame) ∧
  startRingIndex (seg_msg ground_done) !! 1 = Some 5 ∧
  segmentedCloudColInd (seg_msg ground_done) !! 0 = Some 3 ∧
  segmentedCloudColInd (seg_msg ground_done) !! 1 = Some 3.
Proof.
  split_and!; closed.
Qed.

(** The object after the frame of two ground returns. *)
Lemma reset_after_every_frame_witness :
  CloudHandler ground_sensor ground_frame (fresh ground_sensor) = Next ground_done ∧
  range_mat ground_done = replicate (cells ground_sensor) FLT_MAX ∧
  ground_mat ground_done = replicate (cells ground_sensor) 0 ∧
  label_mat ground_done = replicate (cells ground_sensor) LABEL_INIT ∧
  label_count ground_done = 1 ∧
  ground_cloud ground_done = [] ∧ segmented_cloud ground_done = [] ∧
  segmented_cloud_pure ground_done = [] ∧ outlier_cloud ground_done = [].
Proof.
  assert (CloudHandler ground_sensor ground_frame (fresh ground_sensor)
          = Next ground_done) as H1 by closed.
  split; [exact H1|].
  destruct (reset_after_every_frame ground_sensor ground_frame
              (fresh ground_sensor) ground_done H1)
    as (t & _ & Hr & Hg & Hl & Hc & _ & _ & Hgc & Hsc & Hpc & Hoc & _).
  by repeat split.
Defined.

(** C9 (counterexample).  On the rows beyond the ground-candidate row the
    outlier cloud does not receive every 5th INVALID cell: of the five
    INVALID cells of [scattered], none of them in a column that is a
    multiple of 5, it receives none, and of the two INVALID cells of
    [aligned], in the columns 0 and 5, it receives both. *)
Lemma outliers_follow_columns_not_counts :
  (invalid_beyond_ground outlier_sensor scattered = 5%nat ∧
   ∃ s', CloudSegmentation outlier_sensor scattered = Ok s' ∧
         outlier_cloud s' = []) ∧
  (invalid_beyond_ground outlier_sensor aligned = 2%nat ∧
   ∃ s', CloudSegmentation outlier_sensor aligned = Ok s' ∧
         length (outlier_cloud s') = 2%nat).
Proof.
  split; (split; [closed|]); eexists; (split; [vm_compute; reflexivity|]); closed.
Qed.

(** The INVALID cell (1, 5) of [aligned] goes to the outlier cloud. *)
Lemma invalid_cell_sampled_by_column_witness :
  mat_at outlier_sensor (label_mat aligned) 1 5 = Ok LABEL_INVALID ∧
  mat_at outlier_sensor (ground_mat aligned) 1 5 = Ok 0 ∧
  full_cloud aligned !! offset outlier_sensor 1 5 = Some nan_point ∧
  ∃ s', assemble_cell outlier_sensor 1 5 (aligned, 0) = Ok (s', 0) ∧
        outlier_cloud s' = outlier_cloud aligned ++ [nan_point].
Proof.
  assert (mat_at outlier_sensor (label_mat aligned) 1 5 = Ok LABEL_INVALID)
    as H1 by closed.
  assert (mat_at outlier_sensor (ground_mat aligned) 1 5 = Ok 0) as H2 by closed.
  assert (full_cloud aligned !! offset outlier_sensor 1 5 = Some nan_point)
    as H3 by closed.
  do 3 (split; [assumption|]).
  destruct (invalid_cell_sampled_by_column outlier_sensor aligned 0 1 5 0
              nan_point H1 H2 H3) as (s' & Hrun & _ & _ & Hout).
  exists s'. split; [exact Hrun|]. rewrite Hout. closed.
Defined.



(** ** The whole stages on the concrete sensors *)

Lemma ground_projected_sized : sized ground_sensor ground_projected.
Proof. split; closed. Defined.

Lemma ground_angled_sized : sized ground_sensor ground_angled.
Proof. split; closed. Defined.

Lemma fresh_ground_ready : ready ground_sensor (fresh ground_sensor).
Proof. split; [split; closed|closed]. Defined.

Lemma ground_frame_well_formed : well_formed ground_sensor ground_frame.
Proof.
  split; [intros Hring; vm_compute in Hring; discriminate|].
  exists (point 0 1 0), (point 0 10 (Qmake 2 10)). split_and!; closed.
Defined.

(** The flood fill from the cell (0, 0) of the pole. *)
Lemma segment_is_reachable_set_witness :
  sized pole_sensor pole_image ∧ in_image pole_sensor 0 0 ∧
  label_count pole_image ≠ 0 ∧
  ∃ pushed s',
    LabelComponents pole_sensor 0 0 pole_image = Ok s' ∧ NoDup pushed ∧
    ∀ n, n ∈ pushed ↔ reaches pole_sensor pole_image (0, 0) n.
Proof.
  assert (in_image pole_sensor 0 0) as H2 by closed.
  assert (label_count pole_image ≠ 0) as H3 by closed.
  split; [exact pole_image_sized|]. split; [exact H2|]. split; [exact H3|].
  destruct (segment_is_reachable_set pole_sensor pole_image 0 0
              pole_image_sized H2 H3) as (pushed & s' & Hrun & Hnd & Hreach & _).
  exists pushed, s'. split; [exact Hrun|]. split; [exact Hnd|exact Hreach].
Defined.

(** LabelComponents on the pole. *)
Lemma label_components_effect_witness :
  sized pole_sensor pole_image ∧ in_image pole_sensor 0 0 ∧
  0 < label_count pole_image ∧
  ∃ pushed s',
    LabelComponents pole_sensor 0 0 pole_image = Ok s' ∧
    head pushed = Some (0, 0) ∧ NoDup pushed.
Proof.
  assert (in_image pole_sensor 0 0) as H2 by closed.
  assert (0 < label_count pole_image) as H3 by closed.
  split; [exact pole_image_sized|]. split; [exact H2|]. split; [exact H3|].
  destruct (label_components_effect pole_sensor pole_image 0 0
              pole_image_sized H2 H3) as (pushed & s' & Hrun & Hhead & Hnd & _).
  exists pushed, s'. split; [exact Hrun|]. split; [exact Hhead|exact Hnd].
Defined.

(** GroundRemoval on the two ground returns. *)
Lemma ground_removal_assigns_three_members_witness :
  sized ground_sensor ground_projected ∧
  0 ≤ groundScanInd ground_sensor < N_SCAN ground_sensor ∧
  ∃ g lm gc,
    GroundRemoval ground_sensor ground_projected =
      Ok (set_ground_cloud gc (set_label_mat lm (set_ground_mat g ground_projected))) ∧
    length g = cells ground_sensor ∧ length lm = cells ground_sensor.
Proof.
  assert (0 ≤ groundScanInd ground_sensor < N_SCAN ground_sensor) as H2
    by closed.
  split; [exact ground_projected_sized|]. split; [exact H2|].
  destruct (ground_removal_assigns_three_members ground_sensor ground_projected
              ground_projected_sized H2) as (g & lm & gc & Hrun & Hg & Hlm & _).
  exists g, lm, gc. split; [exact Hrun|]. split; [exact Hg|exact Hlm].
Defined.

Lemma ground_removal_excludes_cells_witness :
  sized ground_sensor ground_projected ∧
  0 ≤ groundScanInd ground_sensor < N_SCAN ground_sensor ∧
  in_image ground_sensor 0 3 ∧
  ∃ s' m rg,
    GroundRemoval ground_sensor ground_projected = Ok s' ∧
    ground_mat s' !! offset ground_sensor 0 3 = Some m ∧
    range_mat ground_projected !! offset ground_sensor 0 3 = Some rg ∧
    label_at ground_sensor s' 0 3 =
      if bool_decide (m = 1) || Feqb rg FLT_MAX then Some (-1)
      else label_at ground_sensor ground_projected 0 3.
Proof.
  assert (0 ≤ groundScanInd ground_sensor < N_SCAN ground_sensor) as H2
    by closed.
  assert (in_image ground_sensor 0 3) as H3 by closed.
  split; [exact ground_projected_sized|]. split; [exact H2|].
  split; [exact H3|].
  destruct (ground_removal_excludes_cells ground_sensor ground_projected
              ground_projected_sized H2) as (s' & Hrun & _ & Hcells).
  destruct (Hcells 0 3 H3) as (m & rg & Hm & Hrg & Hlabel).
  exists s', m, rg. split; [exact Hrun|]. split; [exact Hm|].
  split; [exact Hrg|exact Hlabel].
Defined.

Lemma ground_cloud_lists_marked_cells_witness :
  sized ground_sensor ground_projected ∧
  0 ≤ groundScanInd ground_sensor < N_SCAN ground_sensor ∧
  ∃ s', GroundRemoval ground_sensor ground_projected = Ok s' ∧
    ground_cloud s' =
      ground_cloud ground_projected ++
      cloud_points ground_sensor s'
        (filter (λ c, ground_of ground_sensor s' c = 1)
           (row_major ground_sensor (groundScanInd ground_sensor + 1))).
Proof.
  assert (0 ≤ groundScanInd ground_sensor < N_SCAN ground_sensor) as H2
    by closed.
  split; [exact ground_projected_sized|]. split; [exact H2|].
  destruct (ground_cloud_lists_marked_cells ground_sensor ground_projected
              ground_projected_sized H2) as (s' & Hrun & _ & Hcloud).
  exists s'. split; [exact Hrun|exact Hcloud].
Defined.

Lemma ground_marks_need_returns_witness :
  sized ground_sensor ground_projected ∧
  0 ≤ groundScanInd ground_sensor < N_SCAN ground_sensor ∧
  ∃ s', GroundRemoval ground_sensor ground_projected = Ok s' ∧
    ∀ r c, in_image ground_sensor r c →
      ground_mat s' !! offset ground_sensor r c = Some 1 →
      ground_mat ground_projected !! offset ground_sensor r c = Some 1 ∨
      ∃ p, full_cloud ground_projected !! offset ground_sensor r c = Some p ∧
           IsNaN ground_sensor p = false.
Proof.
  assert (0 ≤ groundScanInd ground_sensor < N_SCAN ground_sensor) as H2
    by closed.
  split; [exact ground_projected_sized|]. split; [exact H2|].
  destruct (ground_marks_need_returns ground_sensor ground_projected
              ground_projected_sized H2) as (s' & Hrun & _ & Hmarks).
  exists s'. split; [exact Hrun|exact Hmarks].
Defined.

(** ProjectPointCloud on the two ground returns. *)
Lemma projection_keeps_last_return_witness :
  sized ground_sensor ground_angled ∧
  (FLAGS_use_cloud_ring ground_sensor = true →
   (length (laser_cloud_in ground_angled) ≤
    length (laser_cloud_in_ring ground_angled))%nat) ∧
  ∃ rm fc fic,
    ProjectPointCloud ground_sensor ground_angled =
      Ok (set_full_info_cloud fic
            (set_full_cloud fc (set_range_mat rm ground_angled))) ∧
    length rm = cells ground_sensor.
Proof.
  assert (FLAGS_use_cloud_ring ground_sensor = true →
          (length (laser_cloud_in ground_angled) ≤
           length (laser_cloud_in_ring ground_angled))%nat) as H2
    by (intros Hring; vm_compute in Hring; discriminate).
  split; [exact ground_angled_sized|]. split; [exact H2|].
  destruct (projection_keeps_last_return ground_sensor ground_angled
              ground_angled_sized H2) as (rm & fc & fic & Hrun & Hrm & _).
  exists rm, fc, fic. split; [exact Hrun|exact Hrm].
Defined.

Lemma projected_ranges_reach_minimum_witness :
  sized ground_sensor ground_angled ∧
  (FLAGS_use_cloud_ring ground_sensor = true →
   (length (laser_cloud_in ground_angled) ≤
    length (laser_cloud_in_ring ground_angled))%nat) ∧
  ∃ s', ProjectPointCloud ground_sensor ground_angled = Ok s' ∧
    ∀ r c, in_image ground_sensor r c →
      range_mat s' !! offset ground_sensor r c =
        range_mat ground_angled !! offset ground_sensor r c ∨
      ∃ rg, range_mat s' !! offset ground_sensor r c = Some rg ∧
            Fltb rg (FLAGS_sensor_minimum_range ground_sensor) = false.
Proof.
  assert (FLAGS_use_cloud_ring ground_sensor = true →
          (length (laser_cloud_in ground_angled) ≤
           length (laser_cloud_in_ring ground_angled))%nat) as H2
    by (intros Hring; vm_compute in Hring; discriminate).
  split; [exact ground_angled_sized|]. split; [exact H2|].
  exact (projected_ranges_reach_minimum ground_sensor ground_angled
           ground_angled_sized H2).
Defined.


Lemma ring_index_table_witness :
  sized pole_sensor pole_image ∧ 0 < label_count pole_image ∧
  ∃ s', CloudSegmentation pole_sensor pole_image = Ok s' ∧
    startRingIndex (seg_msg s') !! 0 =
      Some (segmented_before pole_sensor s' 0 + 4) ∧
    endRingIndex (seg_msg s') !! 0 =
      Some (segmented_before pole_sensor s' (0 + 1) - 6).
Proof.
  assert (0 < label_count pole_image) as H2 by closed.
  split; [exact pole_image_sized|]. split; [exact H2|].
  destruct (ring_index_table pole_sensor pole_image pole_image_sized H2)
    as (s' & Hrun & Hrows).
  exists s'. split; [exact Hrun|]. apply Hrows. closed.
Defined.

Lemma outlier_cloud_content_witness :
  sized outlier_sensor aligned ∧ 0 < label_count aligned ∧
  ∃ s', CloudSegmentation outlier_sensor aligned = Ok s' ∧
    outlier_cloud s' =
      outlier_cloud aligned ++
      cloud_points outlier_sensor s'
        (filter (is_outlier outlier_sensor s')
           (row_major outlier_sensor (N_SCAN outlier_sensor))).
Proof.
  assert (sized outlier_sensor aligned) as H1 by (split; closed).
  assert (0 < label_count aligned) as H2 by closed.
  split; [exact H1|]. split; [exact H2|].
  exact (outlier_cloud_content outlier_sensor aligned H1 H2).
Defined.




(** [backward_frame] is stopped in FindStartEndAngle. *)
Lemma frame_stops_before_projection_witness :
  ready ground_sensor (fresh ground_sensor) ∧
  0 ≤ groundScanInd ground_sensor < N_SCAN ground_sensor ∧
  CloudHandler ground_sensor backward_frame (fresh ground_sensor) =
    Halt CheckFailed backward_stopped ∧
  untouched (fresh ground_sensor) backward_stopped.
Proof.
  assert (0 ≤ groundScanInd ground_sensor < N_SCAN ground_sensor) as H2
    by closed.
  assert (FLAGS_use_cloud_ring ground_sensor = true →
          (length (frame_cloud ground_sensor backward_frame) ≤
           length (msg_points backward_frame))%nat) as H3
    by (intros Hring; vm_compute in Hring; discriminate).
  assert (CloudHandler ground_sensor backward_frame (fresh ground_sensor) =
          Halt CheckFailed backward_stopped) as H4 by closed.
  split; [exact fresh_ground_ready|]. split; [exact H2|]. split; [exact H4|].
  destruct (frame_stops_before_projection ground_sensor backward_frame
              (fresh ground_sensor) backward_stopped CheckFailed
              fresh_ground_ready H2 H3 H4) as [Hun _].
  exact Hun.
Defined.

(** The pole sensor, constructed only. *)
Lemma constructed_object_cannot_take_a_frame_witness :
  0 < N_SCAN pole_sensor ∧ 0 < HORIZON_SCAN pole_sensor ∧
  ∃ e s',
    CloudHandler pole_sensor ground_frame (ImageProjection_ctor pole_sensor)
      = Halt e s' ∧
    written s' = [].
Proof.
  assert (0 < N_SCAN pole_sensor) as H1 by closed.
  assert (0 < HORIZON_SCAN pole_sensor) as H2 by closed.
  split; [exact H1|]. split; [exact H2|].
  exact (constructed_object_cannot_take_a_frame pole_sensor ground_frame H1 H2).
Defined.

(** Two frames in a row. *)
Lemma allocated_object_takes_frames_witness :
  0 ≤ groundScanInd ground_sensor < N_SCAN ground_sensor ∧
  Forall (well_formed ground_sensor) [ground_frame; ground_frame] ∧
  ∃ s',
    handle_frames ground_sensor [ground_frame; ground_frame]
      (ResetParameters ground_sensor
         (AllocateMemory ground_sensor (ImageProjection_ctor ground_sensor)))
      = Next s' ∧
    ready ground_sensor s' ∧ length (written s') = (7 * 2)%nat.
Proof.
  assert (0 ≤ groundScanInd ground_sensor < N_SCAN ground_sensor) as H1
    by closed.
  assert (Forall (well_formed ground_sensor) [ground_frame; ground_frame])
    as H2.
  { apply Forall_cons. split; [exact ground_frame_well_formed|].
    apply Forall_cons. split; [exact ground_frame_well_formed|].
    apply Forall_nil_2. }
  split; [exact H1|]. split; [exact H2|].
  exact (allocated_object_takes_frames ground_sensor
           [ground_frame; ground_frame] H1 H2).
Defined.

